(** * gremlin-go driver: GraphBinary codec, ResultSet and driver settings

    A shallow embedding of the Go sources of the gremlin-go driver
    (GraphBinary serializer, channelResultSet, NewDriverRemoteConnection)
    together with the properties established about them.

    Conventions of the embedding.
    - A [bytes.Buffer] is the list of its unread bytes; writing appends at
      the end, reading consumes from the front.
    - A Go function returning [(interface{}, error)] returns a value paired
      with [option Error]; a run-time panic is an outcome of its own, in
      the writers as in the readers.
    - Fixed-width integers are [Z] with the wrap-around written out; single
      bytes are [Init.Byte.byte]; a Go [string] is the list of its bytes.
    - A float is carried as its IEEE-754 bit pattern, which is all that
      [encoding/binary] looks at.
    - A call on a result set is given twice: as a function of the result
      set, for what the call does to the queue when it runs on its own,
      and as a goroutine that takes one statement at a time, for what
      the mutexes and the wait signal do between calls. *)

From Stdlib Require Import ZArith List Lia Bool String.
From coqutil Require Import Byte Word.LittleEndianList.
Import ListNotations.
Local Open Scope Z_scope.

(* ================================================================== *)
(** * Part I: definitions *)
(* ================================================================== *)

(** ** Go values held in an [interface{}] *)

(** The integer types of Go, as the type switch of [getSerializerToWrite]
    tells them apart. *)
Inductive GoInt : Type :=
| Int8 | Int16 | Int32 | Int64 | Int
| Uint8 | Uint16 | Uint32 | Uint64 | Uint.

Definition GoInt_eqb (a b : GoInt) : bool :=
  match a, b with
  | Int8, Int8 | Int16, Int16 | Int32, Int32 | Int64, Int64 | Int, Int
  | Uint8, Uint8 | Uint16, Uint16 | Uint32, Uint32 | Uint64, Uint64
  | Uint, Uint => true
  | _, _ => false
  end.

(** [instruction] of bytecode.go: [{operator string; arguments []interface{}}]. *)
Record instruction (V : Type) : Type := mkInstruction
  { operator : list byte;
    arguments : list V }.
Arguments mkInstruction {V} _ _.
Arguments operator {V} _.
Arguments arguments {V} _.

(** Nested induction over lists, pairs and instructions of values. *)
Scheme All for list.
Scheme All for prod.
Scheme All for instruction.

(** The dynamic values the codec meets.  [VTraverser] is the struct value
    [Traverser{bulk, value}] (what the TraverserType reader returns),
    [VTraverserPtr] is a [*Traverser] (what [addResult] looks for).
    [VBigInt] is a non-nil [*big.Int], [VUUID] a [uuid.UUID] ([[16]byte]),
    [VList] a [[]interface{}], [VMap] a map given by its entries in the
    iteration order of the run, [VBytecode] a [bytecode] (its bindings are
    never serialized). *)
Inductive Value : Type :=
| VNil
| VBool (b : bool)
| VInteger (t : GoInt) (z : Z)
| VBigInt (z : Z)
| VFloat32 (bits : Z)
| VFloat64 (bits : Z)
| VString (s : list byte)
| VUUID (u : list byte)
| VList (l : list Value)
| VMap (m : list (Value * Value))
| VBytecode (stepInstructions sourceInstructions : list (instruction Value))
| VTraverser (bulk : Z) (value : Value)
| VTraverserPtr (bulk : Z) (value : Value).

(** Range of each integer type. *)
Definition GoInt_min (t : GoInt) : Z :=
  match t with
  | Int8 => - 2 ^ 7 | Int16 => - 2 ^ 15 | Int32 => - 2 ^ 31
  | Int64 | Int => - 2 ^ 63
  | Uint8 | Uint16 | Uint32 | Uint64 | Uint => 0
  end.

Definition GoInt_max (t : GoInt) : Z :=
  match t with
  | Int8 => 2 ^ 7 - 1 | Int16 => 2 ^ 15 - 1 | Int32 => 2 ^ 31 - 1
  | Int64 | Int => 2 ^ 63 - 1
  | Uint8 => 2 ^ 8 - 1 | Uint16 => 2 ^ 16 - 1 | Uint32 => 2 ^ 32 - 1
  | Uint64 | Uint => 2 ^ 64 - 1
  end.

Definition in_range (t : GoInt) (z : Z) : bool :=
  (GoInt_min t <=? z) && (z <=? GoInt_max t).

(** ** Errors and panics *)

Inductive Error : Type :=
| EOF                     (* io.EOF *)
| ErrUnexpectedEOF        (* io.ErrUnexpectedEOF *)
| ErrUnexpectedNull       (* "unexpected null value to writeType when nullable is false" *)
| ErrNotSlice             (* "did not get the expected array or slice type as input" *)
| ErrNotMap               (* "did not get the expected map type as input" *)
| ErrIsNull               (* "expected isNull check to be true for NullType" *)
| ErrNullInput            (* "input cannot be null" *)
| ErrUnmatchedDataType    (* "datatype readType from input buffer different from requested datatype" *)
| ErrUnknownDeserialize   (* "unknown data type to deserialize" *)
| ErrUnknownSerialize.    (* "unknown data type to serialize" *)

Inductive PanicKind : Type :=
| NilDereference          (* method with value receiver called through a nil pointer *)
| MakeSliceLen            (* make([]byte, n) with n < 0 *)
| UnhashableKey           (* map assignment with a slice or map inside the key *)
| ZeroValueInterface      (* Interface() on the zero reflect.Value *)
| IndexOutOfRange
| TypeAssertion           (* failed x.(T) *)
| SendOnClosedChannel.

(** ** Bytes and big-endian scalars *)

Definition Buffer : Type := list byte.

(** [binary.BigEndian] layout of [z] on [n] bytes (wrapping modulo [2^(8n)]). *)
Definition be_split (n : nat) (z : Z) : list byte := rev (le_split n z).

(** Unsigned big-endian reading. *)
Definition be_combine (bs : list byte) : Z := le_combine (rev bs).

(** Two's-complement reinterpretation of an unsigned [w]-bit pattern. *)
Definition to_signed (w : Z) (u : Z) : Z :=
  if u <? 2 ^ (w - 1) then u else u - 2 ^ w.

Definition byte_eqb (a b : byte) : bool := byte.unsigned a =? byte.unsigned b.

Fixpoint bytes_eqb (a b : list byte) : bool :=
  match a, b with
  | [], [] => true
  | x :: a', y :: b' => byte_eqb x y && bytes_eqb a' b'
  | _, _ => false
  end.

(** ** DataType *)

Inductive DataType : Type :=
| NullType | IntType | LongType | StringType | DoubleType | FloatType
| ListType | MapType | UUIDType | BytecodeType | TraverserType
| ByteType | ShortType | BooleanType | BigIntegerType.

Definition code (dataType : DataType) : Z :=
  match dataType with
  | NullType => 0xFE
  | IntType => 0x01
  | LongType => 0x02
  | StringType => 0x03
  | DoubleType => 0x07
  | FloatType => 0x08
  | ListType => 0x09
  | MapType => 0x0a
  | UUIDType => 0x0c
  | BytecodeType => 0x15
  | TraverserType => 0x21
  | ByteType => 0x24
  | ShortType => 0x26
  | BooleanType => 0x27
  | BigIntegerType => 0x23
  end.

Definition getCodeByte (dataType : DataType) : byte := byte.of_Z (code dataType).

Definition getCodeBytes (dataType : DataType) : list byte := [getCodeByte dataType].

Definition nullBytes : list byte := [getCodeByte NullType; Byte.x01].

Definition valueFlagNull : byte := Byte.x01.
Definition valueFlagNone : byte := Byte.x00.

(** [graphBinaryTypeSerializer].  The [writer] and [reader] closures of the
    Go struct are the functions [writer] and [reader] below: a serializer
    is only ever applied to the value (or the type code) it was selected
    for, so each of them dispatches once more on that value (or code). *)
Record graphBinaryTypeSerializer : Type := mkSerializer
  { dataType : DataType;
    nullFlagReturn : Value }.

(** ** math/big *)

(** [big.Int.BitLen]: length of the absolute value in bits. *)
Definition BitLen (n : Z) : Z :=
  if n =? 0 then 0 else Z.log2 (Z.abs n) + 1.

(** [big.Int.Bytes]: the absolute value as a big-endian byte slice
    without leading zero bytes. *)
Definition Bytes (n : Z) : list byte :=
  be_split (Z.to_nat ((BitLen n + 7) / 8)) (Z.abs n).

(** [big.Int.SetBytes]: the unsigned big-endian integer held in [b]. *)
Definition SetBytes (b : list byte) : Z := be_combine b.

(** [new(big.Int).Lsh(one, length)]. *)
Definition Lsh (x : Z) (n : Z) : Z := Z.shiftl x n.

(** [b&0x80 != 0] on a byte. *)
Definition msb_set (b : byte) : bool := negb (Z.land (byte.unsigned b) 0x80 =? 0).

(** [getSignedBytesFromBigInt].  [b[0]] cannot be out of range in the
    positive branch: [Bytes] of a non-zero number is not empty
    ([Bytes_pos_nonempty] below). *)
Definition getSignedBytesFromBigInt (n : Z) : list byte :=
  if Z.sgn n =? 1 then
    let b := Bytes n in
    match b with
    | b0 :: _ => if msb_set b0 then Byte.x00 :: b else b
    | [] => b
    end
  else if Z.sgn n =? -1 then
    let length := (BitLen n / 8 + 1) * 8 in
    let b := Bytes (n + Lsh 1 length) in
    match b with
    | b0 :: b1 :: _ =>
        if byte_eqb b0 Byte.xff && msb_set b1 then tl b else b
    | _ => b
    end
  else [].

(** [getBigIntFromSignedBytes]; [None] is the index-out-of-range panic of
    [b2[1:]] or [b2[0]] on a slice that is too short. *)
Definition getBigIntFromSignedBytes (b : list byte) : option Z :=
  let newBigInt := SetBytes b in
  match b with
  | [] => Some newBigInt
  | b0 :: _ =>
      if negb (msb_set b0) then Some (SetBytes b)
      else
        let length := (Z.of_nat (List.length b) * 8 / 8 + 1) * 8 in
        let b2 := Bytes (newBigInt - Lsh 1 length) in
        match b2 with
        | [] => None
        | _ :: b2 =>
            match b2 with
            | [] => None
            | c0 :: rest =>
                let b2 := if byte_eqb c0 Byte.x00 then rest else b2 in
                Some (- SetBytes b2)
            end
        end
  end.

(** IEEE-754 equality on bit patterns with [ebits] exponent and [mbits]
    fraction bits: a NaN equals nothing, the two zeros are equal. *)
Definition float_eqb (ebits mbits : Z) (a b : Z) : bool :=
  let isNaN x :=
    ((x / 2 ^ mbits) mod 2 ^ ebits =? 2 ^ ebits - 1)
    && negb (x mod 2 ^ mbits =? 0) in
  let isZero x := x mod 2 ^ (ebits + mbits) =? 0 in
  negb (isNaN a) && negb (isNaN b) && ((a =? b) || (isZero a && isZero b)).

(** ** Writing *)

(** [binary.Write(buffer, binary.BigEndian, x)] for a scalar of [n] bytes;
    a [bytes.Buffer] accepts every write. *)
Definition binaryWrite (n : nat) (z : Z) (buffer : Buffer) : Buffer :=
  buffer ++ be_split n z.

(** [getSerializerToWrite]: the serializer chosen by the type switch on the
    dynamic type of [val].  Struct and pointer kinds other than the listed
    ones fall to the [default] of the inner switch on [reflect.Kind].  A
    nil value never gets here: [write] and [writeValue] answer it first. *)
Definition getSerializerToWrite (val : Value)
  : Error + graphBinaryTypeSerializer :=
  match val with
  | VBytecode _ _ => inr (mkSerializer BytecodeType (VString []))
  | VString _ => inr (mkSerializer StringType (VString []))
  | VBigInt _ => inr (mkSerializer BigIntegerType (VBigInt 0))
  | VInteger Int64 _ | VInteger Int _ | VInteger Uint32 _ =>
      inr (mkSerializer LongType (VInteger Int 0))
  | VInteger Int32 _ | VInteger Uint16 _ =>
      inr (mkSerializer IntType (VInteger Int 0))
  | VInteger Int16 _ => inr (mkSerializer ShortType (VInteger Int 0))
  | VInteger Uint8 _ => inr (mkSerializer ByteType (VInteger Int 0))
  | VBool _ => inr (mkSerializer ByteType (VBool false))
  | VUUID _ => inr (mkSerializer UUIDType (VUUID (repeat Byte.x00 16)))
  | VFloat32 _ => inr (mkSerializer FloatType (VInteger Int 0))
  | VFloat64 _ => inr (mkSerializer DoubleType (VInteger Int 0))
  | VMap _ => inr (mkSerializer MapType VNil)
  | VList _ => inr (mkSerializer ListType VNil)
  | VNil | VInteger _ _ | VTraverser _ _ | VTraverserPtr _ _ =>
      inl ErrUnknownSerialize
  end.

Definition writeValueFlagNull (buffer : Buffer) : Buffer := buffer ++ [valueFlagNull].
Definition writeValueFlagNone (buffer : Buffer) : Buffer := buffer ++ [valueFlagNone].

(** The String writer closure: [{length}{bytes}]. *)
Definition stringWriter (s : list byte) (buffer : Buffer) : Buffer :=
  binaryWrite 4 (Z.of_nat (List.length s)) buffer ++ s.

(** [bigIntWriter]: [{length}{value_0}...{value_n}]. *)
Definition bigIntWriter (v : Z) (buffer : Buffer) : Buffer :=
  let signedBytes := getSignedBytesFromBigInt v in
  binaryWrite 4 (Z.of_nat (List.length signedBytes)) buffer ++ signedBytes.

(** Outcome of a Go function returning [([]byte, error)] into a buffer:
    the error it returned, or a panic.  The slice it returns is the
    content of the buffer (or nil next to an error). *)
Inductive Written : Type :=
| Wrote (err : option Error)
| WPanicked (p : PanicKind).

(** [k == k] for a map key: false for a NaN and for a struct holding one. *)
Fixpoint self_equal (v : Value) : bool :=
  match v with
  | VFloat32 x => float_eqb 8 23 x x
  | VFloat64 x => float_eqb 11 52 x x
  | VTraverser _ value => self_equal value
  | _ => true
  end.

Section Writers.
(** [typeSerializer.write], the fully-qualified writer the composite
    writers call back into. *)
Variable write : Value -> Buffer -> Buffer * Written.

(** The loop of [listWriter] (and of the arguments of an instruction). *)
Fixpoint writeItems (items : list Value) (buffer : Buffer)
  : Buffer * Written :=
  match items with
  | [] => (buffer, Wrote None)
  | v :: rest =>
      match write v buffer with
      | (buffer, Wrote None) => writeItems rest buffer
      | (buffer, other) => (buffer, other)
      end
  end.

(** [listWriter] once [reflect] has found a slice. *)
Definition listWriter (l : list Value) (buffer : Buffer)
  : Buffer * Written :=
  let valLen := Z.of_nat (List.length l) in
  let buffer := binaryWrite 4 valLen buffer in
  if valLen <? 1 then (buffer, Wrote None) else writeItems l buffer.

(** The loop of [mapWriter] over [v.MapKeys()].  [v.MapIndex(convKey)]
    finds the value stored under a key of the map unless the key is not
    equal to itself; it then returns the zero [reflect.Value], on which
    [Interface()] panics. *)
Fixpoint writeEntries (entries : list (Value * Value)) (buffer : Buffer)
  : Buffer * Written :=
  match entries with
  | [] => (buffer, Wrote None)
  | (k, val) :: rest =>
      match write k buffer with
      | (buffer, Wrote None) =>
          if self_equal k then
            match write val buffer with
            | (buffer, Wrote None) => writeEntries rest buffer
            | (buffer, other) => (buffer, other)
            end
          else (buffer, WPanicked ZeroValueInterface)
      | (buffer, other) => (buffer, other)
      end
  end.

Definition mapWriter (m : list (Value * Value)) (buffer : Buffer)
  : Buffer * Written :=
  writeEntries m (binaryWrite 4 (Z.of_nat (List.length m)) buffer).

(** [instructionSetWriter].  The operator goes through
    [writeValue(operator, buffer, false)]: a non-nil string, written by
    the String writer without type code and without value flag. *)
Fixpoint writeInstructions (instructions : list (instruction Value))
    (buffer : Buffer) : Buffer * Written :=
  match instructions with
  | [] => (buffer, Wrote None)
  | i :: rest =>
      let buffer := stringWriter (operator i) buffer in
      let buffer :=
        binaryWrite 4 (Z.of_nat (List.length (arguments i))) buffer in
      match writeItems (arguments i) buffer with
      | (buffer, Wrote None) => writeInstructions rest buffer
      | (buffer, other) => (buffer, other)
      end
  end.

Definition instructionSetWriter (instructions : list (instruction Value))
    (buffer : Buffer) : Buffer * Written :=
  writeInstructions instructions
    (binaryWrite 4 (Z.of_nat (List.length instructions)) buffer).

Definition bytecodeWriter (steps sources : list (instruction Value))
    (buffer : Buffer) : Buffer * Written :=
  match instructionSetWriter steps buffer with
  | (buffer, Wrote None) => instructionSetWriter sources buffer
  | (buffer, other) => (buffer, other)
  end.

(** [typeSerializer.writer(value, buffer, typeSerializer)] for the
    serializer [getSerializerToWrite value] returned. *)
Definition writer (value : Value) (buffer : Buffer)
  : Buffer * Written :=
  match value with
  | VBytecode steps sources => bytecodeWriter steps sources buffer
  | VString s => (stringWriter s buffer, Wrote None)
  | VBigInt v => (bigIntWriter v buffer, Wrote None)
  | VInteger Int64 z | VInteger Int z | VInteger Uint32 z =>
      (binaryWrite 8 z buffer, Wrote None)
  | VInteger Int32 z | VInteger Uint16 z => (binaryWrite 4 z buffer, Wrote None)
  | VInteger Int16 z => (binaryWrite 2 z buffer, Wrote None)
  | VInteger Uint8 z => (binaryWrite 1 z buffer, Wrote None)
  | VBool b => (binaryWrite 1 (if b then 1 else 0) buffer, Wrote None)
  | VUUID u => (buffer ++ u, Wrote None)
  | VFloat32 bits => (binaryWrite 4 bits buffer, Wrote None)
  | VFloat64 bits => (binaryWrite 8 bits buffer, Wrote None)
  | VMap m => mapWriter m buffer
  | VList l => listWriter l buffer
  | VNil | VInteger _ _ | VTraverser _ _ | VTraverserPtr _ _ =>
      (buffer, Wrote (Some ErrUnknownSerialize))
  end.

(** [writeTypeValue]. *)
Definition writeTypeValue (value : Value) (buffer : Buffer)
    (nullable : bool) : Buffer * Written :=
  match value with
  | VNil =>
      if negb nullable then (buffer, Wrote (Some ErrUnexpectedNull))
      else (writeValueFlagNull buffer, Wrote None)
  | _ =>
      let buffer := if nullable then writeValueFlagNone buffer else buffer in
      writer value buffer
  end.

(** [writeType]. *)
Definition writeType (value : Value) (buffer : Buffer)
  : Buffer * Written :=
  writeTypeValue value buffer true.

(** [writeValue]: a value without its type information. *)
Definition writeValue (value : Value) (buffer : Buffer) (nullable : bool)
  : Buffer * Written :=
  match value with
  | VNil =>
      if negb nullable then (buffer, Wrote (Some ErrUnexpectedNull))
      else (writeValueFlagNull buffer, Wrote None)
  | _ =>
      match getSerializerToWrite value with
      | inl err => (buffer, Wrote (Some err))
      | inr typeSerializer => writeTypeValue value buffer nullable
      end
  end.
End Writers.

(** [graphBinaryTypeSerializer.write]: an object in fully-qualified format,
    [{type_code}{type_info}{value_flag}{value}]. *)
Fixpoint write (valueObject : Value) (buffer : Buffer) {struct valueObject}
  : Buffer * Written :=
  match valueObject with
  | VNil => (buffer ++ nullBytes, Wrote None)
  | _ =>
      match getSerializerToWrite valueObject with
      | inl err => (buffer, Wrote (Some err))
      | inr typeSerializer =>
          let buffer := buffer ++ getCodeBytes (dataType typeSerializer) in
          writeType write valueObject buffer
      end
  end.

(** ** Reading *)

(** Outcome of a Go function returning [(interface{}, error)].  [NoFuel]
    only marks that the recursion allowance of the model ran out; with an
    allowance above the length of the buffer it never shows up
    ([read_total] below). *)
Inductive Res : Type :=
| Ret (val : Value) (err : option Error)
| Panicked (p : PanicKind)
| NoFuel.

(** [binary.Read(buffer, binary.BigEndian, &x)] for a scalar of [n >= 1]
    bytes, through [io.ReadFull]: nothing to read is [io.EOF], too little
    is [io.ErrUnexpectedEOF] and the bytes that were there are consumed. *)
Definition binaryRead (n : nat) (buffer : Buffer)
  : Buffer * (Error + list byte) :=
  match buffer with
  | [] => ([], inl EOF)
  | _ :: _ =>
      if (List.length buffer <? n)%nat then ([], inl ErrUnexpectedEOF)
      else (skipn n buffer, inr (firstn n buffer))
  end.

(** [buffer.ReadByte()] (and [binary.Read] of a single byte). *)
Definition ReadByte (buffer : Buffer) : Buffer * (Error + byte) :=
  match buffer with
  | [] => ([], inl EOF)
  | b :: rest => (rest, inr b)
  end.

(** [buffer.Read(p)] with [p := make([]byte, n)]: the slice after the call
    and the error.  An empty buffer answers [io.EOF] unless [n = 0]; else
    [min n (len buffer)] bytes are copied and the rest of [p] stays zero. *)
Definition bufferRead (n : nat) (buffer : Buffer)
  : Buffer * (list byte * option Error) :=
  match buffer with
  | [] => ([], (repeat Byte.x00 n, match n with O => None | S _ => Some EOF end))
  | _ :: _ =>
      let got := firstn n buffer in
      (skipn n buffer, (got ++ repeat Byte.x00 (n - List.length got), None))
  end.

(** Whether a value can be a map key: slices, maps and structs holding one
    cannot be hashed. *)
Fixpoint hashable (v : Value) : bool :=
  match v with
  | VList _ | VMap _ | VBytecode _ _ => false
  | VTraverser _ value => hashable value
  | _ => true
  end.

(** [==] on two hashable interface values: same dynamic type and equal
    value.  Pointers ([*big.Int], [*Traverser]) compare by identity, and
    two pointers held by values of this model are distinct allocations. *)
Fixpoint iface_eqb (a b : Value) : bool :=
  match a, b with
  | VNil, VNil => true
  | VBool x, VBool y => Bool.eqb x y
  | VInteger t x, VInteger u y => GoInt_eqb t u && (x =? y)
  | VFloat32 x, VFloat32 y => float_eqb 8 23 x y
  | VFloat64 x, VFloat64 y => float_eqb 11 52 x y
  | VString x, VString y => bytes_eqb x y
  | VUUID x, VUUID y => bytes_eqb x y
  | VTraverser bx x, VTraverser by_ y => (bx =? by_) && iface_eqb x y
  | _, _ => false
  end.

(** [valMap[key] = val] on the entries of a map: an equal key is replaced
    in place (key and value), a new key is added. *)
Fixpoint mapassign (m : list (Value * Value)) (key val : Value)
  : list (Value * Value) :=
  match m with
  | [] => [(key, val)]
  | (k, v) :: rest =>
      if iface_eqb k key then (key, val) :: rest
      else (k, v) :: mapassign rest key val
  end.

(** [getSerializerToRead]: the serializer for a type code.  The one for
    [ListType] is built with [dataType: IntType] in the source. *)
Definition getSerializerToRead (typ : byte)
  : Error + graphBinaryTypeSerializer :=
  if byte_eqb typ (getCodeByte TraverserType) then
    inr (mkSerializer TraverserType (VString []))
  else if byte_eqb typ (getCodeByte StringType) then
    inr (mkSerializer StringType (VString []))
  else if byte_eqb typ (getCodeByte BigIntegerType) then
    inr (mkSerializer BigIntegerType (VInteger Int 0))
  else if byte_eqb typ (getCodeByte LongType) then
    inr (mkSerializer LongType (VInteger Int 0))
  else if byte_eqb typ (getCodeByte IntType) then
    inr (mkSerializer IntType (VInteger Int 0))
  else if byte_eqb typ (getCodeByte ShortType) then
    inr (mkSerializer ShortType (VInteger Int 0))
  else if byte_eqb typ (getCodeByte ByteType) then
    inr (mkSerializer ByteType (VInteger Int 0))
  else if byte_eqb typ (getCodeByte BooleanType) then
    inr (mkSerializer BooleanType (VInteger Int 0))
  else if byte_eqb typ (getCodeByte UUIDType) then
    inr (mkSerializer UUIDType (VUUID (repeat Byte.x00 16)))
  else if byte_eqb typ (getCodeByte FloatType) then
    inr (mkSerializer FloatType (VInteger Int 0))
  else if byte_eqb typ (getCodeByte DoubleType) then
    inr (mkSerializer DoubleType (VInteger Int 0))
  else if byte_eqb typ (getCodeByte MapType) then
    inr (mkSerializer MapType VNil)
  else if byte_eqb typ (getCodeByte ListType) then
    inr (mkSerializer IntType VNil)
  else inl ErrUnknownDeserialize.

(** The scalar readers, [var val T; return val, binary.Read(buffer, ..., &val)]:
    the call is made before [val] is loaded (as the gc compiler orders it,
    and as the readers that name [err] first spell out), so a failed read
    returns the zero value next to the error. *)
Definition scalarReader (n : nat) (mk : Z -> Value) (buffer : Buffer)
  : Buffer * Res :=
  match binaryRead n buffer with
  | (buffer, inl err) => (buffer, Ret (mk 0) (Some err))
  | (buffer, inr bs) => (buffer, Ret (mk (be_combine bs)) None)
  end.

(** The String reader closure. *)
Definition stringReader (buffer : Buffer) : Buffer * Res :=
  match binaryRead 4 buffer with
  | (buffer, inl err) => (buffer, Ret VNil (Some err))
  | (buffer, inr bs) =>
      let size := to_signed 32 (be_combine bs) in
      if size <? 0 then (buffer, Panicked MakeSliceLen)
      else
        match bufferRead (Z.to_nat size) buffer with
        | (buffer, (valBytes, err)) => (buffer, Ret (VString valBytes) err)
        end
  end.

(** The loop of [bigIntReader], one [binary.Read] per byte. *)
Fixpoint readBytes (n : nat) (valList : list byte) (buffer : Buffer)
  : Buffer * (Error + list byte) :=
  match n with
  | O => (buffer, inr valList)
  | S n =>
      match ReadByte buffer with
      | (buffer, inl err) => (buffer, inl err)
      | (buffer, inr b) => readBytes n (valList ++ [b]) buffer
      end
  end.

Definition bigIntReader (buffer : Buffer) : Buffer * Res :=
  match binaryRead 4 buffer with
  | (buffer, inl err) => (buffer, Ret VNil (Some err))
  | (buffer, inr bs) =>
      let size := to_signed 32 (be_combine bs) in
      if size <? 0 then (buffer, Panicked MakeSliceLen)
      else
        match readBytes (Z.to_nat size) [] buffer with
        | (buffer, inl err) => (buffer, Ret VNil (Some err))
        | (buffer, inr valList) =>
            match getBigIntFromSignedBytes valList with
            | Some z => (buffer, Ret (VBigInt z) None)
            | None => (buffer, Panicked IndexOutOfRange)
            end
        end
  end.

(** The UUID reader closure. *)
Definition uuidReader (buffer : Buffer) : Buffer * Res :=
  match bufferRead 16 buffer with
  | (buffer, (_, Some err)) => (buffer, Ret (VUUID (repeat Byte.x00 16)) (Some err))
  | (buffer, (valBytes, None)) => (buffer, Ret (VUUID valBytes) None)
  end.

Section Readers.
(** [typeSerializer.read] (or [serializer.read]), the fully-qualified
    reader the composite readers call back into. *)
Variable read : Buffer -> Buffer * Res.

(** The loop of [listReader]. *)
Fixpoint readItems (n : nat) (valList : list Value) (buffer : Buffer)
  : Buffer * Res :=
  match n with
  | O => (buffer, Ret (VList valList) None)
  | S n =>
      match read buffer with
      | (buffer, Ret val None) => readItems n (valList ++ [val]) buffer
      | (buffer, Ret _ (Some err)) => (buffer, Ret VNil (Some err))
      | (buffer, other) => (buffer, other)
      end
  end.

Definition listReader (buffer : Buffer) : Buffer * Res :=
  match binaryRead 4 buffer with
  | (buffer, inl err) => (buffer, Ret VNil (Some err))
  | (buffer, inr bs) =>
      let size := to_signed 32 (be_combine bs) in
      readItems (Z.to_nat size) [] buffer
  end.

(** The loop of [mapReader]. *)
Fixpoint readEntries (n : nat) (valMap : list (Value * Value))
    (buffer : Buffer) : Buffer * Res :=
  match n with
  | O => (buffer, Ret (VMap valMap) None)
  | S n =>
      match read buffer with
      | (buffer, Ret key None) =>
          match read buffer with
          | (buffer, Ret val None) =>
              if hashable key
              then readEntries n (mapassign valMap key val) buffer
              else (buffer, Panicked UnhashableKey)
          | (buffer, Ret _ (Some err)) => (buffer, Ret VNil (Some err))
          | (buffer, other) => (buffer, other)
          end
      | (buffer, Ret _ (Some err)) => (buffer, Ret VNil (Some err))
      | (buffer, other) => (buffer, other)
      end
  end.

Definition mapReader (buffer : Buffer) : Buffer * Res :=
  match binaryRead 4 buffer with
  | (buffer, inl err) => (buffer, Ret VNil (Some err))
  | (buffer, inr bs) =>
      let size := to_signed 32 (be_combine bs) in
      readEntries (Z.to_nat size) [] buffer
  end.

(** The Traverser reader closure. *)
Definition traverserReader (buffer : Buffer) : Buffer * Res :=
  match binaryRead 8 buffer with
  | (buffer, inl err) => (buffer, Ret VNil (Some err))
  | (buffer, inr bs) =>
      let bulk := to_signed 64 (be_combine bs) in
      match read buffer with
      | (buffer, Ret value None) => (buffer, Ret (VTraverser bulk value) None)
      | (buffer, Ret _ (Some err)) => (buffer, Ret VNil (Some err))
      | (buffer, other) => (buffer, other)
      end
  end.

(** [typeSerializer.reader(buffer, typeSerializer)] for the serializer
    [getSerializerToRead typ] returned. *)
Definition reader (typ : byte) (buffer : Buffer) : Buffer * Res :=
  if byte_eqb typ (getCodeByte TraverserType) then traverserReader buffer
  else if byte_eqb typ (getCodeByte StringType) then stringReader buffer
  else if byte_eqb typ (getCodeByte BigIntegerType) then bigIntReader buffer
  else if byte_eqb typ (getCodeByte LongType) then
    scalarReader 8 (fun u => VInteger Int64 (to_signed 64 u)) buffer
  else if byte_eqb typ (getCodeByte IntType) then
    scalarReader 4 (fun u => VInteger Int32 (to_signed 32 u)) buffer
  else if byte_eqb typ (getCodeByte ShortType) then
    scalarReader 2 (fun u => VInteger Int16 (to_signed 16 u)) buffer
  else if byte_eqb typ (getCodeByte ByteType) then
    scalarReader 1 (fun u => VInteger Uint8 u) buffer
  else if byte_eqb typ (getCodeByte BooleanType) then
    scalarReader 1 (fun u => VBool (negb (u =? 0))) buffer
  else if byte_eqb typ (getCodeByte UUIDType) then uuidReader buffer
  else if byte_eqb typ (getCodeByte FloatType) then
    scalarReader 4 VFloat32 buffer
  else if byte_eqb typ (getCodeByte DoubleType) then
    scalarReader 8 VFloat64 buffer
  else if byte_eqb typ (getCodeByte MapType) then mapReader buffer
  else if byte_eqb typ (getCodeByte ListType) then listReader buffer
  else (buffer, Panicked NilDereference).

(** [readTypeValue], called on the serializer selected for [typ]. *)
Definition readTypeValue (serializer : graphBinaryTypeSerializer)
    (typ : byte) (buffer : Buffer) (nullable : bool) : Buffer * Res :=
  if nullable then
    match ReadByte buffer with
    | (buffer, inl err) => (buffer, Ret VNil (Some err))
    | (buffer, inr nullFlag) =>
        if byte_eqb nullFlag valueFlagNull
        then (buffer, Ret (nullFlagReturn serializer) None)
        else reader typ buffer
    end
  else reader typ buffer.

(** [readType]. *)
Definition readType (serializer : graphBinaryTypeSerializer)
    (typ : byte) (buffer : Buffer) : Buffer * Res :=
  readTypeValue serializer typ buffer true.

(** [readValue]; [None] is a nil [*bytes.Buffer].  Both the error of
    [getSerializerToRead] and the error of [readTypeValue] are dropped
    ([typeSerializer, _ := ...], [val, _ := ...]); with no serializer
    the call of [readTypeValue] through the nil pointer panics. *)
Definition readValue (buffer : option Buffer) (typ : byte)
    (nullable : bool) : Buffer * Res :=
  match buffer with
  | None => ([], Ret VNil (Some ErrNullInput))
  | Some buffer =>
      match ReadByte buffer with
      | (buffer, inl err) => (buffer, Ret VNil (Some err))
      | (buffer, inr typeCode) =>
          if negb (byte_eqb typeCode typ)
          then (buffer, Ret VNil (Some ErrUnmatchedDataType))
          else
            match getSerializerToRead typ with
            | inl _ => (buffer, Panicked NilDereference)
            | inr typeSerializer =>
                match readTypeValue typeSerializer typ buffer nullable with
                | (buffer, Ret val _) => (buffer, Ret val None)
                | (buffer, other) => (buffer, other)
                end
            end
      end
  end.
End Readers.

(** [graphBinaryTypeSerializer.read]: type code, information and value of a
    buffer in fully-qualified format.  [fuel] bounds the nesting depth. *)
Fixpoint read (fuel : nat) (buffer : Buffer) : Buffer * Res :=
  match fuel with
  | O => (buffer, NoFuel)
  | S fuel =>
      match ReadByte buffer with
      | (buffer, inl err) => (buffer, Ret VNil (Some err))
      | (buffer, inr typeCode) =>
          if byte_eqb typeCode (getCodeByte NullType) then
            (* _ = binary.Read(buffer, binary.BigEndian, &isNull) *)
            let '(buffer, isNull) :=
              match ReadByte buffer with
              | (buffer, inl _) => (buffer, Byte.x00)
              | (buffer, inr b) => (buffer, b)
              end in
            if negb (byte_eqb isNull Byte.x01)
            then (buffer, Ret VNil (Some ErrIsNull))
            else (buffer, Ret VNil None)
          else
            match getSerializerToRead typeCode with
            | inl err => (buffer, Ret VNil (Some err))
            | inr typeSerializer =>
                readType (read fuel) typeSerializer typeCode buffer
            end
      end
  end.

(** The allowance that always suffices: one more than the bytes at hand. *)
Definition enough (buffer : Buffer) : nat := S (List.length buffer).

(** [read] and [readValue] as the driver calls them. *)
Definition Read (buffer : Buffer) : Buffer * Res := read (enough buffer) buffer.

Definition ReadValue (buffer : option Buffer) (typ : byte) (nullable : bool)
  : Buffer * Res :=
  readValue (read (enough (match buffer with Some b => b | None => [] end)))
    buffer typ nullable.

(** ** Values that survive a round trip *)

(** The integer widening of the codec: [int] and [uint32] travel as Int64
    and come back as [int64]; [uint16] travels as Int32 and comes back as
    [int32].  Lists and maps widen their members. *)
Fixpoint widen (v : Value) : Value :=
  match v with
  | VInteger Int z | VInteger Uint32 z => VInteger Int64 z
  | VInteger Uint16 z => VInteger Int32 z
  | VList l => VList (map widen l)
  | VMap m => VMap (map (fun kv => (widen (fst kv), widen (snd kv))) m)
  | _ => v
  end.

(** Keys no two of which are equal, an earlier one compared with a later one. *)
Fixpoint distinct_keys (keys : list Value) : bool :=
  match keys with
  | [] => true
  | k :: rest =>
      forallb (fun k' => negb (iface_eqb k k')) rest && distinct_keys rest
  end.

(** The values that have both a writer and a reader under the same type
    code, within the bounds of their Go types: integers in the range of
    their type, float bit patterns of the right width, a 16-byte UUID,
    lengths that fit the Int32 length field, and map keys that are
    hashable, equal to themselves (no NaN) and distinct once widened. *)
Fixpoint supported (v : Value) : bool :=
  match v with
  | VNil => true
  | VInteger t z =>
      in_range t z &&
      match t with
      | Int64 | Int | Uint32 | Int32 | Uint16 | Int16 | Uint8 => true
      | _ => false
      end
  | VBigInt z =>
      Z.of_nat (List.length (getSignedBytesFromBigInt z)) <? 2 ^ 31
  | VFloat32 bits => (0 <=? bits) && (bits <? 2 ^ 32)
  | VFloat64 bits => (0 <=? bits) && (bits <? 2 ^ 64)
  | VString s => Z.of_nat (List.length s) <? 2 ^ 31
  | VUUID u => (List.length u =? 16)%nat
  | VList l => (Z.of_nat (List.length l) <? 2 ^ 31) && forallb supported l
  | VMap m =>
      (Z.of_nat (List.length m) <? 2 ^ 31)
      && forallb (fun kv => supported (fst kv) && supported (snd kv)) m
      && forallb (fun kv => hashable (fst kv) && self_equal (fst kv)) m
      && distinct_keys (map (fun kv => widen (fst kv)) m)
  | VBool _ | VBytecode _ _ | VTraverser _ _ | VTraverserPtr _ _ => false
  end.

(** The fully-qualified encoding of a value, written into a fresh buffer. *)
Definition encode (v : Value) : Buffer := fst (write v []).

(** ** ResultSet *)

Module ResultSet.

(** Modelled from the spec: the [Result] struct (result.go is not among
    the sources) wraps one value, [Result{v}], and [GetType] is
    [reflect.TypeOf] of it. *)
Record Result : Type := mkResult { result : Value }.

(** [reflect.Kind] as far as [addResult] distinguishes it. *)
Inductive Kind : Type := KArray | KSlice | KOther.

(** [r.GetType().Kind()]; [None] is the panic of calling [Kind] on the
    nil [reflect.Type] of an untyped nil.  A [uuid.UUID] is a [[16]byte]. *)
Definition GetTypeKind (r : Result) : option Kind :=
  match result r with
  | VNil => None
  | VList _ => Some KSlice
  | VUUID _ => Some KArray
  | _ => Some KOther
  end.

(** [channelResultSet]: the buffered channel is the list of the results it
    holds, oldest first, next to its capacity. *)
Record channelResultSet : Type := mkChannelResultSet
  { channel : list Result;
    channelSize : nat;
    requestID : list byte;
    aggregateTo : list byte;
    closed : bool }.

Definition defaultCapacity : nat := 1000.

Definition newChannelResultSetCapacity (requestID : list byte)
    (channelSize : nat) : channelResultSet :=
  mkChannelResultSet [] channelSize requestID [] false.

Definition newChannelResultSet (requestID : list byte) : channelResultSet :=
  newChannelResultSetCapacity requestID defaultCapacity.

(** How a call that may park the goroutine ends. *)
Inductive Outcome (A : Type) : Type :=
| Done (a : A)              (* returned *)
| Blocks (a : A)            (* parked, in this state *)
| Panics (p : PanicKind).
Arguments Done {A} _.
Arguments Blocks {A} _.
Arguments Panics {A} _.

(** [channelResultSet.channel <- r]: panics on a closed channel, parks
    on a full one. *)
Definition send (rs : channelResultSet) (r : Result)
  : Outcome channelResultSet :=
  if closed rs then Panics SendOnClosedChannel
  else if (channelSize rs <=? List.length (channel rs))%nat then Blocks rs
  else Done (mkChannelResultSet (channel rs ++ [r]) (channelSize rs)
               (requestID rs) (aggregateTo rs) (closed rs)).

(** The body of the [for _, v := range r.result.([]interface{})] loop:
    a [*Traverser] is replaced by its value. *)
Definition unwrap (v : Value) : Result :=
  match v with
  | VTraverserPtr _ value => mkResult value
  | _ => mkResult v
  end.

Fixpoint sendAll (rs : channelResultSet) (items : list Value)
  : Outcome channelResultSet :=
  match items with
  | [] => Done rs
  | v :: rest =>
      match send rs (unwrap v) with
      | Done rs => sendAll rs rest
      | other => other
      end
  end.

(** [addResult]. *)
Definition addResult (rs : channelResultSet) (r : Result)
  : Outcome channelResultSet :=
  match GetTypeKind r with
  | None => Panics NilDereference
  | Some KArray | Some KSlice =>
      match result r with
      | VList items => sendAll rs items
      | _ => Panics TypeAssertion
      end
  | Some KOther => send rs (mkResult (result r))
  end.

(** [Close]. *)
Definition Close (rs : channelResultSet) : channelResultSet :=
  if negb (closed rs)
  then mkChannelResultSet (channel rs) (channelSize rs) (requestID rs)
         (aggregateTo rs) true
  else rs.

End ResultSet.

(** ** Driver settings *)

Module Driver.

Inductive TransporterType : Type := Gorilla.
Inductive LogVerbosity : Type := Debug | Info | Warning | ErrorLevel | Off.

(** The constants of the package that the constructor reads, and the
    processor count of the host ([runtime.NumCPU()]). *)
Record Defaults : Type := mkDefaults
  { keepAliveIntervalDefault : Z;
    writeDeadlineDefault : Z;
    connectionTimeoutDefault : Z;
    defaultNewConnectionThreshold : Z;
    defaultInitialConcurrentConnections : Z;
    NumCPU : Z }.

(** [DriverRemoteConnectionSettings]; durations in nanoseconds.  The
    logger, language tag, [AuthInfo] and [tls.Config] handles are carried
    through untouched and left out. *)
Record DriverRemoteConnectionSettings : Type := mkSettings
  { TraversalSource : string;
    TransporterType_ : TransporterType;
    LogVerbosity_ : LogVerbosity;
    KeepAliveInterval : Z;
    WriteDeadline : Z;
    ConnectionTimeout : Z;
    EnableCompression : bool;
    ReadBufferSize : Z;
    WriteBufferSize : Z;
    NewConnectionThreshold : Z;
    MaximumConcurrentConnections : Z;
    InitialConcurrentConnections : Z;
    Session : string }.

Definition setMaximumConcurrentConnections (n : Z)
    (s : DriverRemoteConnectionSettings) : DriverRemoteConnectionSettings :=
  mkSettings (TraversalSource s) (TransporterType_ s) (LogVerbosity_ s)
    (KeepAliveInterval s) (WriteDeadline s) (ConnectionTimeout s)
    (EnableCompression s) (ReadBufferSize s) (WriteBufferSize s)
    (NewConnectionThreshold s) n (InitialConcurrentConnections s)
    (Session s).

Definition setInitialConcurrentConnections (n : Z)
    (s : DriverRemoteConnectionSettings) : DriverRemoteConnectionSettings :=
  mkSettings (TraversalSource s) (TransporterType_ s) (LogVerbosity_ s)
    (KeepAliveInterval s) (WriteDeadline s) (ConnectionTimeout s)
    (EnableCompression s) (ReadBufferSize s) (WriteBufferSize s)
    (NewConnectionThreshold s) (MaximumConcurrentConnections s) n
    (Session s).

Definition setSession (id : string)
    (s : DriverRemoteConnectionSettings) : DriverRemoteConnectionSettings :=
  mkSettings (TraversalSource s) (TransporterType_ s) (LogVerbosity_ s)
    (KeepAliveInterval s) (WriteDeadline s) (ConnectionTimeout s)
    (EnableCompression s) (ReadBufferSize s) (WriteBufferSize s)
    (NewConnectionThreshold s) (MaximumConcurrentConnections s)
    (InitialConcurrentConnections s) id.

(** A configuration, [func(settings *DriverRemoteConnectionSettings)]. *)
Definition Configuration : Type :=
  DriverRemoteConnectionSettings -> DriverRemoteConnectionSettings.

(** [for _, configuration := range configurations { configuration(settings) }] *)
Definition configure (settings : DriverRemoteConnectionSettings)
    (configurations : list Configuration) : DriverRemoteConnectionSettings :=
  fold_left (fun s configuration => configuration s) configurations settings.

Definition isEmptyString (s : string) : bool :=
  match s with EmptyString => true | String _ _ => false end.

(** What [newLoadBalancingPool] is called with. *)
Record PoolArguments : Type := mkPoolArguments
  { poolUrl : string;
    newConnectionThreshold : Z;
    maximumConcurrentConnections : Z;
    initialConcurrentConnections : Z }.

Record Client (Pool : Type) : Type := mkClient
  { url : string;
    traversalSource : string;
    transporterType : TransporterType;
    connections : Pool;
    session : string }.
Arguments mkClient {Pool} _ _ _ _ _.
Arguments connections {Pool} _.
Arguments session {Pool} _.

Record DriverRemoteConnection (Pool : Type) : Type := mkDriver
  { client : Client Pool;
    isClosed : bool }.
Arguments mkDriver {Pool} _ _.
Arguments client {Pool} _.

Section Constructor.
Variable defaults : Defaults.
(** [newLoadBalancingPool] (the pool is not among the sources). *)
Variable Pool : Type.
Variable PoolError : Type.
Variable newLoadBalancingPool : PoolArguments -> PoolError + Pool.

(** The settings literal at the head of the later
    [NewDriverRemoteConnection] (the one with
    [InitialConcurrentConnections]). *)
Definition defaultSettings : DriverRemoteConnectionSettings :=
  mkSettings "g" Gorilla Info
    (keepAliveIntervalDefault defaults) (writeDeadlineDefault defaults)
    (connectionTimeoutDefault defaults) false 1048576 1048576
    (defaultNewConnectionThreshold defaults) (NumCPU defaults)
    (defaultInitialConcurrentConnections defaults) EmptyString.

(** The settings as they stand when the pool is created: configured,
    capped to one connection for a session, and with the initial
    number of connections capped by the maximum. *)
Definition effectiveSettings (configurations : list Configuration)
  : DriverRemoteConnectionSettings :=
  let settings := configure defaultSettings configurations in
  let settings :=
    if negb (isEmptyString (Session settings))
    then setMaximumConcurrentConnections 1 settings
    else settings in
  if InitialConcurrentConnections settings
       >? MaximumConcurrentConnections settings
  then setInitialConcurrentConnections
         (MaximumConcurrentConnections settings) settings
  else settings.

Definition poolArguments (url : string)
    (configurations : list Configuration) : PoolArguments :=
  let settings := effectiveSettings configurations in
  mkPoolArguments url (NewConnectionThreshold settings)
    (MaximumConcurrentConnections settings)
    (InitialConcurrentConnections settings).

(** [NewDriverRemoteConnection]. *)
Definition NewDriverRemoteConnection (url : string)
    (configurations : list Configuration)
  : PoolError + DriverRemoteConnection Pool :=
  let settings := effectiveSettings configurations in
  match newLoadBalancingPool (poolArguments url configurations) with
  | inl err => inl err
  | inr pool =>
      inr (mkDriver
             (mkClient url (TraversalSource settings)
                (TransporterType_ settings) pool (Session settings))
             false)
  end.

(** The earlier [NewDriverRemoteConnection] of the same file: no
    initial connection count, buffer sizes defaulting to 0, and a pool
    created from the threshold and the maximum alone. *)
Definition defaultSettings0 : DriverRemoteConnectionSettings :=
  mkSettings "g" Gorilla Info
    (keepAliveIntervalDefault defaults) (writeDeadlineDefault defaults)
    (connectionTimeoutDefault defaults) false 0 0
    (defaultNewConnectionThreshold defaults) (NumCPU defaults)
    0 EmptyString.

Definition effectiveSettings0 (configurations : list Configuration)
  : DriverRemoteConnectionSettings :=
  let settings := configure defaultSettings0 configurations in
  if negb (isEmptyString (Session settings))
  then setMaximumConcurrentConnections 1 settings
  else settings.

Definition poolArguments0 (url : string)
    (configurations : list Configuration) : PoolArguments :=
  let settings := effectiveSettings0 configurations in
  mkPoolArguments url (NewConnectionThreshold settings)
    (MaximumConcurrentConnections settings) 0.

Definition NewDriverRemoteConnection0 (url : string)
    (configurations : list Configuration)
  : PoolError + DriverRemoteConnection Pool :=
  let settings := effectiveSettings0 configurations in
  match newLoadBalancingPool (poolArguments0 url configurations) with
  | inl err => inl err
  | inr pool =>
      inr (mkDriver
             (mkClient url (TraversalSource settings)
                (TransporterType_ settings) pool (Session settings))
             false)
  end.
End Constructor.

End Driver.

(** ** Notions used to state the properties *)

Import ResultSet.

(** The wire type [getSerializerToWrite] selects, or the error. *)
Definition selected (val : Value) : Error + DataType :=
  match getSerializerToWrite val with
  | inl err => inl err
  | inr typeSerializer => inr (dataType typeSerializer)
  end.

(** A sample result set: open, holding one result. *)
Definition rs_item : channelResultSet :=
  mkChannelResultSet [mkResult (VInteger Int32 7)] defaultCapacity [] [] false.

(** A list of [*Traverser], given by the [(bulk, value)] pairs. *)
Definition traversers (ts : list (Z * Value)) : Value :=
  VList (map (fun t => VTraverserPtr (fst t) (snd t)) ts).

(** The queue after the results in [rs'] were added to it. *)
Definition enqueued (rs : channelResultSet) (rs' : list Result)
  : channelResultSet :=
  mkChannelResultSet (channel rs ++ rs') (channelSize rs) (requestID rs)
    (aggregateTo rs) (closed rs).

(** Sample configurations: a session id, and a cap of eight connections. *)
Definition withSession (id : string) : Driver.Configuration :=
  Driver.setSession id.
Definition withMaximum (n : Z) : Driver.Configuration :=
  Driver.setMaximumConcurrentConnections n.
Definition sampleDefaults : Driver.Defaults :=
  Driver.mkDefaults 5000000000 3000000000 5000000000 4 1 8.



(** The number a signed byte slice stands for: two's complement on the
    width of the slice. *)
Definition signed_value (b : list byte) : Z :=
  match b with
  | [] => 0
  | b0 :: _ =>
      if msb_set b0
      then be_combine b - 2 ^ (8 * Z.of_nat (List.length b))
      else be_combine b
  end.

(** The wire form of the entries of a map, key then value. *)
Definition encodeEntries (m : list (Value * Value)) : Buffer :=
  List.concat (map (fun kv => encode (fst kv) ++ encode (snd kv)) m).

(** The round-trip law for one value: it is written without error, as
    [encode] of it appended to the buffer, and that encoding is read back
    as the value with its integers widened, leaving what follows it. *)
Definition round_trips (v : Value) : Prop :=
  (forall buffer, write v buffer = (buffer ++ encode v, Wrote None))
  /\ (forall fuel rest,
         (List.length (encode v ++ rest) < fuel)%nat ->
         read fuel (encode v ++ rest) = (rest, Ret (widen v) None)).

(** Sample values: the map [{"a": [1, 2, 3], "b": nil}] with int32 items,
    a bytecode with the single step [V()], and a traverser. *)
Definition sample_map : Value :=
  VMap [(VString [Byte.x61],
         VList [VInteger Int32 1; VInteger Int32 2; VInteger Int32 3]);
        (VString [Byte.x62], VNil)].

Definition sample_bytecode : Value :=
  VBytecode [mkInstruction [Byte.x56] []] [].

Definition sample_traverser : Value := VTraverser 1 (VString [Byte.x61]).

(** Unfolds the fully-qualified [write] of a scalar, string or composite
    down to the buffer it builds. *)
Ltac write_fq :=
  intros ?buffer;
  cbn [write getSerializerToWrite dataType writeType writeTypeValue writer
         getCodeBytes];
  unfold binaryWrite, writeValueFlagNone, getCodeBytes.


(* ================================================================== *)
(** * Part I, continued: further code of the driver *)
(* ================================================================== *)

(** ** Notions for the codec *)

(** The signed range of a slice of [k] bytes in two's complement. *)
Definition fits_signed (k : nat) (n : Z) : Prop :=
  match k with
  | O => n = 0
  | S _ => - 2 ^ (8 * Z.of_nat k - 1) <= n < 2 ^ (8 * Z.of_nat k - 1)
  end.

(** A buffer is what is left of another one after some bytes were
    consumed from its front. *)
Definition rest_of (buffer' buffer : Buffer) : Prop :=
  exists consumed, buffer = consumed ++ buffer'.

(** A writer keeps what the buffer already holds in place, and the bytes
    it adds and its outcome do not depend on it. *)
Definition position_independent (f : Buffer -> Buffer * Written) : Prop :=
  forall b1 b2, f (b1 ++ b2) = (b1 ++ fst (f b2), snd (f b2)).

(** The types [getSerializerToRead] has a case for. *)
Definition registered : list DataType :=
  [TraverserType; StringType; BigIntegerType; LongType; IntType; ShortType;
   ByteType; BooleanType; UUIDType; FloatType; DoubleType; MapType;
   ListType].

(** What a typed null stands for, type by type: nil for a list or a map,
    the empty string for a string and for a traverser, the nil UUID, and
    the [int] zero for every numeric type, Boolean included. *)
Definition nullSentinel (dt : DataType) : Value :=
  match dt with
  | ListType | MapType => VNil
  | StringType | TraverserType => VString []
  | UUIDType => VUUID (repeat Byte.x00 16)
  | _ => VInteger Int 0
  end.

(** The wire form of an instruction, [{name}{values_length}{value_0}...],
    and of an instruction set, [{length}{instruction_0}...]. *)
Definition encodeInstruction (i : instruction Value) : Buffer :=
  be_split 4 (Z.of_nat (List.length (operator i))) ++ operator i
  ++ be_split 4 (Z.of_nat (List.length (arguments i)))
  ++ List.concat (map encode (arguments i)).

Definition encodeInstructions (l : list (instruction Value)) : Buffer :=
  be_split 4 (Z.of_nat (List.length l))
  ++ List.concat (map encodeInstruction l).

(** A value that [write] writes without error. *)
Definition writable (v : Value) : Prop := snd (write v []) = Wrote None.

(** ** ResultSet: the consumer side *)

(** The result set with another queue. *)
Definition withChannel (rs : channelResultSet) (q : list Result)
  : channelResultSet :=
  mkChannelResultSet q (channelSize rs) (requestID rs) (aggregateTo rs)
    (closed rs).

(** [one], [<-channelResultSet.channel]: the oldest result and the result
    set without it; on an empty channel the receive yields nil at once
    when the channel is closed and parks the goroutine when it is open. *)
Definition one (rs : channelResultSet)
  : Outcome (option Result * channelResultSet) :=
  match channel rs with
  | r :: q => Done (Some r, withChannel rs q)
  | [] => if closed rs then Done (None, rs) else Blocks (None, rs)
  end.

(** [All], [for result := range channel]: the loop takes every queued
    result, oldest first; it ends when the channel is closed and parks,
    with what it has taken so far, while the channel is open. *)
Definition All (rs : channelResultSet)
  : Outcome (list Result * channelResultSet) :=
  if closed rs then Done (channel rs, withChannel rs [])
  else Blocks (channel rs, withChannel rs []).

(** A result set within its capacity. *)
Definition within_capacity (rs : channelResultSet) : Prop :=
  (List.length (channel rs) <= channelSize rs)%nat.

(** The result set an outcome of [addResult] leaves behind. *)
Definition left_by (o : Outcome channelResultSet) : option channelResultSet :=
  match o with
  | Done rs | Blocks rs => Some rs
  | Panics _ => None
  end.

(** ** SimpleSet *)

Module SimpleSet.
Section Elements.
(** The elements, and Go's [==] on them.  (On interface values [==]
    panics when both sides hold the same uncomparable type; the model is
    for elements of comparable types.) *)
Variable T : Type.
Variable eqb : T -> T -> bool.

(** A [SimpleSet] is its [objects] slice. *)
Definition SimpleSet : Type := list T.

Definition ToSlice (s : SimpleSet) : list T := s.

(** [Contains]: [val == entry] for some entry. *)
Fixpoint Contains (s : SimpleSet) (val : T) : bool :=
  match s with
  | [] => false
  | entry :: rest => if eqb val entry then true else Contains rest val
  end.

(** [Add]: appended unless contained. *)
Definition Add (s : SimpleSet) (val : T) : SimpleSet :=
  if negb (Contains s val) then s ++ [val] else s.

(** The first index [i] with [val == s.objects[i]]. *)
Fixpoint indexOf (s : SimpleSet) (val : T) : option nat :=
  match s with
  | [] => None
  | obj :: rest =>
      if eqb val obj then Some O else option_map S (indexOf rest val)
  end.

(** [Remove]: the last object is moved to the place of the first object
    equal to [val], and the slice is cut by one. *)
Definition Remove (s : SimpleSet) (val : T) : SimpleSet :=
  match indexOf s val with
  | None => s
  | Some i =>
      match rev s with
      | [] => s
      | lastObj :: _ => removelast (firstn i s ++ lastObj :: skipn (S i) s)
      end
  end.

(** [NewSimpleSet]: the arguments are added one by one. *)
Definition NewSimpleSet (args : list T) : SimpleSet :=
  fold_left Add args [].

(** No object of the slice is equal to an earlier one. *)
Fixpoint distinct (s : SimpleSet) : bool :=
  match s with
  | [] => true
  | x :: rest => forallb (fun y => negb (eqb y x)) rest && distinct rest
  end.
End Elements.
End SimpleSet.

(** ** Path *)

Module Path.

(** [Path]: every label set by the slice its [ToSlice] returns. *)
Record Path : Type := mkPath
  { labels : list (list Value);
    objects : list Value }.

Inductive PathError : Type :=
| ErrUnequalLengths         (* "... does not contain an equal number of labels and objects" *)
| ErrNonStringLabel         (* "... labels contains a non string type" *)
| ErrNoLabel (key : list byte).  (* "path does not contain a label of '%s'" *)

(** What [GetPathObject] does: it returns a value and an error, or
    panics. *)
Inductive Answer : Type :=
| Returned (val : Value) (err : option PathError)
| Panicking (p : PanicKind).

(** Where the loops stand: going on with [object] and [objectList] (a nil
    slice is [None]), or left by a [return] or a panic. *)
Inductive Step : Type :=
| Next (object : Value) (objectList : option (list Value))
| Exit (out : Answer).

Definition isNil (v : Value) : bool :=
  match v with VNil => true | _ => false end.

(** [for _, label := range labelSet.ToSlice() { ... }] for the label set
    at index [i].  [reflect.TypeOf(label)] of a nil label is the nil
    [Type], whose [Kind()] panics. *)
Fixpoint eachLabel (p : Path) (key : list byte) (i : nat)
    (labelSet : list Value) (object : Value)
    (objectList : option (list Value)) : Step :=
  match labelSet with
  | [] => Next object objectList
  | label :: rest =>
      match label with
      | VNil => Exit (Panicking NilDereference)
      | VString s =>
          if bytes_eqb s key then
            match nth_error (objects p) i with
            | None => Exit (Panicking IndexOutOfRange)
            | Some o =>
                if isNil object then eachLabel p key i rest o objectList
                else match objectList with
                     | Some l =>
                         eachLabel p key i rest object (Some (l ++ [o]))
                     | None =>
                         eachLabel p key i rest object (Some [object; o])
                     end
            end
          else eachLabel p key i rest object objectList
      | _ => Exit (Returned VNil (Some ErrNonStringLabel))
      end
  end.

(** [for i, labelSet := range p.labels { ... }], from index [i] on. *)
Fixpoint eachLabelSet (p : Path) (key : list byte) (i : nat)
    (sets : list (list Value)) (object : Value)
    (objectList : option (list Value)) : Step :=
  match sets with
  | [] => Next object objectList
  | labelSet :: rest =>
      match eachLabel p key i labelSet object objectList with
      | Next object objectList =>
          eachLabelSet p key (S i) rest object objectList
      | Exit out => Exit out
      end
  end.

Definition GetPathObject (p : Path) (key : list byte) : Answer :=
  if negb (List.length (objects p) =? List.length (labels p))%nat
  then Returned VNil (Some ErrUnequalLengths)
  else
    match eachLabelSet p key 0 (labels p) VNil None with
    | Exit out => out
    | Next object objectList =>
        match objectList with
        | Some l => Returned (VList l) None
        | None =>
            if negb (isNil object) then Returned object None
            else Returned VNil (Some (ErrNoLabel key))
        end
    end.

(** *** Notions used to state what [GetPathObject] returns *)

Definition isString (v : Value) : bool :=
  match v with VString _ => true | _ => false end.

(** [label == key] for a label held in an interface. *)
Definition labelled (key : list byte) (label : Value) : bool :=
  match label with VString s => bytes_eqb s key | _ => false end.

(** The objects of the path whose label set holds [key], in the order of
    the path (once for every time the set lists the label). *)
Definition matched (p : Path) (key : list byte) : list Value :=
  List.concat
    (map (fun '(labelSet, o) => map (fun _ => o) (filter (labelled key) labelSet))
       (combine (labels p) (objects p))).

(** A list without its leading nil values. *)
Fixpoint dropNil (l : list Value) : list Value :=
  match l with
  | VNil :: rest => dropNil rest
  | _ => l
  end.

(** The first label of the path, in the order of the loops, that is not a
    string. *)
Definition firstNonString (p : Path) : option Value :=
  find (fun label => negb (isString label)) (List.concat (labels p)).

(** How the loops are left at a label that is not a string. *)
Definition refused (label : Value) : Answer :=
  if isNil label then Panicking NilDereference
  else Returned VNil (Some ErrNonStringLabel).

(** One matching label with object [o], on the state of the loops. *)
Definition push (st : Value * option (list Value)) (o : Value)
  : Value * option (list Value) :=
  let '(object, objectList) := st in
  if isNil object then (o, objectList)
  else match objectList with
       | Some l => (object, Some (l ++ [o]))
       | None => (object, Some [object; o])
       end.

(** The objects a state of the loops stands for. *)
Definition gathered (st : Value * option (list Value)) : list Value :=
  match snd st with
  | Some l => l
  | None => if isNil (fst st) then [] else [fst st]
  end.

(** The states the loops can reach. *)
Definition reachable (st : Value * option (list Value)) : Prop :=
  match snd st with
  | Some l => isNil (fst st) = false /\ (2 <= List.length l)%nat
  | None => True
  end.

End Path.

(** ** Sessions of a DriverRemoteConnection *)

Module Sessions.
Import Driver.

Definition setTraversalSource (source : string)
    (s : DriverRemoteConnectionSettings) : DriverRemoteConnectionSettings :=
  mkSettings source (TransporterType_ s) (LogVerbosity_ s)
    (KeepAliveInterval s) (WriteDeadline s) (ConnectionTimeout s)
    (EnableCompression s) (ReadBufferSize s) (WriteBufferSize s)
    (NewConnectionThreshold s) (MaximumConcurrentConnections s)
    (InitialConcurrentConnections s) (Session s).

Inductive CreateSessionError (PoolError : Type) : Type :=
| err0201CreateSessionMultipleIdsError
| err0202CreateSessionFromSessionError
| poolError (err : PoolError).
Arguments err0201CreateSessionMultipleIdsError {PoolError}.
Arguments err0202CreateSessionFromSessionError {PoolError}.
Arguments poolError {PoolError} _.

Definition isSession {Pool : Type} (driver : DriverRemoteConnection Pool)
  : bool :=
  negb (isEmptyString (session (client driver))).

(** The configuration [CreateSession] passes to the constructor;
    [fresh] is what [uuid.New().String()] returns. *)
Definition sessionConfiguration {Pool : Type}
    (driver : DriverRemoteConnection Pool) (fresh : string)
    (sessionId : list string) : Configuration :=
  fun settings =>
    let settings :=
      setTraversalSource (traversalSource Pool (client driver)) settings in
    match sessionId with
    | [id] => setSession id settings
    | _ => setSession fresh settings
    end.

Section CreateSession.
Variable defaults : Defaults.
Variable Pool : Type.
Variable PoolError : Type.
Variable newLoadBalancingPool : PoolArguments -> PoolError + Pool.

(** [CreateSession] of the later driver.  The [spawnedSessions] of
    [driver] are passed and returned beside it; the result is the new
    connection and the sessions [driver] has spawned then. *)
Definition CreateSession (driver : DriverRemoteConnection Pool)
    (spawnedSessions : list (DriverRemoteConnection Pool))
    (fresh : string) (sessionId : list string)
  : CreateSessionError PoolError
    + DriverRemoteConnection Pool * list (DriverRemoteConnection Pool) :=
  if (1 <? List.length sessionId)%nat
  then inl err0201CreateSessionMultipleIdsError
  else if isSession driver
  then inl err0202CreateSessionFromSessionError
  else
    match NewDriverRemoteConnection defaults Pool PoolError
            newLoadBalancingPool (url Pool (client driver))
            [sessionConfiguration driver fresh sessionId] with
    | inl err => inl (poolError err)
    | inr drc => inr (drc, spawnedSessions ++ [drc])
    end.
End CreateSession.

(** The session id [CreateSession] asks for. *)
Definition requested (fresh : string) (sessionId : list string) : string :=
  match sessionId with
  | [id] => id
  | _ => fresh
  end.

End Sessions.

(** ** Traversers as a response delivers them *)

(** A traverser on the wire: [{bulk:Int64}{value}] in fully-qualified
    form, given by its [(bulk, value)] pair. *)
Definition encodeTraverser (t : Z * Value) : Buffer :=
  getCodeByte TraverserType :: valueFlagNone
    :: be_split 8 (fst t) ++ encode (snd t).

(** A list of traversers on the wire. *)
Definition traverserFrame (ts : list (Z * Value)) : Buffer :=
  getCodeByte ListType :: valueFlagNone
    :: be_split 4 (Z.of_nat (List.length ts))
    ++ List.concat (map encodeTraverser ts).

(** The [Traverser] struct the reader makes of a traverser on the wire. *)
Definition delivered (t : Z * Value) : Value :=
  VTraverser (fst t) (widen (snd t)).

(** ** ResultSet: the goroutines of a result set *)

(** The calls on a [channelResultSet] run in several goroutines: the
    reader task adds results and closes, callers ask [IsEmpty] and take
    results.  What a call does depends on the two mutexes and on the
    [waitSignal] channel, so the calls are given here statement by
    statement, a goroutine being the statement it stands at; the
    constructors carry the line of that statement in resultSet.go.
    [IsEmpty] with [waitForSignal], [sendSignal], [addResult], [Close]
    and [one] are given; [All] and a receive on [Channel()] take
    results from the channel as [one] does, without a mutex. *)

Module Goroutines.

(** The fields the goroutines share.  A mutex is [true] while it is
    locked.  The channels [waitForSignal] makes are numbered in the
    order they are made; [made] is the number of them so far. *)
Record Shared : Type := mkShared
  { resultSet : channelResultSet;
    channelMux : bool;
    waitSignalMux : bool;
    waitSignal : option nat;
    made : nat }.

(** Where [sendSignal] was called from. *)
Inductive Caller : Type := fromAddResult | fromClose.

(** What a call returned. *)
Inductive Return : Type :=
| ReturnedBool (b : bool)                (* [IsEmpty] *)
| ReturnedResult (r : option Result)     (* [one]; [None] is nil *)
| ReturnedNothing.                       (* [addResult], [Close] *)

Inductive Fault : Type :=
| Panic (p : PanicKind)
| CloseOfClosedChannel.

Inductive Goroutine : Type :=
(* IsEmpty *)
| IsEmpty84                      (* channelMux.Lock() *)
| IsEmpty86                      (* if len(channel) == 0 && !closed *)
| IsEmpty88                      (* channelMux.Unlock(), then waitForSignal() *)
| IsEmpty93                      (* else if len(channel) != 0 *)
| IsEmpty95                      (* channelMux.Unlock(); return false *)
| IsEmpty99                      (* channelMux.Unlock(); return true *)
(* waitForSignal, called by IsEmpty; it returns into line 92,
   [return channelResultSet.IsEmpty()] *)
| waitForSignal59                (* waitSignalMux.Lock() *)
| waitForSignal60                (* waitSignal := make(chan bool); field = waitSignal *)
| waitForSignal62 (waitSignal : nat)   (* waitSignalMux.Unlock() *)
| waitForSignal66 (waitSignal : nat)   (* <-waitSignal *)
(* sendSignal *)
| sendSignal71 (k : Caller)      (* waitSignalMux.Lock() *)
| sendSignal72 (k : Caller)      (* if waitSignal != nil *)
| sendSignal73 (k : Caller) (c : nat)  (* waitSignal <- true *)
| sendSignal74 (k : Caller)      (* waitSignal = nil *)
| sendSignal76 (k : Caller)      (* waitSignalMux.Unlock() *)
(* addResult *)
| addResult151 (r : Result)      (* channelMux.Lock() *)
| addResult152 (r : Result)      (* if r.GetType().Kind() == ... *)
| addResult153 (r : Result)      (* r.result.([]interface{}) *)
| addResult155 (items : list Value)    (* the sends of the loop *)
| addResult161 (r : Result)      (* channel <- &Result{r.result} *)
| addResult163                   (* channelMux.Unlock(), then sendSignal() *)
(* Close *)
| Close105                       (* if !closed *)
| Close106                       (* channelMux.Lock() *)
| Close107                       (* closed = true; close(channel), then sendSignal() *)
| Close110                       (* channelMux.Unlock() *)
(* one *)
| one139                         (* return <-channel *)
(* the end of a call *)
| Returned (v : Return)
| Panicked (f : Fault).

Definition withResultSet (s : Shared) (rs : channelResultSet) : Shared :=
  mkShared rs (channelMux s) (waitSignalMux s) (waitSignal s) (made s).

Definition withChannelMux (s : Shared) (locked : bool) : Shared :=
  mkShared (resultSet s) locked (waitSignalMux s) (waitSignal s) (made s).

Definition withWaitSignalMux (s : Shared) (locked : bool) : Shared :=
  mkShared (resultSet s) (channelMux s) locked (waitSignal s) (made s).

Definition withWaitSignal (s : Shared) (c : option nat) : Shared :=
  mkShared (resultSet s) (channelMux s) (waitSignalMux s) c (made s).

(** [waitSignal := make(chan bool); channelResultSet.waitSignal = waitSignal] *)
Definition makeWaitSignal (s : Shared) : Shared :=
  mkShared (resultSet s) (channelMux s) (waitSignalMux s) (Some (made s))
    (S (made s)).

(** [channelResultSet.closed = true; close(channelResultSet.channel)];
    the record has one flag for the field and for the channel, which
    change together under [channelMux]. *)
Definition closeChannel (rs : channelResultSet) : channelResultSet :=
  mkChannelResultSet (channel rs) (channelSize rs) (requestID rs)
    (aggregateTo rs) true.

(** A send of [addResult], on the channel as [send] has it. *)
Definition sending (s : Shared) (r : Result) (next : Goroutine)
  : option (Shared * Goroutine) :=
  match send (resultSet s) r with
  | Done rs => Some (withResultSet s rs, next)
  | Blocks _ => None
  | Panics p => Some (s, Panicked (Panic p))
  end.

(** One statement of a goroutine on its own; [None] when it cannot go
    on: it waits for a mutex, for room in the channel or for a result,
    it waits on [waitSignal] for the other side (see [stepAt]), or its
    call is over.  The result channel is taken to have a buffer, as
    [send] and [one] have it: a send waits for room and a receive for a
    result, and the two never meet in one statement. *)
Definition step (s : Shared) (g : Goroutine) : option (Shared * Goroutine) :=
  let rs := resultSet s in
  match g with
  | IsEmpty84 =>
      if channelMux s then None else Some (withChannelMux s true, IsEmpty86)
  | IsEmpty86 =>
      if (List.length (channel rs) =? 0)%nat && negb (closed rs)
      then Some (s, IsEmpty88)
      else Some (s, IsEmpty93)
  | IsEmpty88 => Some (withChannelMux s false, waitForSignal59)
  | IsEmpty93 =>
      if negb (List.length (channel rs) =? 0)%nat
      then Some (s, IsEmpty95)
      else Some (s, IsEmpty99)
  | IsEmpty95 => Some (withChannelMux s false, Returned (ReturnedBool false))
  | IsEmpty99 => Some (withChannelMux s false, Returned (ReturnedBool true))
  | waitForSignal59 =>
      if waitSignalMux s then None
      else Some (withWaitSignalMux s true, waitForSignal60)
  | waitForSignal60 => Some (makeWaitSignal s, waitForSignal62 (made s))
  | waitForSignal62 c => Some (withWaitSignalMux s false, waitForSignal66 c)
  | waitForSignal66 _ => None
  | sendSignal71 k =>
      if waitSignalMux s then None
      else Some (withWaitSignalMux s true, sendSignal72 k)
  | sendSignal72 k =>
      match waitSignal s with
      | Some c => Some (s, sendSignal73 k c)
      | None => Some (s, sendSignal76 k)
      end
  | sendSignal73 _ _ => None
  | sendSignal74 k => Some (withWaitSignal s None, sendSignal76 k)
  | sendSignal76 k =>
      Some (withWaitSignalMux s false,
            match k with
            | fromAddResult => Returned ReturnedNothing
            | fromClose => Close110
            end)
  | addResult151 r =>
      if channelMux s then None
      else Some (withChannelMux s true, addResult152 r)
  | addResult152 r =>
      match GetTypeKind r with
      | None => Some (s, Panicked (Panic NilDereference))
      | Some KArray | Some KSlice => Some (s, addResult153 r)
      | Some KOther => Some (s, addResult161 r)
      end
  | addResult153 r =>
      match result r with
      | VList items => Some (s, addResult155 items)
      | _ => Some (s, Panicked (Panic TypeAssertion))
      end
  | addResult155 items =>
      match items with
      | [] => Some (s, addResult163)
      | v :: rest => sending s (unwrap v) (addResult155 rest)
      end
  | addResult161 r => sending s (mkResult (result r)) addResult163
  | addResult163 => Some (withChannelMux s false, sendSignal71 fromAddResult)
  | Close105 =>
      if negb (closed rs) then Some (s, Close106)
      else Some (s, Returned ReturnedNothing)
  | Close106 =>
      if channelMux s then None else Some (withChannelMux s true, Close107)
  | Close107 =>
      if closed rs then Some (s, Panicked CloseOfClosedChannel)
      else Some (withResultSet s (closeChannel rs), sendSignal71 fromClose)
  | Close110 => Some (withChannelMux s false, Returned ReturnedNothing)
  | one139 =>
      match one rs with
      | Done (r, rs) => Some (withResultSet s rs, Returned (ReturnedResult r))
      | _ => None
      end
  | Returned _ | Panicked _ => None
  end.

(** A result set with its goroutines. *)
Record System : Type := mkSystem
  { shared : Shared;
    goroutines : list Goroutine }.

(** The goroutine parked in [<-c], by its position. *)
Fixpoint receiver (c : nat) (gs : list Goroutine) : option nat :=
  match gs with
  | [] => None
  | waitForSignal66 c' :: rest =>
      if (c' =? c)%nat then Some O else option_map S (receiver c rest)
  | _ :: rest => option_map S (receiver c rest)
  end.

Fixpoint update (i : nat) (g : Goroutine) (gs : list Goroutine)
  : list Goroutine :=
  match gs, i with
  | [], _ => []
  | _ :: rest, O => g :: rest
  | g' :: rest, S i => g' :: update i g rest
  end.

(** One statement of goroutine [i].  A send on [waitSignal], a channel
    without buffer, goes through when the goroutine that made the
    channel is parked in its receive: the sender goes on to line 74 and
    the receiver returns from [waitForSignal] into line 92, which calls
    [IsEmpty] again. *)
Definition stepAt (i : nat) (sys : System) : option System :=
  match nth_error (goroutines sys) i with
  | None => None
  | Some (sendSignal73 k c) =>
      match receiver c (goroutines sys) with
      | Some j =>
          Some (mkSystem (shared sys)
                  (update j IsEmpty84
                     (update i (sendSignal74 k) (goroutines sys))))
      | None => None
      end
  | Some g =>
      match step (shared sys) g with
      | Some (s, g) => Some (mkSystem s (update i g (goroutines sys)))
      | None => None
      end
  end.

(** A run: the goroutines take their statements in the order of
    [schedule]; [None] when the schedule asks a goroutine that cannot
    go on. *)
Fixpoint run (schedule : list nat) (sys : System) : option System :=
  match schedule with
  | [] => Some sys
  | i :: rest =>
      match stepAt i sys with
      | Some sys => run rest sys
      | None => None
      end
  end.

(** No goroutine can go on. *)
Definition stuck (sys : System) : bool :=
  forallb (fun i => match stepAt i sys with None => true | Some _ => false end)
    (seq 0 (List.length (goroutines sys))).

(** A goroutine on its own for [n] statements, as far as it gets. *)
Fixpoint alone (n : nat) (s : Shared) (g : Goroutine) : Shared * Goroutine :=
  match n with
  | O => (s, g)
  | S n =>
      match step s g with
      | Some (s, g) => alone n s g
      | None => (s, g)
      end
  end.

(** The calls, and a result set no goroutine has touched yet. *)
Definition IsEmpty : Goroutine := IsEmpty84.
Definition addResult (r : Result) : Goroutine := addResult151 r.
Definition Close : Goroutine := Close105.
Definition one : Goroutine := one139.

Definition start (rs : channelResultSet) (gs : list Goroutine) : System :=
  mkSystem (mkShared rs false false None O) gs.

End Goroutines.

(* ================================================================== *)
(** * Part II: properties *)
(* ================================================================== *)

(** ** Null at the outer level, null in a non-nullable slot, booleans *)

(** C5: encoding a nil value in fully-qualified form appends exactly the
    two bytes 0xFE 0x01 to the buffer, reports no error, and the encoding
    of nil on its own is those two bytes. *)
Theorem write_nil_two_bytes :
  (forall buffer : Buffer,
      write VNil buffer = (buffer ++ [Byte.xfe; Byte.x01], Wrote None))
  /\ nullBytes = [Byte.xfe; Byte.x01]
  /\ encode VNil = [Byte.xfe; Byte.x01].
Proof.
  split; [intros buffer; reflexivity | split; reflexivity].
Qed.

(** C7: a nil value written into a slot declared non-nullable, through
    [writeValue] or through [writeTypeValue], returns the unexpected-null
    error and leaves the buffer as it was. *)
Theorem write_nil_not_nullable :
  forall (buffer : Buffer),
    writeValue write VNil buffer false
    = (buffer, Wrote (Some ErrUnexpectedNull))
    /\ writeTypeValue write VNil buffer false
       = (buffer, Wrote (Some ErrUnexpectedNull)).
Proof.
  intros buffer; split; reflexivity.
Qed.

(** C9: a bool is written under the Byte type code 0x24 (the Boolean code
    0x27 of the table is not used), with the value flag 0x00 and the value
    byte 0x01 for true and 0x00 for false; reading that encoding back in
    fully-qualified form yields a uint8 holding 1 or 0, hence never a
    bool. *)
Theorem bool_written_as_byte :
  forall (b : bool),
    code ByteType = 0x24 /\ code BooleanType = 0x27
    /\ (forall buffer,
           write (VBool b) buffer
           = (buffer ++ [Byte.x24; Byte.x00; if b then Byte.x01 else Byte.x00],
              Wrote None))
    /\ (forall rest,
           Read (encode (VBool b) ++ rest)
           = (rest, Ret (VInteger Uint8 (if b then 1 else 0)) None))
    /\ (forall rest b', snd (Read (encode (VBool b) ++ rest))
                        <> Ret (VBool b') None).
Proof.
  intros b.
  assert (R : forall rest,
             Read (encode (VBool b) ++ rest)
             = (rest, Ret (VInteger Uint8 (if b then 1 else 0)) None)).
  { intros rest. destruct b; reflexivity. }
  repeat split; try reflexivity.
  - intros buffer. unfold write, writeType, writeTypeValue, writer.
    cbn [getSerializerToWrite dataType]. unfold writeValueFlagNone, binaryWrite.
    rewrite <- !app_assoc. destruct b; reflexivity.
  - exact R.
  - intros rest b'. rewrite R. cbn. discriminate.
Qed.

(** The operator of an instruction: [writeValue(operator, buffer, false)]
    is the String writer on its own, as [writeInstructions] has it. *)
Lemma writeValue_operator (s : list byte) (buffer : Buffer) :
  writeValue write (VString s) buffer false
  = (stringWriter s buffer, Wrote None).
Proof. reflexivity. Qed.

(** The Int32 edge cases of the wire format. *)
Example encode_int32_edges :
  encode (VInteger Int32 0)
  = [Byte.x01; Byte.x00; Byte.x00; Byte.x00; Byte.x00; Byte.x00]
  /\ encode (VInteger Int32 (-1))
     = [Byte.x01; Byte.x00; Byte.xff; Byte.xff; Byte.xff; Byte.xff]
  /\ encode (VInteger Int32 2147483647)
     = [Byte.x01; Byte.x00; Byte.x7f; Byte.xff; Byte.xff; Byte.xff]
  /\ encode (VInteger Int32 (-2147483648))
     = [Byte.x01; Byte.x00; Byte.x80; Byte.x00; Byte.x00; Byte.x00].
Proof. repeat split; reflexivity. Qed.

(** ** Selection of the integer wire type *)

(** C2, as stated, fails: the Go [int] 5 fits [-2^31, 2^31-1] but is given
    the Int64 wire type and written on eight bytes. *)
Lemma int_fitting_int32_written_as_int64 :
  in_range Int 5 = true
  /\ (- 2 ^ 31 <= 5 <= 2 ^ 31 - 1)
  /\ selected (VInteger Int 5) = inr LongType
  /\ selected (VInteger Int 5) <> inr IntType
  /\ encode (VInteger Int 5)
     = [Byte.x02; Byte.x00; Byte.x00; Byte.x00; Byte.x00; Byte.x00;
        Byte.x00; Byte.x00; Byte.x00; Byte.x05].
Proof.
  repeat split; try reflexivity; try discriminate.
Qed.

(** C2, amended: the wire type of an integer is selected by its Go type
    alone, whatever its magnitude: int32 and uint16 select Int32; int64,
    int and uint32 select Int64; int16 selects Short; uint8 selects Byte; a
    [*big.Int] selects BigInt; int8, uint and uint64 have no serializer
    and are refused as an unknown data type. *)
Theorem integer_wire_type_by_go_type :
  forall (t : GoInt) (z : Z),
    selected (VInteger t z)
    = match t with
      | Int32 | Uint16 => inr IntType
      | Int64 | Int | Uint32 => inr LongType
      | Int16 => inr ShortType
      | Uint8 => inr ByteType
      | Int8 | Uint | Uint64 => inl ErrUnknownSerialize
      end
    /\ selected (VBigInt z) = inr BigIntegerType.
Proof.
  intros t z; split; [destruct t; reflexivity | reflexivity].
Qed.

(** ** ResultSet *)


(** *** IsEmpty among the goroutines *)

Lemma send_full (rs : channelResultSet) (r : Result) :
  closed rs = false ->
  List.length (channel rs) = channelSize rs ->
  send rs r = Blocks rs.
Proof.
  intros C F. unfold send. rewrite C, F, Nat.leb_refl. reflexivity.
Qed.

(** [IsEmpty] on its own, with [channelMux] free.  With a result queued
    it returns false and with an empty queue that is closed it returns
    true, in four statements and leaving the shared fields as they
    were; with an empty queue that is open it registers a new
    [waitSignal] channel and parks in the receive on it. *)
Lemma IsEmpty_alone (s : Goroutines.Shared) :
  Goroutines.channelMux s = false ->
  ((List.length (channel (Goroutines.resultSet s)) =? 0)%nat
   && negb (closed (Goroutines.resultSet s)) = false ->
   Goroutines.alone 4 s Goroutines.IsEmpty
   = (s, Goroutines.Returned
           (Goroutines.ReturnedBool
              (List.length (channel (Goroutines.resultSet s)) =? 0)%nat)))
  /\ ((List.length (channel (Goroutines.resultSet s)) =? 0)%nat
      && negb (closed (Goroutines.resultSet s)) = true ->
      Goroutines.waitSignalMux s = false ->
      forall n,
        Goroutines.alone (6 + n) s Goroutines.IsEmpty
        = (Goroutines.makeWaitSignal s,
           Goroutines.waitForSignal66 (Goroutines.made s))).
Proof.
  intros M. destruct s as [rs cm wm ws m]. cbn in M. subst cm.
  cbn [Goroutines.resultSet]. split.
  - intros C. unfold Goroutines.IsEmpty.
    cbn [Goroutines.alone Goroutines.step Goroutines.channelMux
         Goroutines.withChannelMux Goroutines.resultSet
         Goroutines.waitSignalMux Goroutines.waitSignal Goroutines.made].
    rewrite C.
    cbn [Goroutines.alone Goroutines.step Goroutines.channelMux
         Goroutines.withChannelMux Goroutines.resultSet
         Goroutines.waitSignalMux Goroutines.waitSignal Goroutines.made].
    destruct (List.length (channel rs) =? 0)%nat; reflexivity.
  - intros C W n. cbn in W. subst wm. unfold Goroutines.IsEmpty.
    cbn [Goroutines.alone Goroutines.step Goroutines.channelMux
         Goroutines.withChannelMux Goroutines.resultSet
         Goroutines.waitSignalMux Goroutines.waitSignal Goroutines.made
         Nat.add].
    rewrite C.
    cbn [Goroutines.alone Goroutines.step Goroutines.channelMux
         Goroutines.withChannelMux Goroutines.withWaitSignalMux
         Goroutines.makeWaitSignal Goroutines.resultSet
         Goroutines.waitSignalMux Goroutines.waitSignal Goroutines.made].
    destruct n; reflexivity.
Qed.

Lemma alone_stopped n s g :
  Goroutines.step s g = None -> Goroutines.alone n s g = (s, g).
Proof. intros H. destruct n; cbn; [|rewrite H]; reflexivity. Qed.

Lemma alone_add n : forall m s g,
  Goroutines.alone (n + m) s g
  = Goroutines.alone m (fst (Goroutines.alone n s g))
      (snd (Goroutines.alone n s g)).
Proof.
  induction n as [|n IH]; intros m s g; [reflexivity|].
  cbn [Nat.add Goroutines.alone].
  destruct (Goroutines.step s g) as [[s' g']|] eqn:E; [apply IH|].
  cbn [fst snd]. symmetry. apply alone_stopped. exact E.
Qed.

(** The sends of [addResult] in a goroutine are the sends of [sendAll]:
    all of them and then line 163, or as many as the channel has room
    for and then parked in the next one, or up to a panic. *)
Lemma sends_alone (items : list Value) : forall s : Goroutines.Shared,
  match sendAll (Goroutines.resultSet s) items with
  | Done rs =>
      Goroutines.alone (S (List.length items)) s (Goroutines.addResult155 items)
      = (Goroutines.withResultSet s rs, Goroutines.addResult163)
  | Blocks rs =>
      exists n rest,
        Goroutines.alone n s (Goroutines.addResult155 items)
        = (Goroutines.withResultSet s rs, Goroutines.addResult155 rest)
        /\ Goroutines.step (Goroutines.withResultSet s rs)
             (Goroutines.addResult155 rest) = None
  | Panics p =>
      exists n rs,
        Goroutines.alone n s (Goroutines.addResult155 items)
        = (Goroutines.withResultSet s rs,
           Goroutines.Panicked (Goroutines.Panic p))
  end.
Proof.
  induction items as [|v items IH]; intros s.
  - destruct s; reflexivity.
  - cbn [sendAll]. destruct (send (Goroutines.resultSet s) (unwrap v))
      as [rs'|rs'|p] eqn:E.
    + specialize (IH (Goroutines.withResultSet s rs')).
      cbn [Goroutines.resultSet Goroutines.withResultSet] in IH.
      assert (St : Goroutines.step s (Goroutines.addResult155 (v :: items))
                   = Some (Goroutines.withResultSet s rs',
                           Goroutines.addResult155 items)).
      { cbn [Goroutines.step]. unfold Goroutines.sending. rewrite E.
        reflexivity. }
      destruct (sendAll rs' items) as [rs''|rs''|p].
      * cbn [List.length]. cbn [Goroutines.alone]. rewrite St. exact IH.
      * destruct IH as (n & rest & A & B). exists (S n), rest.
        cbn [Goroutines.alone]. rewrite St. split; [exact A | exact B].
      * destruct IH as (n & rs3 & A). exists (S n), rs3.
        cbn [Goroutines.alone]. rewrite St. exact A.
    + assert (St : Goroutines.step s (Goroutines.addResult155 (v :: items))
                   = None).
      { cbn [Goroutines.step]. unfold Goroutines.sending. rewrite E.
        reflexivity. }
      assert (R : rs' = Goroutines.resultSet s).
      { unfold send in E. destruct (closed _); [discriminate|].
        destruct (_ <=? _)%nat; [|discriminate]. injection E as <-.
        reflexivity. }
      exists O, (v :: items). subst rs'. destruct s. split; [reflexivity|].
      exact St.
    + exists 1%nat, (Goroutines.resultSet s).
      cbn [Goroutines.alone Goroutines.step].
      unfold Goroutines.sending. rewrite E. destruct s. reflexivity.
Qed.

(** [addResult] in a goroutine that finds the mutexes free and no
    [waitSignal] registered does to the result set what [addResult]
    says: it returns with the results added, with both mutexes free
    again; or it parks in a send with the results added so far, holding
    [channelMux]; or it panics, holding [channelMux]. *)
Lemma addResult_alone (rs : channelResultSet) (r : Result) (made : nat) :
  match addResult rs r with
  | Done rs' =>
      exists n,
        Goroutines.alone n (Goroutines.mkShared rs false false None made)
          (Goroutines.addResult r)
        = (Goroutines.mkShared rs' false false None made,
           Goroutines.Returned Goroutines.ReturnedNothing)
  | Blocks rs' =>
      exists n g,
        Goroutines.alone n (Goroutines.mkShared rs false false None made)
          (Goroutines.addResult r)
        = (Goroutines.mkShared rs' true false None made, g)
        /\ Goroutines.step (Goroutines.mkShared rs' true false None made) g
           = None
  | Panics p =>
      exists n rs',
        Goroutines.alone n (Goroutines.mkShared rs false false None made)
          (Goroutines.addResult r)
        = (Goroutines.mkShared rs' true false None made,
           Goroutines.Panicked (Goroutines.Panic p))
  end.
Proof.
  set (s1 := Goroutines.mkShared rs true false None made).
  assert (One : forall next,
             match send rs (mkResult (result r)) with
             | Done rs' =>
                 Goroutines.sending s1 (mkResult (result r)) next
                 = Some (Goroutines.mkShared rs' true false None made, next)
             | Blocks rs' =>
                 rs' = rs
                 /\ Goroutines.sending s1 (mkResult (result r)) next = None
             | Panics p =>
                 Goroutines.sending s1 (mkResult (result r)) next
                 = Some (s1, Goroutines.Panicked (Goroutines.Panic p))
             end).
  { intros next. unfold Goroutines.sending. cbn [Goroutines.resultSet s1].
    destruct (send rs (mkResult (result r))) as [rs'|rs'|p] eqn:E;
      try reflexivity.
    split; [|reflexivity]. unfold send in E.
    destruct (closed rs); [discriminate|].
    destruct (_ <=? _)%nat; [|discriminate]. injection E as <-.
    reflexivity. }
  assert (Other : GetTypeKind r = Some KOther ->
                  match send rs (mkResult (result r)) with
                  | Done rs' =>
                      exists n,
                        Goroutines.alone n
                          (Goroutines.mkShared rs false false None made)
                          (Goroutines.addResult r)
                        = (Goroutines.mkShared rs' false false None made,
                           Goroutines.Returned Goroutines.ReturnedNothing)
                  | Blocks rs' =>
                      exists n g,
                        Goroutines.alone n
                          (Goroutines.mkShared rs false false None made)
                          (Goroutines.addResult r)
                        = (Goroutines.mkShared rs' true false None made, g)
                        /\ Goroutines.step
                             (Goroutines.mkShared rs' true false None made) g
                           = None
                  | Panics p =>
                      exists n rs',
                        Goroutines.alone n
                          (Goroutines.mkShared rs false false None made)
                          (Goroutines.addResult r)
                        = (Goroutines.mkShared rs' true false None made,
                           Goroutines.Panicked (Goroutines.Panic p))
                  end).
  { intros K. specialize (One Goroutines.addResult163).
    assert (A2 : forall m,
               Goroutines.alone (2 + m)
                 (Goroutines.mkShared rs false false None made)
                 (Goroutines.addResult r)
               = Goroutines.alone m s1 (Goroutines.addResult161 r)).
    { intros m. rewrite alone_add. unfold Goroutines.addResult.
      cbn [Goroutines.alone Goroutines.step Goroutines.channelMux
           Goroutines.withChannelMux Goroutines.resultSet
           Goroutines.waitSignalMux Goroutines.waitSignal Goroutines.made].
      rewrite K. reflexivity. }
    destruct (send rs (mkResult (result r))) as [rs'|rs'|p].
    - exists (2 + 5)%nat. rewrite A2.
      cbn [Goroutines.alone Goroutines.step]. rewrite One. reflexivity.
    - destruct One as [-> One].
      exists (2 + 0)%nat, (Goroutines.addResult161 r). rewrite A2.
      split; [reflexivity | exact One].
    - exists (2 + 1)%nat, rs. rewrite A2.
      cbn [Goroutines.alone Goroutines.step]. rewrite One. reflexivity. }
  unfold addResult.
  destruct (GetTypeKind r) as [[| |]|] eqn:K; [| |exact (Other eq_refl)|].
  - (* an array *)
    destruct r as [v]. destruct v; try discriminate K.
    exists 3%nat, rs. reflexivity.
  - (* a slice *)
    destruct r as [v]. destruct v; try discriminate K. cbn [result].
    pose proof (sends_alone l s1) as Sd. cbn [Goroutines.resultSet s1] in Sd.
    assert (A3 : forall m,
               Goroutines.alone (3 + m)
                 (Goroutines.mkShared rs false false None made)
                 (Goroutines.addResult (mkResult (VList l)))
               = Goroutines.alone m s1 (Goroutines.addResult155 l)).
    { intros m. rewrite alone_add. reflexivity. }
    destruct (sendAll rs l) as [rs'|rs'|p].
    + exists (3 + (S (List.length l) + 4))%nat.
      rewrite A3, alone_add, Sd. reflexivity.
    + destruct Sd as (n & rest & A & B).
      exists (3 + n)%nat, (Goroutines.addResult155 rest).
      rewrite A3, A. split; [reflexivity | exact B].
    + destruct Sd as (n & rs' & A). exists (3 + n)%nat, rs'.
      rewrite A3, A. reflexivity.
  - (* nil *)
    exists 2%nat, rs. unfold Goroutines.addResult.
    cbn [Goroutines.alone Goroutines.step Goroutines.channelMux
         Goroutines.withChannelMux]. rewrite K. reflexivity.
Qed.

(** The reader task closes an empty result set while a caller asks
    [IsEmpty].  When [IsEmpty] has registered its [waitSignal] before
    [Close] signals, it is woken, evaluates again and returns true. *)
Lemma IsEmpty_woken_by_Close (rs : channelResultSet) :
  channel rs = [] -> closed rs = false ->
  Goroutines.run [0; 0; 0; 0; 0; 0; 1; 1; 1; 1; 1; 1; 1; 1; 1; 0; 0; 0; 0]%nat
    (Goroutines.start rs [Goroutines.IsEmpty; Goroutines.Close])
  = Some (Goroutines.mkSystem
            (Goroutines.mkShared (Goroutines.closeChannel rs) false false
               None 1)
            [Goroutines.Returned (Goroutines.ReturnedBool true);
             Goroutines.Returned Goroutines.ReturnedNothing]).
Proof.
  destruct rs as [ch size rid agg cl]. cbn. intros -> ->. reflexivity.
Qed.

(** C3: the claim holds of [IsEmpty] as long as no other goroutine runs
    between its statements, and fails on three interleavings.
    (1) A signal sent before [IsEmpty] has registered its [waitSignal]
    is lost: [IsEmpty] finds the result set empty and open and unlocks,
    [Close] runs to its end (its [sendSignal] finds no channel), and
    [IsEmpty] then parks on a closed and empty result set with nothing
    left to wake it, where it should return true.
    (2) [addResult] holds [channelMux] while it is parked on the full
    channel, so that [IsEmpty] parks in [Lock] with results queued,
    where it should return false; when no other goroutine takes a
    result, neither goes on.
    (3) A result taken by [one] between the two readings of
    [len(channel)] makes [IsEmpty] return true on a result set that is
    still open. *)
Theorem IsEmpty_loses_state_changes :
  forall (rs : channelResultSet),
    closed rs = false ->
    (channel rs = [] ->
     Goroutines.run [0; 0; 0; 1; 1; 1; 1; 1; 1; 1; 0; 0; 0]%nat
       (Goroutines.start rs [Goroutines.IsEmpty; Goroutines.Close])
     = Some (Goroutines.mkSystem
               (Goroutines.mkShared (Goroutines.closeChannel rs) false false
                  (Some O) 1)
               [Goroutines.waitForSignal66 0;
                Goroutines.Returned Goroutines.ReturnedNothing])
     /\ Goroutines.stuck
          (Goroutines.mkSystem
             (Goroutines.mkShared (Goroutines.closeChannel rs) false false
                (Some O) 1)
             [Goroutines.waitForSignal66 0;
              Goroutines.Returned Goroutines.ReturnedNothing])
        = true)
    /\ (forall r,
          channel rs <> [] ->
          List.length (channel rs) = channelSize rs ->
          GetTypeKind r = Some KOther ->
          Goroutines.run [0; 0]%nat
            (Goroutines.start rs [Goroutines.addResult r; Goroutines.IsEmpty])
          = Some (Goroutines.mkSystem
                    (Goroutines.mkShared rs true false None 0)
                    [Goroutines.addResult161 r; Goroutines.IsEmpty84])
          /\ Goroutines.stuck
               (Goroutines.mkSystem
                  (Goroutines.mkShared rs true false None 0)
                  [Goroutines.addResult161 r; Goroutines.IsEmpty84])
             = true)
    /\ (forall r,
          channel rs = [r] ->
          Goroutines.run [0; 0; 1; 0; 0]%nat
            (Goroutines.start rs [Goroutines.IsEmpty; Goroutines.one])
          = Some (Goroutines.mkSystem
                    (Goroutines.mkShared (withChannel rs []) false false
                       None 0)
                    [Goroutines.Returned (Goroutines.ReturnedBool true);
                     Goroutines.Returned
                       (Goroutines.ReturnedResult (Some r))])).
Proof.
  intros rs C. split; [|split].
  - destruct rs as [ch size rid agg cl]. cbn in C |- *. subst cl.
    intros ->. split; reflexivity.
  - intros r N F K.
    assert (B : forall next,
               Goroutines.sending (Goroutines.mkShared rs true false None 0)
                 (mkResult (result r)) next = None).
    { intros next. unfold Goroutines.sending.
      cbn [Goroutines.resultSet]. rewrite (send_full rs _ C F).
      reflexivity. }
    split.
    + unfold Goroutines.run, Goroutines.stepAt, Goroutines.start,
        Goroutines.addResult.
      cbn [nth_error Goroutines.goroutines Goroutines.shared Goroutines.step
           Goroutines.channelMux Goroutines.withChannelMux Goroutines.update
           Goroutines.resultSet Goroutines.waitSignalMux
           Goroutines.waitSignal Goroutines.made].
      rewrite K. reflexivity.
    + unfold Goroutines.stuck, Goroutines.stepAt.
      cbn [Goroutines.goroutines List.length seq forallb nth_error
           Goroutines.shared Goroutines.step Goroutines.channelMux].
      rewrite B. reflexivity.
  - intros r Q. destruct rs as [ch size rid agg cl]. cbn in C, Q |- *.
    subst cl ch. reflexivity.
Qed.

Lemma IsEmpty_loses_state_changes_witness :
  Goroutines.stuck
    (Goroutines.mkSystem
       (Goroutines.mkShared
          (Goroutines.closeChannel (newChannelResultSetCapacity [] 1))
          false false (Some O) 1)
       [Goroutines.waitForSignal66 0;
        Goroutines.Returned Goroutines.ReturnedNothing])
  = true
  /\ Goroutines.run [0; 0]%nat
       (Goroutines.start
          (mkChannelResultSet [mkResult (VInteger Int32 1)] 1 [] [] false)
          [Goroutines.addResult (mkResult (VInteger Int32 2));
           Goroutines.IsEmpty])
     = Some (Goroutines.mkSystem
               (Goroutines.mkShared
                  (mkChannelResultSet [mkResult (VInteger Int32 1)] 1 [] []
                     false)
                  true false None 0)
               [Goroutines.addResult161 (mkResult (VInteger Int32 2));
                Goroutines.IsEmpty84]).
Proof.
  split.
  - apply (proj2 (proj1 (IsEmpty_loses_state_changes
                           (newChannelResultSetCapacity [] 1) eq_refl)
                    eq_refl)).
  - apply (proj1 (proj1 (proj2 (IsEmpty_loses_state_changes
                                  (mkChannelResultSet
                                     [mkResult (VInteger Int32 1)] 1 [] []
                                     false)
                                  eq_refl))
                    (mkResult (VInteger Int32 2))
                    ltac:(discriminate) eq_refl eq_refl)).
Defined.

Lemma enqueued_nil (rs : channelResultSet) : enqueued rs [] = rs.
Proof.
  destruct rs; unfold enqueued; cbn. rewrite app_nil_r. reflexivity.
Qed.

Lemma enqueued_app (rs : channelResultSet) (a b : list Result) :
  enqueued (enqueued rs a) b = enqueued rs (a ++ b).
Proof.
  unfold enqueued; cbn. rewrite app_assoc. reflexivity.
Qed.

Lemma send_room (rs : channelResultSet) (r : Result) :
  closed rs = false ->
  (List.length (channel rs) < channelSize rs)%nat ->
  send rs r = Done (enqueued rs [r]).
Proof.
  intros Hc Hr. unfold send. rewrite Hc.
  destruct (Nat.leb_spec (channelSize rs) (List.length (channel rs))); [lia|].
  unfold enqueued. rewrite Hc. reflexivity.
Qed.

(** Every item of a list is sent once, as [unwrap] leaves it. *)
Lemma sendAll_room (items : list Value) :
  forall rs : channelResultSet,
    closed rs = false ->
    (List.length (channel rs) + List.length items <= channelSize rs)%nat ->
    sendAll rs items = Done (enqueued rs (map unwrap items)).
Proof.
  induction items as [|v items IH]; intros rs Hc Hr; cbn [sendAll map].
  - rewrite enqueued_nil. reflexivity.
  - cbn [List.length] in Hr. rewrite send_room by (trivial; lia).
    rewrite IH.
    + rewrite enqueued_app. reflexivity.
    + exact Hc.
    + cbn. rewrite length_app. cbn. lia.
Qed.

(** Adding a result that holds a list of [*Traverser] to an open result
    set with room for them enqueues, for each one in order, one result
    holding the value of the traverser, so that the queue grows by the
    length of the list; the bulk of a traverser plays no part. *)
Lemma addResult_unwraps_traversers_once :
  forall (rs : channelResultSet) (ts : list (Z * Value)),
    closed rs = false ->
    (List.length (channel rs) + List.length ts <= channelSize rs)%nat ->
    addResult rs (mkResult (traversers ts))
    = Done (enqueued rs (map (fun t => mkResult (snd t)) ts))
    /\ List.length (channel (enqueued rs (map (fun t => mkResult (snd t)) ts)))
       = (List.length (channel rs) + List.length ts)%nat
    /\ (forall bulk : Z -> Z,
           addResult rs
             (mkResult (traversers (map (fun t => (bulk (fst t), snd t)) ts)))
           = addResult rs (mkResult (traversers ts))).
Proof.
  intros rs ts Hc Hr.
  assert (A : forall ts' : list (Z * Value),
             List.length ts' = List.length ts ->
             addResult rs (mkResult (traversers ts'))
             = Done (enqueued rs (map (fun t => mkResult (snd t)) ts'))).
  { intros ts' Hl. unfold addResult, traversers. cbn.
    rewrite sendAll_room; trivial.
    - rewrite map_map. reflexivity.
    - rewrite length_map. lia. }
  split; [apply A; reflexivity | split].
  - cbn. rewrite length_app, length_map. reflexivity.
  - intros bulk. rewrite !A by (rewrite ?length_map; reflexivity).
    rewrite map_map. reflexivity.
Qed.

Lemma addResult_unwraps_traversers_once_witness :
  addResult rs_item
    (mkResult (traversers [(3, VString [Byte.x61]); (1, VInteger Int64 9)]))
  = Done (enqueued rs_item
            [mkResult (VString [Byte.x61]); mkResult (VInteger Int64 9)]).
Proof.
  apply (proj1 (addResult_unwraps_traversers_once rs_item
                  [(3, VString [Byte.x61]); (1, VInteger Int64 9)]
                  eq_refl ltac:(apply Nat.leb_le; reflexivity))).
Defined.

(** ** Sessions *)

(** C8: whenever the settings hold a non-empty session id once the
    configurations have run, the pool is created with a maximum of one
    concurrent connection, whatever maximum the configurations asked
    for; this holds for the constructor with an initial connection count
    and for the earlier one without.  The driver either constructor
    returns has the configured session id and the pool that was created
    with these arguments. *)
Theorem session_pool_has_one_connection :
  forall (defaults : Driver.Defaults) (Pool PoolError : Type)
         (newLoadBalancingPool : Driver.PoolArguments -> PoolError + Pool)
         (url : string) (configurations : list Driver.Configuration),
    (Driver.Session
       (Driver.configure (Driver.defaultSettings defaults) configurations)
     <> EmptyString ->
     Driver.maximumConcurrentConnections
       (Driver.poolArguments defaults url configurations) = 1)
    /\ (Driver.Session
          (Driver.configure (Driver.defaultSettings0 defaults) configurations)
        <> EmptyString ->
        Driver.maximumConcurrentConnections
          (Driver.poolArguments0 defaults url configurations) = 1)
    /\ (forall driver : Driver.DriverRemoteConnection Pool,
          Driver.NewDriverRemoteConnection defaults Pool PoolError
            newLoadBalancingPool url configurations = inr driver <->
          exists pool,
            newLoadBalancingPool
              (Driver.poolArguments defaults url configurations) = inr pool
            /\ Driver.connections (Driver.client driver) = pool
            /\ Driver.session (Driver.client driver)
               = Driver.Session
                   (Driver.configure (Driver.defaultSettings defaults)
                      configurations)
            /\ driver
               = Driver.mkDriver
                   (Driver.mkClient url
                      (Driver.traversalSource Pool (Driver.client driver))
                      (Driver.transporterType Pool (Driver.client driver))
                      pool (Driver.session (Driver.client driver)))
                   false
            /\ Driver.traversalSource Pool (Driver.client driver)
               = Driver.TraversalSource
                   (Driver.configure (Driver.defaultSettings defaults)
                      configurations)
            /\ Driver.transporterType Pool (Driver.client driver)
               = Driver.TransporterType_
                   (Driver.configure (Driver.defaultSettings defaults)
                      configurations))
    /\ (forall driver : Driver.DriverRemoteConnection Pool,
          Driver.NewDriverRemoteConnection0 defaults Pool PoolError
            newLoadBalancingPool url configurations = inr driver <->
          exists pool,
            newLoadBalancingPool
              (Driver.poolArguments0 defaults url configurations) = inr pool
            /\ Driver.connections (Driver.client driver) = pool
            /\ Driver.session (Driver.client driver)
               = Driver.Session
                   (Driver.configure (Driver.defaultSettings0 defaults)
                      configurations)
            /\ driver
               = Driver.mkDriver
                   (Driver.mkClient url
                      (Driver.traversalSource Pool (Driver.client driver))
                      (Driver.transporterType Pool (Driver.client driver))
                      pool (Driver.session (Driver.client driver)))
                   false
            /\ Driver.traversalSource Pool (Driver.client driver)
               = Driver.TraversalSource
                   (Driver.configure (Driver.defaultSettings0 defaults)
                      configurations)
            /\ Driver.transporterType Pool (Driver.client driver)
               = Driver.TransporterType_
                   (Driver.configure (Driver.defaultSettings0 defaults)
                      configurations)).
Proof.
  intros defaults Pool PoolError newPool url configurations.
  split; [|split; [|split]].
  - intros N. unfold Driver.poolArguments.
    cbn [Driver.maximumConcurrentConnections].
    unfold Driver.effectiveSettings.
    destruct (Driver.Session (Driver.configure _ configurations));
      [congruence|].
    cbn [Driver.isEmptyString negb]. destruct (_ >? _); reflexivity.
  - intros N. unfold Driver.poolArguments0.
    cbn [Driver.maximumConcurrentConnections].
    unfold Driver.effectiveSettings0.
    destruct (Driver.Session (Driver.configure _ configurations));
      [congruence|].
    reflexivity.
  - intros driver. unfold Driver.NewDriverRemoteConnection.
    assert (K : Driver.Session (Driver.effectiveSettings defaults configurations)
                = Driver.Session
                    (Driver.configure (Driver.defaultSettings defaults)
                       configurations)
                /\ Driver.TraversalSource
                     (Driver.effectiveSettings defaults configurations)
                   = Driver.TraversalSource
                       (Driver.configure (Driver.defaultSettings defaults)
                          configurations)
                /\ Driver.TransporterType_
                     (Driver.effectiveSettings defaults configurations)
                   = Driver.TransporterType_
                       (Driver.configure (Driver.defaultSettings defaults)
                          configurations)).
    { unfold Driver.effectiveSettings.
      destruct (negb _); destruct (_ >? _); repeat split. }
    destruct K as (Ks & Kt & Kp). rewrite Ks, Kt, Kp.
    destruct (newPool _) as [e | pool]; split.
    + discriminate.
    + intros (pool & H & _). discriminate H.
    + intros H. injection H as <-. exists pool. cbn. repeat split.
    + intros (pool' & H & Hc & Hs & Hd & Ht & Hp). injection H as <-.
      rewrite Hd. rewrite <- Hs, <- Ht, <- Hp. reflexivity.
  - intros driver. unfold Driver.NewDriverRemoteConnection0.
    assert (K : Driver.Session
                  (Driver.effectiveSettings0 defaults configurations)
                = Driver.Session
                    (Driver.configure (Driver.defaultSettings0 defaults)
                       configurations)
                /\ Driver.TraversalSource
                     (Driver.effectiveSettings0 defaults configurations)
                   = Driver.TraversalSource
                       (Driver.configure (Driver.defaultSettings0 defaults)
                          configurations)
                /\ Driver.TransporterType_
                     (Driver.effectiveSettings0 defaults configurations)
                   = Driver.TransporterType_
                       (Driver.configure (Driver.defaultSettings0 defaults)
                          configurations)).
    { unfold Driver.effectiveSettings0. destruct (negb _); repeat split. }
    destruct K as (Ks & Kt & Kp). rewrite Ks, Kt, Kp.
    destruct (newPool _) as [e | pool]; split.
    + discriminate.
    + intros (pool & H & _). discriminate H.
    + intros H. injection H as <-. exists pool. cbn. repeat split.
    + intros (pool' & H & Hc & Hs & Hd & Ht & Hp). injection H as <-.
      rewrite Hd. rewrite <- Hs, <- Ht, <- Hp. reflexivity.
Qed.

Lemma session_pool_has_one_connection_witness :
  Driver.maximumConcurrentConnections
    (Driver.poolArguments sampleDefaults "ws://host:8182/gremlin"
       [withMaximum 8; withSession "5a1c"]) = 1
  /\ Driver.maximumConcurrentConnections
       (Driver.poolArguments0 sampleDefaults "ws://host:8182/gremlin"
          [withSession "5a1c"; withMaximum 8]) = 1.
Proof.
  split.
  - apply (proj1 (session_pool_has_one_connection sampleDefaults
                    Driver.PoolArguments unit inr "ws://host:8182/gremlin"
                    [withMaximum 8; withSession "5a1c"])).
    cbn. discriminate.
  - apply (proj1 (proj2 (session_pool_has_one_connection sampleDefaults
                           Driver.PoolArguments unit inr
                           "ws://host:8182/gremlin"
                           [withSession "5a1c"; withMaximum 8]))).
    cbn. discriminate.
Defined.

(** ** Reading consumes the buffer *)

Lemma byte_eqb_eq (a b : byte) : byte_eqb a b = true <-> a = b.
Proof.
  unfold byte_eqb. rewrite Z.eqb_eq. split.
  - apply byte.unsigned_inj.
  - intros ->; reflexivity.
Qed.

Lemma byte_eqb_refl (a : byte) : byte_eqb a a = true.
Proof. apply byte_eqb_eq; reflexivity. Qed.

Lemma binaryRead_length n buffer buffer' r :
  binaryRead n buffer = (buffer', r) ->
  (List.length buffer' <= List.length buffer)%nat.
Proof.
  unfold binaryRead. destruct buffer as [|b buffer]; [intros [= <- _]; cbn; lia|].
  destruct (_ <? _)%nat; intros [= <- _]; [cbn; lia|].
  rewrite length_skipn. lia.
Qed.


Lemma binaryRead_app n bs rest :
  List.length bs = n -> n <> O ->
  binaryRead n (bs ++ rest) = (rest, inr bs).
Proof.
  intros Hl Hn. unfold binaryRead.
  destruct (bs ++ rest) as [|b l] eqn:E.
  - destruct bs; [cbn in Hl; congruence | discriminate].
  - rewrite <- E.
    destruct (Nat.ltb_spec (List.length (bs ++ rest)) n) as [H|H].
    + rewrite length_app in H. lia.
    + rewrite <- Hl.
      rewrite skipn_app, firstn_app, Nat.sub_diag, skipn_all, firstn_all.
      cbn. rewrite app_nil_r. reflexivity.
Qed.

Lemma ReadByte_length buffer buffer' r :
  ReadByte buffer = (buffer', r) ->
  (List.length buffer' <= List.length buffer)%nat.
Proof.
  destruct buffer; intros [= <- _]; cbn; lia.
Qed.

Lemma bufferRead_length n buffer buffer' r :
  bufferRead n buffer = (buffer', r) ->
  (List.length buffer' <= List.length buffer)%nat.
Proof.
  unfold bufferRead. destruct buffer; intros [= <- _]; [cbn; lia|].
  rewrite length_skipn. lia.
Qed.

Lemma readBytes_length n : forall acc buffer buffer' r,
  readBytes n acc buffer = (buffer', r) ->
  (List.length buffer' <= List.length buffer)%nat.
Proof.
  induction n as [|n IH]; intros acc buffer buffer' r; cbn.
  - intros [= <- _]; lia.
  - destruct buffer as [|b buffer]; cbn.
    + intros [= <- _]; cbn; lia.
    + intros H. apply IH in H. lia.
Qed.

Lemma scalarReader_length n mk buffer buffer' r :
  scalarReader n mk buffer = (buffer', r) ->
  (List.length buffer' <= List.length buffer)%nat.
Proof.
  unfold scalarReader. destruct (binaryRead n buffer) as [b [e|bs]] eqn:E;
    intros [= <- _]; eapply binaryRead_length; eassumption.
Qed.

Lemma stringReader_length buffer buffer' r :
  stringReader buffer = (buffer', r) ->
  (List.length buffer' <= List.length buffer)%nat.
Proof.
  unfold stringReader. destruct (binaryRead 4 buffer) as [b [e|bs]] eqn:E.
  - intros [= <- _]; eapply binaryRead_length; eassumption.
  - apply binaryRead_length in E. destruct (_ <? 0); [intros [= <- _]; lia|].
    destruct (bufferRead _ b) as [b2 [vb e]] eqn:E2.
    apply bufferRead_length in E2. intros [= <- _]; lia.
Qed.

Lemma bigIntReader_length buffer buffer' r :
  bigIntReader buffer = (buffer', r) ->
  (List.length buffer' <= List.length buffer)%nat.
Proof.
  unfold bigIntReader. destruct (binaryRead 4 buffer) as [b [e|bs]] eqn:E.
  - intros [= <- _]; eapply binaryRead_length; eassumption.
  - apply binaryRead_length in E. destruct (_ <? 0); [intros [= <- _]; lia|].
    destruct (readBytes _ [] b) as [b2 [e|vl]] eqn:E2;
      apply readBytes_length in E2.
    + intros [= <- _]; lia.
    + destruct (getBigIntFromSignedBytes vl); intros [= <- _]; lia.
Qed.

Lemma uuidReader_length buffer buffer' r :
  uuidReader buffer = (buffer', r) ->
  (List.length buffer' <= List.length buffer)%nat.
Proof.
  unfold uuidReader. destruct (bufferRead 16 buffer) as [b [vb [e|]]] eqn:E;
    apply bufferRead_length in E; intros [= <- _]; lia.
Qed.

Section ReadersConsume.
Variable rd : Buffer -> Buffer * Res.
Hypothesis rd_length : forall buffer buffer' r,
  rd buffer = (buffer', r) ->
  (List.length buffer' <= List.length buffer)%nat.

Lemma readItems_length n : forall acc buffer buffer' r,
  readItems rd n acc buffer = (buffer', r) ->
  (List.length buffer' <= List.length buffer)%nat.
Proof.
  induction n as [|n IH]; intros acc buffer buffer' r; cbn.
  - intros [= <- _]; lia.
  - destruct (rd buffer) as [b [v [e|]| p |]] eqn:E; apply rd_length in E;
      try (intros [= <- _]; lia).
    intros H; apply IH in H; lia.
Qed.

Lemma readEntries_length n : forall acc buffer buffer' r,
  readEntries rd n acc buffer = (buffer', r) ->
  (List.length buffer' <= List.length buffer)%nat.
Proof.
  induction n as [|n IH]; intros acc buffer buffer' r; cbn.
  - intros [= <- _]; lia.
  - destruct (rd buffer) as [b [k [e|]| p |]] eqn:E; apply rd_length in E;
      try (intros [= <- _]; lia).
    destruct (rd b) as [b2 [v [e|]| p |]] eqn:E2; apply rd_length in E2;
      try (intros [= <- _]; lia).
    destruct (hashable k); [|intros [= <- _]; lia].
    intros H; apply IH in H; lia.
Qed.

Lemma listReader_length buffer buffer' r :
  listReader rd buffer = (buffer', r) ->
  (List.length buffer' <= List.length buffer)%nat.
Proof.
  unfold listReader. destruct (binaryRead 4 buffer) as [b [e|bs]] eqn:E;
    apply binaryRead_length in E.
  - intros [= <- _]; lia.
  - intros H; apply readItems_length in H; lia.
Qed.

Lemma mapReader_length buffer buffer' r :
  mapReader rd buffer = (buffer', r) ->
  (List.length buffer' <= List.length buffer)%nat.
Proof.
  unfold mapReader. destruct (binaryRead 4 buffer) as [b [e|bs]] eqn:E;
    apply binaryRead_length in E.
  - intros [= <- _]; lia.
  - intros H; apply readEntries_length in H; lia.
Qed.

Lemma traverserReader_length buffer buffer' r :
  traverserReader rd buffer = (buffer', r) ->
  (List.length buffer' <= List.length buffer)%nat.
Proof.
  unfold traverserReader. destruct (binaryRead 8 buffer) as [b [e|bs]] eqn:E;
    apply binaryRead_length in E.
  - intros [= <- _]; lia.
  - destruct (rd b) as [b2 [v [e|]| p |]] eqn:E2; apply rd_length in E2;
      intros [= <- _]; lia.
Qed.

Lemma reader_length typ buffer buffer' r :
  reader rd typ buffer = (buffer', r) ->
  (List.length buffer' <= List.length buffer)%nat.
Proof.
  unfold reader.
  repeat match goal with
         | |- (if ?c then _ else _) = _ -> _ => destruct c
         end;
    eauto using traverserReader_length, stringReader_length,
      bigIntReader_length, scalarReader_length, uuidReader_length,
      mapReader_length, listReader_length.
  intros [= <- _]; lia.
Qed.

Lemma readTypeValue_length ts typ buffer nullable buffer' r :
  readTypeValue rd ts typ buffer nullable = (buffer', r) ->
  (List.length buffer' <= List.length buffer)%nat.
Proof.
  unfold readTypeValue. destruct nullable; [|apply reader_length].
  destruct (ReadByte buffer) as [b [e|flag]] eqn:E;
    apply ReadByte_length in E.
  - intros [= <- _]; lia.
  - destruct (byte_eqb flag valueFlagNull); [intros [= <- _]; lia|].
    intros H; apply reader_length in H; lia.
Qed.
End ReadersConsume.

(** [read] never hands back more bytes than it was given. *)
Lemma read_length fuel : forall buffer buffer' r,
  read fuel buffer = (buffer', r) ->
  (List.length buffer' <= List.length buffer)%nat.
Proof.
  induction fuel as [|fuel IH]; intros buffer buffer' r; cbn [read].
  - intros [= <- _]; lia.
  - destruct buffer as [|typeCode buffer]; cbn [ReadByte].
    + intros [= <- _]; lia.
    + destruct (byte_eqb typeCode (getCodeByte NullType)).
      * destruct buffer as [|b buffer]; cbn [ReadByte];
          destruct (negb _); intros [= <- _]; cbn; lia.
      * destruct (getSerializerToRead typeCode) as [e|ts].
        -- intros [= <- _]; cbn; lia.
        -- unfold readType. intros H.
           apply readTypeValue_length in H; [cbn; lia | exact IH].
Qed.



(** ** The recursion allowance suffices *)

Section ReadersTotal.
Variable rd : Buffer -> Buffer * Res.
Variable bound : nat.
Hypothesis rd_length : forall buffer buffer' r,
  rd buffer = (buffer', r) ->
  (List.length buffer' <= List.length buffer)%nat.
Hypothesis rd_total : forall buffer,
  (List.length buffer < bound)%nat -> snd (rd buffer) <> NoFuel.




End ReadersTotal.



(** ** Big-endian scalars *)

Lemma length_be_split n z : List.length (be_split n z) = n.
Proof. unfold be_split. rewrite length_rev. apply length_le_split. Qed.

Lemma be_combine_split n z :
  be_combine (be_split n z) = z mod 2 ^ (Z.of_nat n * 8).
Proof.
  unfold be_combine, be_split. rewrite rev_involutive.
  apply le_combine_split.
Qed.

Lemma be_split_combine bs : be_split (List.length bs) (be_combine bs) = bs.
Proof.
  unfold be_combine, be_split. rewrite <- (length_rev bs).
  rewrite split_le_combine. apply rev_involutive.
Qed.

Lemma to_signed_wrap w z :
  0 < w -> - 2 ^ (w - 1) <= z < 2 ^ (w - 1) ->
  to_signed w (z mod 2 ^ w) = z.
Proof.
  intros Hw Hz. unfold to_signed.
  assert (P : 2 ^ w = 2 * 2 ^ (w - 1)).
  { rewrite <- Z.pow_succ_r by lia. f_equal. lia. }
  assert (Q : 0 < 2 ^ (w - 1)) by (apply Z.pow_pos_nonneg; lia).
  destruct (Z.ltb_spec (z mod 2 ^ w) (2 ^ (w - 1))) as [H|H].
  - destruct (Z_lt_le_dec z 0) as [N|N].
    + rewrite <- (Z.mod_add z 1 (2 ^ w)) in H by lia.
      rewrite Z.mod_small in H by lia. lia.
    + apply Z.mod_small. lia.
  - destruct (Z_lt_le_dec z 0) as [N|N].
    + rewrite <- (Z.mod_add z 1 (2 ^ w)) by lia.
      rewrite Z.mod_small by lia. lia.
    + rewrite Z.mod_small in H by lia. lia.
Qed.


(** The length field read back. *)
Lemma read_size size rest :
  - 2 ^ 31 <= size < 2 ^ 31 ->
  binaryRead 4 (be_split 4 size ++ rest) = (rest, inr (be_split 4 size))
  /\ to_signed 32 (be_combine (be_split 4 size)) = size.
Proof.
  intros H. split.
  - apply binaryRead_app; [apply length_be_split | discriminate].
  - rewrite be_combine_split. apply to_signed_wrap; [lia | exact H].
Qed.

(** ** readValue drops the error of the body *)

(** A type code without a reader: [getSerializerToRead] returns an error
    that [readValue] drops, and the call of [readTypeValue] through the
    nil serializer panics, where [read] returns that error. *)
Lemma readValue_without_reader_panics :
  ReadValue (Some [Byte.x15; Byte.x00]) Byte.x15 true
  = ([Byte.x00], Panicked NilDereference)
  /\ Read [Byte.x15; Byte.x00]
     = ([Byte.x00], Ret VNil (Some ErrUnknownDeserialize)).
Proof. split; reflexivity. Qed.




(** ** Declared lengths and the bytes that remain *)

Section ReadersShort.
Variable rd : Buffer -> Buffer * Res.
Hypothesis rd_success : forall buffer buffer' v,
  rd buffer = (buffer', Ret v None) ->
  (List.length buffer' < List.length buffer)%nat.


End ReadersShort.






(** ** Bytes of a number, most significant first *)

Lemma be_combine_bound bs :
  0 <= be_combine bs < 2 ^ (8 * Z.of_nat (List.length bs)).
Proof.
  unfold be_combine. rewrite <- (length_rev bs). apply le_combine_bound.
Qed.

Lemma be_split_mod n z : be_split n z = be_split n (z mod 2 ^ (Z.of_nat n * 8)).
Proof. unfold be_split. rewrite <- le_split_mod. reflexivity. Qed.

Lemma be_split_S n : forall z,
  be_split (S n) z
  = byte.of_Z (Z.shiftr z (8 * Z.of_nat n)) :: be_split n z.
Proof.
  unfold be_split. induction n as [|n IH]; intros z.
  - cbn. rewrite ?Z.shiftr_0_r. reflexivity.
  - change (le_split (S (S n)) z)
      with (byte.of_Z z :: le_split (S n) (Z.shiftr z 8)).
    cbn [rev]. rewrite IH. cbn [app]. f_equal.
    f_equal. rewrite Z.shiftr_shiftr by lia. f_equal. lia.
Qed.

Lemma unsigned_of_Z_small x :
  0 <= x < 256 -> byte.unsigned (byte.of_Z x) = x.
Proof.
  intros H. rewrite byte.unsigned_of_Z. unfold byte.wrap.
  apply Z.mod_small. exact H.
Qed.

Lemma pow2_8_S k : 2 ^ (8 * Z.of_nat (S k)) = 256 * 2 ^ (8 * Z.of_nat k).
Proof.
  replace (8 * Z.of_nat (S k)) with (8 + 8 * Z.of_nat k) by lia.
  rewrite Z.pow_add_r by lia. reflexivity.
Qed.

Lemma pow2_8_pos k : 0 < 2 ^ (8 * Z.of_nat k).
Proof. apply Z.pow_pos_nonneg; lia. Qed.

(** A number below [256 * 2^(8k)] splits into its top byte and the rest. *)
Lemma be_split_top k z :
  0 <= z < 2 ^ (8 * Z.of_nat (S k)) ->
  be_split (S k) z
  = byte.of_Z (z / 2 ^ (8 * Z.of_nat k))
      :: be_split k (z mod 2 ^ (8 * Z.of_nat k)).
Proof.
  intros H. rewrite be_split_S. rewrite Z.shiftr_div_pow2 by lia.
  f_equal. rewrite (be_split_mod k z). f_equal. f_equal. f_equal. lia.
Qed.

Lemma be_combine_cons b bs :
  be_combine (b :: bs)
  = byte.unsigned b * 2 ^ (8 * Z.of_nat (List.length bs)) + be_combine bs.
Proof.
  pose proof (be_combine_bound bs) as Hb.
  pose proof (byte.unsigned_range b) as Hu.
  pose proof (pow2_8_pos (List.length bs)) as Hp.
  set (k := List.length bs) in *. set (V := be_combine bs) in *.
  set (z := byte.unsigned b * 2 ^ (8 * Z.of_nat k) + V).
  assert (Hz : 0 <= z < 2 ^ (8 * Z.of_nat (S k))).
  { rewrite pow2_8_S. unfold z. change (2 ^ 8) with 256 in Hu. nia. }
  assert (E : be_split (S k) z = b :: bs).
  { rewrite be_split_top by exact Hz. f_equal.
    - unfold z. rewrite Z.div_add_l by lia. rewrite Z.div_small by lia.
      rewrite Z.add_0_r. apply byte.of_Z_unsigned.
    - unfold z. rewrite Z.add_comm, Z.mod_add by lia.
      rewrite Z.mod_small by lia. unfold V, k. apply be_split_combine. }
  rewrite <- E. rewrite be_combine_split.
  rewrite Z.mod_small; [reflexivity|].
  replace (Z.of_nat (S k) * 8) with (8 * Z.of_nat (S k)) by lia. exact Hz.
Qed.


Lemma be_combine_split_small k z :
  0 <= z < 2 ^ (8 * Z.of_nat k) -> be_combine (be_split k z) = z.
Proof.
  intros H. rewrite be_combine_split. apply Z.mod_small.
  replace (Z.of_nat k * 8) with (8 * Z.of_nat k) by lia. exact H.
Qed.

Lemma msb_set_spec b : msb_set b = (128 <=? byte.unsigned b).
Proof. destruct b; reflexivity. Qed.

Lemma byte_eqb_x00 b : byte_eqb b Byte.x00 = (byte.unsigned b =? 0).
Proof. reflexivity. Qed.

Lemma byte_eqb_xff b : byte_eqb b Byte.xff = (byte.unsigned b =? 255).
Proof. reflexivity. Qed.

(** ** math/big: Bytes and the signed byte form *)

Lemma pow2_8_mono a b :
  (a <= b)%nat -> 2 ^ (8 * Z.of_nat a) <= 2 ^ (8 * Z.of_nat b).
Proof. intros H. apply Z.pow_le_mono_r; lia. Qed.

(** The byte count of a number is fixed by the powers of 256 around it. *)
Lemma byte_count_unique (a b : nat) (w : Z) :
  2 ^ (8 * Z.of_nat a) <= w < 2 ^ (8 * Z.of_nat (S a)) ->
  2 ^ (8 * Z.of_nat b) <= w < 2 ^ (8 * Z.of_nat (S b)) ->
  a = b.
Proof.
  intros Ha Hb.
  destruct (Nat.lt_trichotomy a b) as [H | [H | H]]; [|exact H|].
  - pose proof (pow2_8_mono (S a) b ltac:(lia)). lia.
  - pose proof (pow2_8_mono (S b) a ltac:(lia)). lia.
Qed.

Lemma Bytes_exists n :
  n <> 0 ->
  exists k : nat,
    2 ^ (8 * Z.of_nat k) <= Z.abs n < 2 ^ (8 * Z.of_nat (S k))
    /\ Bytes n = be_split (S k) (Z.abs n).
Proof.
  intros Hn. unfold Bytes, BitLen.
  destruct (Z.eqb_spec n 0) as [|_]; [contradiction|].
  set (m := Z.abs n). assert (Hm : 0 < m) by (unfold m; lia).
  pose proof (Z.log2_spec m Hm) as [Lo Hi].
  pose proof (Z.log2_nonneg m) as L0.
  set (L := Z.log2 m) in *.
  exists (Z.to_nat (L / 8)).
  assert (D : 0 <= L / 8) by (apply Z.div_pos; lia).
  pose proof (Z.div_mod L 8 ltac:(lia)) as DM.
  pose proof (Z.mod_pos_bound L 8 ltac:(lia)) as MB.
  split; [split|].
  - apply Z.le_trans with (2 ^ L); [|exact Lo].
    apply Z.pow_le_mono_r; lia.
  - apply Z.lt_le_trans with (2 ^ Z.succ L); [exact Hi|].
    apply Z.pow_le_mono_r; lia.
  - f_equal. replace (L + 1 + 7) with (L + 1 * 8) by lia.
    rewrite Z.div_add by lia. rewrite Z2Nat.inj_add by lia. cbn. lia.
Qed.

Lemma Bytes_between n k :
  2 ^ (8 * Z.of_nat k) <= Z.abs n < 2 ^ (8 * Z.of_nat (S k)) ->
  Bytes n = be_split (S k) (Z.abs n).
Proof.
  intros H. pose proof (pow2_8_pos k).
  destruct (Bytes_exists n ltac:(lia)) as (k' & Hk' & E).
  rewrite E. rewrite (byte_count_unique k' k (Z.abs n) Hk' H). reflexivity.
Qed.

(** [Bytes] of a non-zero number starts with a non-zero byte. *)
Lemma Bytes_pos_nonempty n : n <> 0 -> Bytes n <> [].
Proof.
  intros Hn. destruct (Bytes_exists n Hn) as (k & _ & E).
  rewrite E, be_split_S. discriminate.
Qed.

(** [getBigIntFromSignedBytes] never panics and reads two's complement. *)
Lemma getBigIntFromSignedBytes_spec b :
  getBigIntFromSignedBytes b = Some (signed_value b).
Proof.
  unfold getBigIntFromSignedBytes, signed_value, SetBytes.
  destruct b as [|b0 t]; [reflexivity|].
  destruct (msb_set b0) eqn:M; cbn [negb]; [|reflexivity].
  rewrite msb_set_spec in M. apply Z.leb_le in M.
  set (sb := b0 :: t). set (k := List.length sb).
  assert (Hk : k = S (List.length t)) by reflexivity.
  pose proof (be_combine_bound sb) as Vb. fold k in Vb.
  pose proof (be_combine_cons b0 t) as Vc. fold sb in Vc.
  pose proof (be_combine_bound t) as Tb.
  pose proof (pow2_8_pos (List.length t)) as Pp.
  pose proof (pow2_8_S (List.length t)) as PS. rewrite <- Hk in PS.
  pose proof (pow2_8_S k) as PS2.
  set (V := be_combine sb) in *.
  set (P := 2 ^ (8 * Z.of_nat (List.length t))) in *.
  set (Q := 2 ^ (8 * Z.of_nat k)) in *.
  replace ((Z.of_nat k * 8 / 8 + 1) * 8) with (8 * Z.of_nat (S k))
    by (rewrite Z.div_mul by lia; lia).
  unfold Lsh. rewrite Z.shiftl_1_l.
  set (m := Q - V).
  assert (Hm : 0 < m <= 128 * P) by (unfold m; nia).
  assert (W : Z.abs (V - 2 ^ (8 * Z.of_nat (S k))) = 255 * Q + m)
    by (unfold m; lia).
  rewrite (Bytes_between _ k) by (rewrite W; fold Q; lia).
  rewrite W. rewrite be_split_top by (fold Q; lia). fold Q.
  replace ((255 * Q + m) mod Q) with m
    by (rewrite Z.add_comm, Z.mod_add by lia;
        symmetry; apply Z.mod_small; lia).
  assert (Em : be_combine (be_split k m) = m)
    by (apply be_combine_split_small; fold Q; lia).
  rewrite Hk in Em |- *. rewrite be_split_S in Em |- *.
  set (c0 := byte.of_Z _) in *. set (rest := be_split _ m) in *.
  rewrite byte_eqb_x00. destruct (Z.eqb_spec (byte.unsigned c0) 0) as [Z0|_].
  - rewrite be_combine_cons, Z0 in Em. f_equal. unfold m in *. lia.
  - f_equal. unfold m in *. lia.
Qed.

(** [getSignedBytesFromBigInt] writes the two's complement of its
    argument on the width it chooses. *)
Lemma getSignedBytesFromBigInt_spec n :
  signed_value (getSignedBytesFromBigInt n) = n.
Proof.
  unfold getSignedBytesFromBigInt.
  destruct (Z.eqb_spec (Z.sgn n) 1) as [Pos|NPos].
  - (* positive *)
    assert (Hn : 0 < n) by lia.
    destruct (Bytes_exists n ltac:(lia)) as (k & Hk & E).
    rewrite Z.abs_eq in Hk, E by lia.
    assert (Ec : be_combine (Bytes n) = n)
      by (rewrite E; apply be_combine_split_small; lia).
    rewrite E in *. rewrite be_split_S in *.
    set (b0 := byte.of_Z _) in *. set (t := be_split k n) in *.
    destruct (msb_set b0) eqn:M.
    + unfold signed_value. change (msb_set Byte.x00) with false. cbn match.
      rewrite be_combine_cons. change (byte.unsigned Byte.x00) with 0. lia.
    + unfold signed_value. rewrite M. exact Ec.
  - destruct (Z.eqb_spec (Z.sgn n) (-1)) as [Neg|NNeg];
      [|cbn; lia].
    (* negative *)
    assert (Hn : n < 0) by lia.
    set (m := - n). assert (Hm : 0 < m) by (unfold m; lia).
    unfold BitLen. destruct (Z.eqb_spec n 0) as [|_]; [lia|].
    replace (Z.abs n) with m by (unfold m; lia).
    pose proof (Z.log2_spec m Hm) as [Lo Hi].
    pose proof (Z.log2_nonneg m) as L0.
    set (L := Z.log2 m) in *.
    pose proof (Z.div_mod (L + 1) 8 ltac:(lia)) as DM.
    pose proof (Z.mod_pos_bound (L + 1) 8 ltac:(lia)) as MB.
    assert (D : 0 <= (L + 1) / 8) by (apply Z.div_pos; lia).
    set (q' := Z.to_nat ((L + 1) / 8)).
    replace (((L + 1) / 8 + 1) * 8) with (8 * Z.of_nat (S q'))
      by (unfold q'; lia).
    unfold Lsh. rewrite Z.shiftl_1_l.
    pose proof (pow2_8_S q') as PS. pose proof (pow2_8_pos q') as Pp.
    set (P := 2 ^ (8 * Z.of_nat q')) in *.
    assert (Hmp : m < 128 * P).
    { apply Z.lt_le_trans with (2 ^ Z.succ L); [exact Hi|].
      replace (128 * P) with (2 ^ (7 + 8 * Z.of_nat q'))
        by (rewrite Z.pow_add_r by lia; reflexivity).
      apply Z.pow_le_mono_r; unfold q'; lia. }
    set (U := n + 2 ^ (8 * Z.of_nat (S q'))).
    assert (HU : 128 * P < U < 256 * P) by (unfold U, m in *; lia).
    rewrite (Bytes_between U q') by (rewrite Z.abs_eq by lia; fold P; lia).
    rewrite Z.abs_eq by lia.
    assert (Ec : be_combine (be_split (S q') U) = U)
      by (apply be_combine_split_small; lia).
    rewrite be_split_top in * by lia. fold P in Ec |- *.
    set (b0 := byte.of_Z (U / P)) in *.
    assert (Hb0 : byte.unsigned b0 = U / P).
    { apply unsigned_of_Z_small. split.
      - apply Z.div_pos; lia.
      - apply Z.div_lt_upper_bound; lia. }
    assert (M0 : msb_set b0 = true).
    { rewrite msb_set_spec, Hb0. apply Z.leb_le.
      apply Z.div_le_lower_bound; lia. }
    set (t := be_split q' (U mod P)) in *.
    assert (Lt : List.length t = q') by apply length_be_split.
    assert (Whole : signed_value (b0 :: t) = n).
    { unfold signed_value. rewrite M0, Ec. cbn [List.length]. rewrite Lt.
      unfold U. lia. }
    destruct t as [|b1 t'] eqn:Et; [exact Whole|].
    destruct (byte_eqb b0 Byte.xff && msb_set b1) eqn:C; [|exact Whole].
    apply andb_prop in C. destruct C as [C1 C2].
    rewrite byte_eqb_xff in C1. apply Z.eqb_eq in C1.
    cbn [tl]. unfold signed_value. rewrite C2.
    rewrite be_combine_cons in Ec. rewrite C1, Lt in Ec. fold P in Ec.
    rewrite Lt. fold P. unfold U in *. lia.
Qed.

(** A big integer written as signed bytes is read back unchanged. *)
Lemma bigInt_signed_bytes_round_trip n :
  getBigIntFromSignedBytes (getSignedBytesFromBigInt n) = Some n.
Proof.
  rewrite getBigIntFromSignedBytes_spec, getSignedBytesFromBigInt_spec.
  reflexivity.
Qed.

(** ** Round trip *)

Lemma list_all_In {A} (P : A -> Prop) (l : list A) :
  list_all A P l -> forall x, In x l -> P x.
Proof.
  induction 1 as [|a Ha l Hl IH]; intros x I; [destruct I|].
  destruct I as [E|I]; [subst; exact Ha | apply IH; exact I].
Qed.

Lemma list_all_pairs_In (P : Value -> Prop) (m : list (Value * Value)) :
  list_all (Value * Value) (prod_all Value P Value P) m ->
  forall kv, In kv m -> P (fst kv) /\ P (snd kv).
Proof.
  induction 1 as [|a Ha l Hl IH]; intros x I; [destruct I|].
  destruct I as [E|I]; [subst; destruct Ha; split; assumption|].
  apply IH; exact I.
Qed.

Lemma forallb_In {A} (f : A -> bool) (l : list A) x :
  forallb f l = true -> In x l -> f x = true.
Proof. intros H I. rewrite forallb_forall in H. apply H. exact I. Qed.

Lemma read_fq fuel c ts body :
  byte_eqb c (getCodeByte NullType) = false ->
  getSerializerToRead c = inr ts ->
  read (S fuel) (c :: Byte.x00 :: body) = reader (read fuel) c body.
Proof.
  intros Hn Hs. cbn [read ReadByte]. rewrite Hn, Hs. reflexivity.
Qed.

Lemma scalarReader_app n mk z rest :
  n <> O ->
  scalarReader n mk (be_split n z ++ rest)
  = (rest, Ret (mk (z mod 2 ^ (Z.of_nat n * 8))) None).
Proof.
  intros Hn. unfold scalarReader.
  rewrite binaryRead_app by (trivial; apply length_be_split).
  rewrite be_combine_split. reflexivity.
Qed.

Lemma bufferRead_app s rest :
  bufferRead (List.length s) (s ++ rest) = (rest, (s, None)).
Proof.
  unfold bufferRead. destruct (s ++ rest) as [|b l] eqn:E.
  - apply app_eq_nil in E. destruct E as [-> ->]. reflexivity.
  - rewrite <- E. rewrite skipn_app, firstn_app, Nat.sub_diag.
    rewrite skipn_all, firstn_all. cbn [skipn firstn app].
    rewrite app_nil_r, Nat.sub_diag. cbn. rewrite app_nil_r. reflexivity.
Qed.

Lemma readBytes_app s : forall acc rest,
  readBytes (List.length s) acc (s ++ rest) = (rest, inr (acc ++ s)).
Proof.
  induction s as [|b s IH]; intros acc rest; cbn.
  - rewrite app_nil_r. reflexivity.
  - rewrite IH, <- app_assoc. reflexivity.
Qed.

Lemma listWriter_items w l buffer :
  listWriter w l buffer
  = writeItems w l (binaryWrite 4 (Z.of_nat (List.length l)) buffer).
Proof.
  unfold listWriter. destruct l as [|x l]; [reflexivity|].
  destruct (Z.ltb_spec (Z.of_nat (List.length (x :: l))) 1) as [H|H];
    [cbn [List.length] in H; lia | reflexivity].
Qed.

Lemma writeItems_ok (l : list Value) :
  (forall x, In x l -> round_trips x) ->
  forall buffer,
    writeItems write l buffer
    = (buffer ++ List.concat (map encode l), Wrote None).
Proof.
  induction l as [|x l IH]; intros H buffer; cbn.
  - rewrite app_nil_r. reflexivity.
  - destruct (H x (or_introl eq_refl)) as [W _]. rewrite W.
    rewrite IH by (intros y Hy; apply H; right; exact Hy).
    rewrite <- app_assoc. reflexivity.
Qed.

Lemma forallb_andb {A} (f g : A -> bool) (l : list A) :
  forallb (fun x => f x && g x) l = forallb f l && forallb g l.
Proof.
  induction l as [|x l IH]; cbn; [reflexivity|].
  rewrite IH. destruct (f x), (g x), (forallb f l); reflexivity.
Qed.

Lemma writeEntries_ok (m : list (Value * Value)) :
  (forall kv, In kv m -> round_trips (fst kv) /\ round_trips (snd kv)) ->
  forallb (fun kv => self_equal (fst kv)) m = true ->
  forall buffer,
    writeEntries write m buffer = (buffer ++ encodeEntries m, Wrote None).
Proof.
  unfold encodeEntries.
  induction m as [|[k v] m IH]; intros H Hs buffer; cbn.
  - rewrite app_nil_r. reflexivity.
  - destruct (H (k, v) (or_introl eq_refl)) as [[Wk _] [Wv _]].
    cbn in Hs. apply andb_prop in Hs. destruct Hs as [Hk Hs].
    cbn [fst snd] in *. rewrite Wk, Hk, Wv.
    rewrite IH by (trivial; intros y Hy; apply H; right; exact Hy).
    rewrite <- !app_assoc. reflexivity.
Qed.

Lemma readItems_ok fuel (l : list Value) :
  (forall x, In x l -> round_trips x) ->
  forall acc rest,
    (List.length (List.concat (map encode l) ++ rest) < fuel)%nat ->
    readItems (read fuel) (List.length l) acc (List.concat (map encode l) ++ rest)
    = (rest, Ret (VList (acc ++ map widen l)) None).
Proof.
  induction l as [|x l IH]; intros H acc rest Hf; cbn.
  - rewrite app_nil_r. reflexivity.
  - destruct (H x (or_introl eq_refl)) as [_ R].
    cbn in Hf. rewrite <- app_assoc in Hf |- *.
    rewrite R by exact Hf.
    rewrite IH.
    + rewrite <- app_assoc. reflexivity.
    + intros y Hy; apply H; right; exact Hy.
    + rewrite length_app in Hf. lia.
Qed.

Lemma hashable_widen k : hashable (widen k) = hashable k.
Proof. destruct k as [| | [] | | | | | | | | | |]; reflexivity. Qed.

Lemma mapassign_new m key val :
  forallb (fun k => negb (iface_eqb k key)) (map fst m) = true ->
  mapassign m key val = m ++ [(key, val)].
Proof.
  induction m as [|[k v] m IH]; cbn; intros H; [reflexivity|].
  apply andb_prop in H. destruct H as [H1 H2].
  apply negb_true_iff in H1. rewrite H1, IH by exact H2. reflexivity.
Qed.

Lemma distinct_keys_split a : forall k r,
  distinct_keys (a ++ k :: r) = true ->
  forallb (fun k0 => negb (iface_eqb k0 k)) a = true
  /\ distinct_keys ((a ++ [k]) ++ r) = true.
Proof.
  intros k r H. split.
  - induction a as [|x a IH]; [reflexivity|]. cbn in H |- *.
    apply andb_prop in H. destruct H as [H1 H2].
    rewrite forallb_app in H1. apply andb_prop in H1. destruct H1 as [_ H1].
    cbn in H1. apply andb_prop in H1. destruct H1 as [H1 _].
    rewrite H1. apply IH. exact H2.
  - rewrite <- app_assoc. exact H.
Qed.

Lemma readEntries_ok fuel (m : list (Value * Value)) :
  (forall kv, In kv m -> round_trips (fst kv) /\ round_trips (snd kv)) ->
  forallb (fun kv => hashable (fst kv)) m = true ->
  forall acc rest,
    distinct_keys (map fst acc ++ map (fun kv => widen (fst kv)) m) = true ->
    (List.length (encodeEntries m ++ rest) < fuel)%nat ->
    readEntries (read fuel) (List.length m) acc (encodeEntries m ++ rest)
    = (rest,
       Ret (VMap (acc ++ map (fun kv => (widen (fst kv), widen (snd kv))) m))
         None).
Proof.
  unfold encodeEntries.
  induction m as [|[k v] m IH]; intros H Hh acc rest Hd Hf; cbn.
  - rewrite app_nil_r. reflexivity.
  - destruct (H (k, v) (or_introl eq_refl)) as [[_ Rk] [_ Rv]].
    cbn [fst snd] in *.
    cbn in Hf. rewrite <- !app_assoc in Hf |- *.
    rewrite Rk by exact Hf.
    rewrite length_app in Hf.
    rewrite Rv by lia.
    cbn in Hh. apply andb_prop in Hh. destruct Hh as [Hk Hh].
    rewrite hashable_widen, Hk.
    apply distinct_keys_split in Hd. destruct Hd as [Hn Hd].
    rewrite mapassign_new by exact Hn.
    rewrite IH.
    + rewrite <- app_assoc. reflexivity.
    + intros y Hy; apply H; right; exact Hy.
    + exact Hh.
    + rewrite map_app. exact Hd.
    + rewrite length_app in Hf. lia.
Qed.

(** The round trip of a value written as [{code}{0x00}{body}] whose body
    is read back by [reader] as [w]. *)
Lemma round_trips_fq v c ts body w :
  (forall buffer,
      write v buffer = (buffer ++ c :: Byte.x00 :: body, Wrote None)) ->
  byte_eqb c (getCodeByte NullType) = false ->
  getSerializerToRead c = inr ts ->
  widen v = w ->
  (forall fuel rest,
      (List.length (body ++ rest) < fuel)%nat ->
      reader (read fuel) c (body ++ rest) = (rest, Ret w None)) ->
  round_trips v.
Proof.
  intros W Hn Hs Hw R.
  assert (E : encode v = c :: Byte.x00 :: body)
    by (unfold encode; rewrite W; reflexivity).
  split.
  - intros buffer. rewrite W, E. reflexivity.
  - intros fuel rest Hf. rewrite E in *. cbn [app List.length] in *.
    destruct fuel as [|fuel]; [lia|].
    rewrite (read_fq fuel c ts) by assumption.
    rewrite Hw. apply R. lia.
Qed.

Lemma round_trips_scalar v c ts n mk z w :
  (forall buffer,
      write v buffer
      = (buffer ++ c :: Byte.x00 :: be_split n z, Wrote None)) ->
  byte_eqb c (getCodeByte NullType) = false ->
  getSerializerToRead c = inr ts ->
  (forall rd body, reader rd c body = scalarReader n mk body) ->
  n <> O ->
  widen v = w ->
  mk (z mod 2 ^ (Z.of_nat n * 8)) = w ->
  round_trips v.
Proof.
  intros W Hn Hs Hr Hn0 Hw Hm.
  apply (round_trips_fq v c ts (be_split n z) w); trivial.
  intros fuel rest _. rewrite Hr, scalarReader_app by exact Hn0.
  rewrite Hm. reflexivity.
Qed.

Lemma write_cons3 (buffer : Buffer) (a b : byte) (body : list byte) :
  ((buffer ++ [a]) ++ [b]) ++ body = buffer ++ a :: b :: body.
Proof. rewrite <- !app_assoc. reflexivity. Qed.

Lemma round_trips_integer t z :
  supported (VInteger t z) = true -> round_trips (VInteger t z).
Proof.
  cbn [supported]. unfold in_range. intros H.
  apply andb_prop in H. destruct H as [H St].
  apply andb_prop in H. destruct H as [Lo Hi].
  apply Z.leb_le in Lo, Hi.
  destruct t; try discriminate St; cbn [GoInt_min GoInt_max] in Lo, Hi.
  - (* int16 *)
    eapply (round_trips_scalar _ Byte.x26 _ 2
              (fun u => VInteger Int16 (to_signed 16 u)) z);
      try reflexivity; try discriminate.
    + intros buffer.
      cbn [write getSerializerToWrite dataType writeType writeTypeValue
             writer getCodeBytes].
      unfold binaryWrite, writeValueFlagNone, getCodeBytes.
      rewrite write_cons3. reflexivity.
    + cbn [widen]. f_equal. apply (to_signed_wrap 16); lia.
  - (* int32 *)
    eapply (round_trips_scalar _ Byte.x01 _ 4
              (fun u => VInteger Int32 (to_signed 32 u)) z);
      try reflexivity; try discriminate.
    + intros buffer.
      cbn [write getSerializerToWrite dataType writeType writeTypeValue
             writer getCodeBytes].
      unfold binaryWrite, writeValueFlagNone, getCodeBytes.
      rewrite write_cons3. reflexivity.
    + cbn [widen]. f_equal. apply (to_signed_wrap 32); lia.
  - (* int64 *)
    eapply (round_trips_scalar _ Byte.x02 _ 8
              (fun u => VInteger Int64 (to_signed 64 u)) z);
      try reflexivity; try discriminate.
    + intros buffer.
      cbn [write getSerializerToWrite dataType writeType writeTypeValue
             writer getCodeBytes].
      unfold binaryWrite, writeValueFlagNone, getCodeBytes.
      rewrite write_cons3. reflexivity.
    + cbn [widen]. f_equal. apply (to_signed_wrap 64); lia.
  - (* int *)
    eapply (round_trips_scalar _ Byte.x02 _ 8
              (fun u => VInteger Int64 (to_signed 64 u)) z);
      try reflexivity; try discriminate.
    + intros buffer.
      cbn [write getSerializerToWrite dataType writeType writeTypeValue
             writer getCodeBytes].
      unfold binaryWrite, writeValueFlagNone, getCodeBytes.
      rewrite write_cons3. reflexivity.
    + cbn [widen]. f_equal. apply (to_signed_wrap 64); lia.
  - (* uint8 *)
    eapply (round_trips_scalar _ Byte.x24 _ 1
              (fun u => VInteger Uint8 u) z);
      try reflexivity; try discriminate.
    + intros buffer.
      cbn [write getSerializerToWrite dataType writeType writeTypeValue
             writer getCodeBytes].
      unfold binaryWrite, writeValueFlagNone, getCodeBytes.
      rewrite write_cons3. reflexivity.
    + cbn [widen]. f_equal. apply Z.mod_small. cbn. lia.
  - (* uint16 *)
    eapply (round_trips_scalar _ Byte.x01 _ 4
              (fun u => VInteger Int32 (to_signed 32 u)) z);
      try reflexivity; try discriminate.
    + intros buffer.
      cbn [write getSerializerToWrite dataType writeType writeTypeValue
             writer getCodeBytes].
      unfold binaryWrite, writeValueFlagNone, getCodeBytes.
      rewrite write_cons3. reflexivity.
    + cbn [widen]. f_equal. apply (to_signed_wrap 32); lia.
  - (* uint32 *)
    eapply (round_trips_scalar _ Byte.x02 _ 8
              (fun u => VInteger Int64 (to_signed 64 u)) z);
      try reflexivity; try discriminate.
    + intros buffer.
      cbn [write getSerializerToWrite dataType writeType writeTypeValue
             writer getCodeBytes].
      unfold binaryWrite, writeValueFlagNone, getCodeBytes.
      rewrite write_cons3. reflexivity.
    + cbn [widen]. f_equal. apply (to_signed_wrap 64); lia.
Qed.

Lemma round_trips_float32 bits :
  supported (VFloat32 bits) = true -> round_trips (VFloat32 bits).
Proof.
  cbn [supported]. intros H. apply andb_prop in H. destruct H as [Lo Hi].
  apply Z.leb_le in Lo. apply Z.ltb_lt in Hi.
  eapply (round_trips_scalar _ Byte.x08 _ 4 VFloat32 bits);
    try reflexivity; try discriminate.
  - write_fq. rewrite write_cons3. reflexivity.
  - cbn [widen]. f_equal. apply Z.mod_small. cbn. lia.
Qed.

Lemma round_trips_float64 bits :
  supported (VFloat64 bits) = true -> round_trips (VFloat64 bits).
Proof.
  cbn [supported]. intros H. apply andb_prop in H. destruct H as [Lo Hi].
  apply Z.leb_le in Lo. apply Z.ltb_lt in Hi.
  eapply (round_trips_scalar _ Byte.x07 _ 8 VFloat64 bits);
    try reflexivity; try discriminate.
  - write_fq. rewrite write_cons3. reflexivity.
  - cbn [widen]. f_equal. apply Z.mod_small. cbn. lia.
Qed.

Lemma length_field (n : nat) rest :
  Z.of_nat n < 2 ^ 31 ->
  binaryRead 4 (be_split 4 (Z.of_nat n) ++ rest)
  = (rest, inr (be_split 4 (Z.of_nat n)))
  /\ to_signed 32 (be_combine (be_split 4 (Z.of_nat n))) = Z.of_nat n
  /\ Z.to_nat (Z.of_nat n) = n
  /\ (Z.of_nat n <? 0) = false.
Proof.
  intros H. destruct (read_size (Z.of_nat n) rest ltac:(lia)) as [B S].
  repeat split; trivial; [lia | apply Z.ltb_ge; lia].
Qed.

Lemma round_trips_string s :
  supported (VString s) = true -> round_trips (VString s).
Proof.
  cbn [supported]. intros H. apply Z.ltb_lt in H.
  apply (round_trips_fq _ Byte.x03 (mkSerializer StringType (VString []))
           (be_split 4 (Z.of_nat (List.length s)) ++ s) (VString s));
    try reflexivity.
  - write_fq. unfold stringWriter, binaryWrite.
    rewrite <- (app_assoc _ _ s), write_cons3. reflexivity.
  - intros fuel rest _.
    change (reader (read fuel) Byte.x03) with stringReader.
    unfold stringReader. rewrite <- app_assoc.
    destruct (length_field (List.length s) (s ++ rest) H) as (B & S & N & L).
    rewrite B, S, L, N, bufferRead_app. reflexivity.
Qed.

Lemma round_trips_uuid u :
  supported (VUUID u) = true -> round_trips (VUUID u).
Proof.
  cbn [supported]. intros H. apply Nat.eqb_eq in H.
  apply (round_trips_fq _ Byte.x0c
           (mkSerializer UUIDType (VUUID (repeat Byte.x00 16))) u (VUUID u));
    try reflexivity.
  - write_fq. rewrite write_cons3. reflexivity.
  - intros fuel rest _.
    change (reader (read fuel) Byte.x0c) with uuidReader.
    unfold uuidReader. rewrite <- H, bufferRead_app. reflexivity.
Qed.

Lemma round_trips_bigInt z :
  supported (VBigInt z) = true -> round_trips (VBigInt z).
Proof.
  cbn [supported]. intros H. apply Z.ltb_lt in H.
  set (sb := getSignedBytesFromBigInt z) in *.
  apply (round_trips_fq _ Byte.x23
           (mkSerializer BigIntegerType (VInteger Int 0))
           (be_split 4 (Z.of_nat (List.length sb)) ++ sb) (VBigInt z));
    try reflexivity.
  - write_fq. unfold bigIntWriter, binaryWrite. fold sb.
    rewrite <- (app_assoc _ _ sb), write_cons3. reflexivity.
  - intros fuel rest _.
    change (reader (read fuel) Byte.x23) with bigIntReader.
    unfold bigIntReader. rewrite <- app_assoc.
    destruct (length_field (List.length sb) (sb ++ rest) H) as (B & S & N & L).
    rewrite B, S, L, N, readBytes_app. cbn [app]. unfold sb.
    rewrite bigInt_signed_bytes_round_trip. reflexivity.
Qed.

Lemma round_trips_nil : round_trips VNil.
Proof.
  split.
  - intros buffer. reflexivity.
  - intros fuel rest Hf. destruct fuel as [|fuel]; [cbn in Hf; lia|].
    reflexivity.
Qed.

Lemma round_trips_list l :
  (forall x, In x l -> round_trips x) ->
  supported (VList l) = true -> round_trips (VList l).
Proof.
  intros IH H. cbn [supported] in H. apply andb_prop in H.
  destruct H as [H _]. apply Z.ltb_lt in H.
  apply (round_trips_fq _ Byte.x09 (mkSerializer IntType VNil)
           (be_split 4 (Z.of_nat (List.length l))
              ++ List.concat (map encode l))
           (VList (map widen l)));
    try reflexivity.
  - write_fq. rewrite listWriter_items. unfold binaryWrite.
    rewrite writeItems_ok by exact IH.
    rewrite <- (app_assoc _ _ (List.concat _)), write_cons3. reflexivity.
  - intros fuel rest Hf.
    change (reader (read fuel) Byte.x09) with (listReader (read fuel)).
    unfold listReader. rewrite <- app_assoc in Hf |- *.
    destruct (length_field (List.length l)
                (List.concat (map encode l) ++ rest) H) as (B & S & N & L).
    rewrite B, S, N. rewrite length_app in Hf.
    apply (readItems_ok fuel l IH []). lia.
Qed.

Lemma round_trips_map m :
  (forall kv, In kv m -> round_trips (fst kv) /\ round_trips (snd kv)) ->
  supported (VMap m) = true -> round_trips (VMap m).
Proof.
  intros IH H. cbn [supported] in H.
  apply andb_prop in H. destruct H as [H Hd].
  apply andb_prop in H. destruct H as [H Hh].
  rewrite forallb_andb in Hh. apply andb_prop in Hh. destruct Hh as [Hh Hs].
  apply andb_prop in H. destruct H as [H _]. apply Z.ltb_lt in H.
  apply (round_trips_fq _ Byte.x0a (mkSerializer MapType VNil)
           (be_split 4 (Z.of_nat (List.length m)) ++ encodeEntries m)
           (VMap (map (fun kv => (widen (fst kv), widen (snd kv))) m)));
    try reflexivity.
  - write_fq. unfold mapWriter, binaryWrite.
    rewrite writeEntries_ok by assumption.
    rewrite <- (app_assoc _ _ (encodeEntries m)), write_cons3. reflexivity.
  - intros fuel rest Hf.
    change (reader (read fuel) Byte.x0a) with (mapReader (read fuel)).
    unfold mapReader. rewrite <- app_assoc in Hf |- *.
    destruct (length_field (List.length m) (encodeEntries m ++ rest) H)
      as (B & S & N & L).
    rewrite B, S, N. rewrite length_app in Hf.
    apply (readEntries_ok fuel m IH Hh []); [exact Hd | lia].
Qed.

(** Every supported value obeys the round-trip law. *)
Lemma supported_round_trips (v : Value) :
  supported v = true -> round_trips v.
Proof.
  induction v as [ | b | t z | z | bits | bits | s | u | l IH | m IH
                 | steps IHs sources IHr | bulk v IH | bulk v IH ];
    intros H; try discriminate H.
  - apply round_trips_nil.
  - apply round_trips_integer; exact H.
  - apply round_trips_bigInt; exact H.
  - apply round_trips_float32; exact H.
  - apply round_trips_float64; exact H.
  - apply round_trips_string; exact H.
  - apply round_trips_uuid; exact H.
  - apply round_trips_list; [|exact H].
    intros x Hx. apply (list_all_In _ l IH x Hx).
    cbn [supported] in H. apply andb_prop in H. destruct H as [_ H].
    apply (forallb_In _ l x H Hx).
  - assert (S : forall kv, In kv m ->
                  supported (fst kv) && supported (snd kv) = true).
    { cbn [supported] in H.
      apply andb_prop in H. destruct H as [H _].
      apply andb_prop in H. destruct H as [H _].
      apply andb_prop in H. destruct H as [_ H].
      intros kv Hkv. apply (forallb_In _ m kv H Hkv). }
    apply round_trips_map; [|exact H].
    intros kv Hkv. specialize (S kv Hkv). apply andb_prop in S.
    destruct (list_all_pairs_In _ m IH kv Hkv) as [Pk Pv].
    destruct S as [Sk Sv]. split; [apply Pk | apply Pv]; assumption.
Qed.

(** C1, as stated, fails: a bytecode is written without error, but its
    encoding cannot be read back, since no reader is registered for the
    Bytecode type code; and a traverser cannot even be written, since no
    writer is registered for it. *)
Lemma bytecode_and_traverser_do_not_round_trip :
  write sample_bytecode []
  = ([Byte.x15; Byte.x00;
      Byte.x00; Byte.x00; Byte.x00; Byte.x01;
      Byte.x00; Byte.x00; Byte.x00; Byte.x01; Byte.x56;
      Byte.x00; Byte.x00; Byte.x00; Byte.x00;
      Byte.x00; Byte.x00; Byte.x00; Byte.x00], Wrote None)
  /\ snd (Read (encode sample_bytecode)) = Ret VNil (Some ErrUnknownDeserialize)
  /\ snd (Read (encode sample_bytecode)) <> Ret sample_bytecode None
  /\ write sample_traverser [] = ([], Wrote (Some ErrUnknownSerialize))
  /\ snd (Read (encode sample_traverser)) <> Ret sample_traverser None.
Proof.
  repeat split; try reflexivity; cbn; discriminate.
Qed.

(** C1, amended: for every value built from nil, uint8, int16, int32,
    int64, int, uint16, uint32, big integer, float32, float64, string,
    UUID, lists of such values and maps of such values (integers within
    the range of their type, lengths within the Int32 length field, map
    keys hashable, free of NaN and distinct once widened), the value is
    written without error and reading its fully-qualified encoding yields
    the value with its integers widened (int, uint32 to int64; uint16 to
    int32), leaving the bytes that follow untouched.  Bytecode has no
    reader and a traverser has no writer; bool is left aside. *)
Theorem round_trip_of_supported_values :
  forall v : Value,
    supported v = true ->
    (forall buffer, write v buffer = (buffer ++ encode v, Wrote None))
    /\ (forall rest, Read (encode v ++ rest) = (rest, Ret (widen v) None)).
Proof.
  intros v H. destruct (supported_round_trips v H) as [W R].
  split; [exact W|].
  intros rest. apply R. unfold enough. lia.
Qed.

Lemma round_trip_of_supported_values_witness :
  Read (encode sample_map) = ([], Ret sample_map None).
Proof.
  exact (proj2 (round_trip_of_supported_values sample_map eq_refl) []).
Defined.

(* ================================================================== *)
(** * Part II, continued: further properties *)
(* ================================================================== *)

(** ** Big integers as signed bytes *)

Lemma pow2_8_half k :
  2 ^ (8 * Z.of_nat (S k) - 1) = 128 * 2 ^ (8 * Z.of_nat k).
Proof.
  replace (8 * Z.of_nat (S k) - 1) with (7 + 8 * Z.of_nat k) by lia.
  rewrite Z.pow_add_r by lia. reflexivity.
Qed.

(** The value of a signed slice lies in the signed range of its width. *)
Lemma signed_value_fits b : fits_signed (List.length b) (signed_value b).
Proof.
  destruct b as [|b0 t]; [reflexivity|].
  unfold fits_signed, signed_value. cbn [List.length].
  rewrite pow2_8_half.
  pose proof (be_combine_cons b0 t) as C.
  pose proof (be_combine_bound t) as Tb.
  pose proof (byte.unsigned_range b0) as Ub. change (2 ^ 8) with 256 in Ub.
  pose proof (pow2_8_pos (List.length t)) as Pp.
  rewrite pow2_8_S.
  set (P := 2 ^ (8 * Z.of_nat (List.length t))) in *.
  rewrite msb_set_spec.
  destruct (Z.leb_spec 128 (byte.unsigned b0)); nia.
Qed.

Lemma signed_value_to_signed b :
  signed_value b
  = match b with
    | [] => 0
    | _ :: _ => to_signed (8 * Z.of_nat (List.length b)) (be_combine b)
    end.
Proof.
  destruct b as [|b0 t]; [reflexivity|].
  unfold signed_value, to_signed. cbn [List.length].
  rewrite pow2_8_half.
  pose proof (be_combine_cons b0 t) as C.
  pose proof (be_combine_bound t) as Tb.
  pose proof (byte.unsigned_range b0) as Ub. change (2 ^ 8) with 256 in Ub.
  pose proof (pow2_8_pos (List.length t)) as Pp.
  set (P := 2 ^ (8 * Z.of_nat (List.length t))) in *.
  rewrite msb_set_spec.
  destruct (Z.leb_spec 128 (byte.unsigned b0));
    destruct (Z.ltb_spec (be_combine (b0 :: t)) (128 * P));
    try reflexivity; nia.
Qed.

Lemma fits_signed_mono j k n :
  (j <= k)%nat -> fits_signed j n -> fits_signed k n.
Proof.
  intros Hjk H. destruct k as [|k]; [replace j with O in H by lia; exact H|].
  unfold fits_signed in *.
  assert (Hp : 0 < 2 ^ (8 * Z.of_nat (S k) - 1))
    by (apply Z.pow_pos_nonneg; lia).
  destruct j as [|j]; [lia|].
  assert (2 ^ (8 * Z.of_nat (S j) - 1) <= 2 ^ (8 * Z.of_nat (S k) - 1))
    by (apply Z.pow_le_mono_r; lia).
  lia.
Qed.

(** One byte less would not hold the number. *)
Lemma getSignedBytesFromBigInt_tight n :
  match List.length (getSignedBytesFromBigInt n) with
  | O => True
  | S j => ~ fits_signed j n
  end.
Proof.
  unfold getSignedBytesFromBigInt.
  destruct (Z.eqb_spec (Z.sgn n) 1) as [Pos|NPos].
  - assert (Hn : 0 < n) by lia.
    destruct (Bytes_exists n ltac:(lia)) as (k & Hk & E).
    rewrite Z.abs_eq in Hk, E by lia.
    rewrite E. rewrite be_split_top by lia.
    pose proof (pow2_8_S k) as PS. pose proof (pow2_8_pos k) as Pp.
    set (P := 2 ^ (8 * Z.of_nat k)) in *.
    set (b0 := byte.of_Z (n / P)).
    assert (Hb0 : byte.unsigned b0 = n / P).
    { apply unsigned_of_Z_small. split.
      - apply Z.div_pos; lia.
      - apply Z.div_lt_upper_bound; lia. }
    destruct (msb_set b0) eqn:M.
    + cbn [List.length]. rewrite length_be_split.
      unfold fits_signed. rewrite pow2_8_half. fold P.
      rewrite msb_set_spec, Hb0 in M. apply Z.leb_le in M.
      assert (128 * P <= n).
      { pose proof (Z.mul_div_le n P Pp). nia. }
      lia.
    + cbn [List.length]. rewrite length_be_split.
      destruct k as [|k]; [unfold fits_signed; lia|].
      unfold fits_signed. rewrite pow2_8_half.
      unfold P in *. rewrite pow2_8_S in Hk. lia.
  - destruct (Z.eqb_spec (Z.sgn n) (-1)) as [Neg|NNeg]; [|exact I].
    assert (Hn : n < 0) by lia.
    set (m := - n). assert (Hm : 0 < m) by (unfold m; lia).
    unfold BitLen. destruct (Z.eqb_spec n 0) as [|_]; [lia|].
    replace (Z.abs n) with m by (unfold m; lia).
    pose proof (Z.log2_spec m Hm) as [Lo Hi].
    pose proof (Z.log2_nonneg m) as L0.
    set (L := Z.log2 m) in *.
    pose proof (Z.div_mod (L + 1) 8 ltac:(lia)) as DM.
    pose proof (Z.mod_pos_bound (L + 1) 8 ltac:(lia)) as MB.
    assert (D : 0 <= (L + 1) / 8) by (apply Z.div_pos; lia).
    set (q' := Z.to_nat ((L + 1) / 8)).
    replace (((L + 1) / 8 + 1) * 8) with (8 * Z.of_nat (S q'))
      by (unfold q'; lia).
    unfold Lsh. rewrite Z.shiftl_1_l.
    pose proof (pow2_8_S q') as PS. pose proof (pow2_8_pos q') as Pp.
    set (P := 2 ^ (8 * Z.of_nat q')) in *.
    assert (Hmp : m < 128 * P).
    { apply Z.lt_le_trans with (2 ^ Z.succ L); [exact Hi|].
      replace (128 * P) with (2 ^ (7 + 8 * Z.of_nat q'))
        by (rewrite Z.pow_add_r by lia; reflexivity).
      apply Z.pow_le_mono_r; unfold q'; lia. }
    assert (Hml : q' <> O -> P <= 2 * m).
    { intros Hq. replace (2 * m) with (2 ^ 1 * m) by lia.
      apply Z.le_trans with (2 ^ 1 * 2 ^ L); [|nia].
      rewrite <- Z.pow_add_r by lia. unfold P.
      apply Z.pow_le_mono_r; unfold q'; lia. }
    set (U := n + 2 ^ (8 * Z.of_nat (S q'))).
    assert (HU : 128 * P < U < 256 * P) by (unfold U, m in *; lia).
    rewrite (Bytes_between U q') by (rewrite Z.abs_eq by lia; fold P; lia).
    rewrite Z.abs_eq by lia.
    assert (Ec : be_combine (be_split (S q') U) = U)
      by (apply be_combine_split_small; lia).
    rewrite be_split_top in * by lia. fold P in Ec |- *.
    set (b0 := byte.of_Z (U / P)) in *.
    assert (Hb0 : byte.unsigned b0 = U / P).
    { apply unsigned_of_Z_small. split.
      - apply Z.div_pos; lia.
      - apply Z.div_lt_upper_bound; lia. }
    set (t := be_split q' (U mod P)) in *.
    assert (Lt : List.length t = q') by apply length_be_split.
    pose proof (be_combine_bound t) as Tb. rewrite Lt in Tb. fold P in Tb.
    rewrite be_combine_cons, Hb0, Lt in Ec. fold P in Ec.
    pose proof (Z.div_mod U P ltac:(lia)) as UD.
    pose proof (Z.mod_pos_bound U P Pp) as UM.
    assert (Ht : be_combine t = U mod P) by nia.
    destruct t as [|b1 t'] eqn:Et.
    { cbn [List.length] in *. subst q'. unfold fits_signed.
      destruct (Z.to_nat ((L + 1) / 8)); [lia | discriminate]. }
    destruct q' as [|q'']; [discriminate Lt|]. cbn [List.length] in Lt.
    assert (Lt' : List.length t' = q'') by lia.
    pose proof (pow2_8_S q'') as PS'. pose proof (pow2_8_pos q'') as Pp'.
    fold P in PS'. set (P' := 2 ^ (8 * Z.of_nat q'')) in *.
    specialize (Hml ltac:(discriminate)).
    destruct (byte_eqb b0 Byte.xff && msb_set b1) eqn:C.
    + (* one 0xff dropped *)
      cbn [tl List.length]. rewrite Lt'.
      destruct q'' as [|q3]; [unfold fits_signed; lia|].
      unfold fits_signed. rewrite pow2_8_half.
      unfold P' in *. rewrite pow2_8_S in PS'. lia.
    + cbn [List.length]. rewrite Lt'.
      unfold fits_signed. rewrite pow2_8_half. fold P'.
      apply andb_false_iff in C. destruct C as [C|C].
      * rewrite byte_eqb_xff, Hb0 in C. apply Z.eqb_neq in C.
        assert (U / P < 256) by (apply Z.div_lt_upper_bound; lia).
        unfold U, m in *. nia.
      * rewrite msb_set_spec in C. apply Z.leb_gt in C.
        pose proof (be_combine_cons b1 t') as C1. rewrite Lt' in C1.
        fold P' in C1.
        pose proof (be_combine_bound t') as Tb'. rewrite Lt' in Tb'.
        fold P' in Tb'.
        assert (U / P < 256) by (apply Z.div_lt_upper_bound; lia).
        unfold U, m in *. nia.
Qed.

(** X1: a [*big.Int] written as signed bytes and read back is the same
    number, for every integer: zero, positive and negative, whatever its
    size. *)
Theorem big_integer_signed_bytes_round_trip :
  forall n : Z,
    getBigIntFromSignedBytes (getSignedBytesFromBigInt n) = Some n.
Proof.
  intros n.
  rewrite getBigIntFromSignedBytes_spec, getSignedBytesFromBigInt_spec.
  reflexivity.
Qed.

(** X2: [getBigIntFromSignedBytes] accepts every byte slice, minimal or
    not: it never runs out of range on its intermediate slices, and it
    returns the two's-complement reading of the slice on its own width
    (zero for the empty slice), which lies in the signed range of that
    width. *)
Theorem signed_bytes_read_as_twos_complement :
  forall b : list byte,
    exists z,
      getBigIntFromSignedBytes b = Some z
      /\ z = match b with
             | [] => 0
             | _ :: _ => to_signed (8 * Z.of_nat (List.length b)) (be_combine b)
             end
      /\ fits_signed (List.length b) z.
Proof.
  intros b. exists (signed_value b). split; [|split].
  - apply getBigIntFromSignedBytes_spec.
  - apply signed_value_to_signed.
  - apply signed_value_fits.
Qed.

(** X3: the signed bytes [getSignedBytesFromBigInt] produces are minimal:
    no shorter byte slice reads back as the same number. *)
Theorem signed_bytes_are_minimal :
  forall (n : Z) (b : list byte),
    getBigIntFromSignedBytes b = Some n ->
    (List.length (getSignedBytesFromBigInt n) <= List.length b)%nat.
Proof.
  intros n b H. rewrite getBigIntFromSignedBytes_spec in H.
  injection H as H.
  pose proof (signed_value_fits b) as F. rewrite H in F.
  pose proof (getSignedBytesFromBigInt_tight n) as T.
  destruct (List.length (getSignedBytesFromBigInt n)) as [|j]; [lia|].
  destruct (Nat.le_gt_cases (S j) (List.length b)) as [G|G]; [exact G|].
  exfalso. apply T. apply (fits_signed_mono (List.length b)); [lia|exact F].
Qed.

Lemma signed_bytes_are_minimal_witness :
  (List.length (getSignedBytesFromBigInt (-1))
   <= List.length [Byte.xff; Byte.xff; Byte.xff])%nat.
Proof.
  apply (signed_bytes_are_minimal (-1) [Byte.xff; Byte.xff; Byte.xff]).
  reflexivity.
Defined.

(** ** Writing only appends *)

Lemma list_all_instructions_In (P : Value -> Prop)
    (l : list (instruction Value)) :
  list_all (instruction Value) (instruction_all Value P) l ->
  forall i, In i l -> forall x, In x (arguments i) -> P x.
Proof.
  induction 1 as [|a Ha l Hl IH]; intros i I; [destruct I|].
  destruct I as [E|I]; [|apply IH; exact I].
  subst. destruct Ha as [op args Hargs]. cbn [arguments].
  intros x Hx. induction Hargs as [|y Hy args Hargs IHa]; [destruct Hx|].
  destruct Hx as [E|Hx]; [subst; exact Hy | apply IHa; exact Hx].
Qed.

Lemma position_independent_after (f : Buffer -> Buffer * Written) c :
  position_independent f ->
  position_independent (fun b => f (b ++ c)).
Proof.
  intros H b1 b2. rewrite <- app_assoc. apply H.
Qed.

Lemma writeItems_position_independent (l : list Value) :
  (forall x, In x l -> position_independent (write x)) ->
  position_independent (writeItems write l).
Proof.
  induction l as [|x l IH]; intros H b1 b2; cbn [writeItems].
  - reflexivity.
  - rewrite (H x (or_introl eq_refl) b1 b2).
    destruct (write x b2) as [o [[e|]|p]]; cbn [fst snd]; try reflexivity.
    apply IH. intros y Hy. apply H. right. exact Hy.
Qed.

Lemma writeEntries_position_independent (m : list (Value * Value)) :
  (forall kv, In kv m ->
     position_independent (write (fst kv))
     /\ position_independent (write (snd kv))) ->
  position_independent (writeEntries write m).
Proof.
  induction m as [|[k v] m IH]; intros H b1 b2; cbn [writeEntries].
  - reflexivity.
  - destruct (H (k, v) (or_introl eq_refl)) as [Hk Hv]. cbn [fst snd] in *.
    rewrite (Hk b1 b2).
    destruct (write k b2) as [o [[e|]|p]]; cbn [fst snd]; try reflexivity.
    destruct (self_equal k); [|reflexivity].
    rewrite (Hv b1 o).
    destruct (write v o) as [o2 [[e|]|p]]; cbn [fst snd]; try reflexivity.
    apply IH. intros y Hy. apply H. right. exact Hy.
Qed.

Lemma writeInstructions_position_independent
    (l : list (instruction Value)) :
  (forall i, In i l -> forall x, In x (arguments i) ->
     position_independent (write x)) ->
  position_independent (writeInstructions write l).
Proof.
  induction l as [|i l IH]; intros H b1 b2; cbn [writeInstructions].
  - reflexivity.
  - unfold stringWriter, binaryWrite. rewrite <- !app_assoc.
    rewrite (writeItems_position_independent (arguments i)
               (H i (or_introl eq_refl)) b1).
    rewrite !app_assoc.
    destruct (writeItems write (arguments i) _) as [o [[e|]|p]];
      cbn [fst snd]; try reflexivity.
    apply IH. intros j Hj. apply H. right. exact Hj.
Qed.

Lemma instructionSetWriter_position_independent
    (l : list (instruction Value)) :
  (forall i, In i l -> forall x, In x (arguments i) ->
     position_independent (write x)) ->
  position_independent (instructionSetWriter write l).
Proof.
  intros H. unfold instructionSetWriter, binaryWrite.
  apply (position_independent_after (writeInstructions write l)).
  apply writeInstructions_position_independent. exact H.
Qed.

Lemma write_position_independent (v : Value) :
  position_independent (write v).
Proof.
  induction v as [ | b | t z | z | bits | bits | s | u | l IH | m IH
                 | steps IHs sources IHr | bulk v IH | bulk v IH ];
    intros b1 b2;
    try (cbn [write getSerializerToWrite dataType writeType writeTypeValue
                writer fst snd];
         unfold binaryWrite, writeValueFlagNone, stringWriter, bigIntWriter,
           binaryWrite;
         rewrite <- ?app_assoc; reflexivity).
  - destruct t;
      cbn [write getSerializerToWrite dataType writeType writeTypeValue
             writer fst snd];
      unfold binaryWrite, writeValueFlagNone;
      rewrite <- ?app_assoc; reflexivity.
  - cbn [write getSerializerToWrite dataType writeType writeTypeValue writer].
    rewrite !listWriter_items. unfold binaryWrite, writeValueFlagNone.
    rewrite <- !(app_assoc b1).
    apply (writeItems_position_independent l (list_all_In _ l IH)).
  - cbn [write getSerializerToWrite dataType writeType writeTypeValue writer].
    unfold mapWriter, binaryWrite, writeValueFlagNone.
    rewrite <- !(app_assoc b1).
    apply (writeEntries_position_independent m (list_all_pairs_In _ m IH)).
  - cbn [write getSerializerToWrite dataType writeType writeTypeValue writer].
    unfold bytecodeWriter, writeValueFlagNone.
    rewrite <- !(app_assoc b1).
    rewrite (instructionSetWriter_position_independent steps
               (list_all_instructions_In _ steps IHs) b1).
    destruct (instructionSetWriter write steps _) as [o [[e|]|p]];
      cbn [fst snd]; try reflexivity.
    apply (instructionSetWriter_position_independent sources
             (list_all_instructions_In _ sources IHr)).
Qed.

(** X4: [write] only appends.  For every value, supported or not, the
    bytes already in the buffer stay in place, and the bytes added after
    them and the outcome (success, error or panic, with whatever was
    written before it) are those of writing into an empty buffer. *)
Theorem write_only_appends :
  forall (v : Value) (buffer : Buffer),
    write v buffer = (buffer ++ encode v, snd (write v [])).
Proof.
  intros v buffer. unfold encode.
  rewrite <- (app_nil_r buffer) at 1. apply write_position_independent.
Qed.

(** ** Reading hands back the rest of its input *)

Lemma rest_of_refl b : rest_of b b.
Proof. exists []. reflexivity. Qed.

Lemma rest_of_trans a b c : rest_of a b -> rest_of b c -> rest_of a c.
Proof.
  intros [x ->] [y ->]. exists (y ++ x). apply app_assoc.
Qed.

Lemma rest_of_nil b : rest_of [] b.
Proof. exists b. symmetry. apply app_nil_r. Qed.

Lemma rest_of_skipn n b : rest_of (skipn n b) b.
Proof. exists (firstn n b). symmetry. apply firstn_skipn. Qed.

Lemma rest_of_tail x b : rest_of b (x :: b).
Proof. exists [x]. reflexivity. Qed.

Lemma rest_of_length a b :
  rest_of a b -> (List.length a <= List.length b)%nat.
Proof. intros [c ->]. rewrite length_app. lia. Qed.

Create HintDb rest.
#[local] Hint Resolve rest_of_refl rest_of_nil rest_of_skipn rest_of_tail
  : rest.

Lemma binaryRead_rest n buffer buffer' r :
  binaryRead n buffer = (buffer', r) -> rest_of buffer' buffer.
Proof.
  unfold binaryRead. destruct buffer as [|b buffer];
    [intros [= <- _]; auto with rest|].
  destruct (_ <? _)%nat; intros [= <- _]; auto with rest.
Qed.

Lemma ReadByte_rest buffer buffer' r :
  ReadByte buffer = (buffer', r) -> rest_of buffer' buffer.
Proof. destruct buffer; intros [= <- _]; auto with rest. Qed.

Lemma bufferRead_rest n buffer buffer' r :
  bufferRead n buffer = (buffer', r) -> rest_of buffer' buffer.
Proof.
  unfold bufferRead. destruct buffer; intros [= <- _]; auto with rest.
Qed.

Lemma readBytes_rest n : forall acc buffer buffer' r,
  readBytes n acc buffer = (buffer', r) -> rest_of buffer' buffer.
Proof.
  induction n as [|n IH]; intros acc buffer buffer' r; cbn.
  - intros [= <- _]; auto with rest.
  - destruct buffer as [|b buffer]; cbn.
    + intros [= <- _]; auto with rest.
    + intros H. apply IH in H.
      eapply rest_of_trans; [exact H | auto with rest].
Qed.

Lemma scalarReader_rest n mk buffer buffer' r :
  scalarReader n mk buffer = (buffer', r) -> rest_of buffer' buffer.
Proof.
  unfold scalarReader. destruct (binaryRead n buffer) as [b [e|bs]] eqn:E;
    intros [= <- _]; eapply binaryRead_rest; eassumption.
Qed.

Lemma stringReader_rest buffer buffer' r :
  stringReader buffer = (buffer', r) -> rest_of buffer' buffer.
Proof.
  unfold stringReader. destruct (binaryRead 4 buffer) as [b [e|bs]] eqn:E;
    apply binaryRead_rest in E.
  - intros [= <- _]; exact E.
  - destruct (_ <? 0); [intros [= <- _]; exact E|].
    destruct (bufferRead _ b) as [b2 [vb e]] eqn:E2.
    apply bufferRead_rest in E2. intros [= <- _].
    eapply rest_of_trans; eassumption.
Qed.

Lemma bigIntReader_rest buffer buffer' r :
  bigIntReader buffer = (buffer', r) -> rest_of buffer' buffer.
Proof.
  unfold bigIntReader. destruct (binaryRead 4 buffer) as [b [e|bs]] eqn:E;
    apply binaryRead_rest in E.
  - intros [= <- _]; exact E.
  - destruct (_ <? 0); [intros [= <- _]; exact E|].
    destruct (readBytes _ [] b) as [b2 [e|vl]] eqn:E2;
      apply readBytes_rest in E2.
    + intros [= <- _]. eapply rest_of_trans; eassumption.
    + destruct (getBigIntFromSignedBytes vl); intros [= <- _];
        eapply rest_of_trans; eassumption.
Qed.

Lemma uuidReader_rest buffer buffer' r :
  uuidReader buffer = (buffer', r) -> rest_of buffer' buffer.
Proof.
  unfold uuidReader. destruct (bufferRead 16 buffer) as [b [vb [e|]]] eqn:E;
    apply bufferRead_rest in E; intros [= <- _]; exact E.
Qed.

Section ReadersRest.
Variable rd : Buffer -> Buffer * Res.
Hypothesis rd_rest : forall buffer buffer' r,
  rd buffer = (buffer', r) -> rest_of buffer' buffer.

Lemma readItems_rest n : forall acc buffer buffer' r,
  readItems rd n acc buffer = (buffer', r) -> rest_of buffer' buffer.
Proof.
  induction n as [|n IH]; intros acc buffer buffer' r; cbn.
  - intros [= <- _]; auto with rest.
  - destruct (rd buffer) as [b [v [e|]| p |]] eqn:E; apply rd_rest in E;
      try (intros [= <- _]; exact E).
    intros H; apply IH in H. eapply rest_of_trans; eassumption.
Qed.

Lemma readEntries_rest n : forall acc buffer buffer' r,
  readEntries rd n acc buffer = (buffer', r) -> rest_of buffer' buffer.
Proof.
  induction n as [|n IH]; intros acc buffer buffer' r; cbn.
  - intros [= <- _]; auto with rest.
  - destruct (rd buffer) as [b [k [e|]| p |]] eqn:E; apply rd_rest in E;
      try (intros [= <- _]; exact E).
    destruct (rd b) as [b2 [v [e|]| p |]] eqn:E2; apply rd_rest in E2;
      try (intros [= <- _]; eapply rest_of_trans; eassumption).
    destruct (hashable k);
      [|intros [= <- _]; eapply rest_of_trans; eassumption].
    intros H; apply IH in H.
    eapply rest_of_trans; [exact H|]. eapply rest_of_trans; eassumption.
Qed.

Lemma reader_rest typ buffer buffer' r :
  reader rd typ buffer = (buffer', r) -> rest_of buffer' buffer.
Proof.
  unfold reader.
  repeat match goal with
         | |- (if ?c then _ else _) = _ -> _ => destruct c
         end;
    eauto using stringReader_rest, bigIntReader_rest, scalarReader_rest,
      uuidReader_rest.
  - unfold traverserReader.
    destruct (binaryRead 8 buffer) as [b [e|bs]] eqn:E;
      apply binaryRead_rest in E.
    + intros [= <- _]; exact E.
    + destruct (rd b) as [b2 [v [e|]| p |]] eqn:E2; apply rd_rest in E2;
        intros [= <- _]; eapply rest_of_trans; eassumption.
  - unfold mapReader.
    destruct (binaryRead 4 buffer) as [b [e|bs]] eqn:E;
      apply binaryRead_rest in E.
    + intros [= <- _]; exact E.
    + intros H; apply readEntries_rest in H.
      eapply rest_of_trans; eassumption.
  - unfold listReader.
    destruct (binaryRead 4 buffer) as [b [e|bs]] eqn:E;
      apply binaryRead_rest in E.
    + intros [= <- _]; exact E.
    + intros H; apply readItems_rest in H.
      eapply rest_of_trans; eassumption.
  - intros [= <- _]; auto with rest.
Qed.

Lemma readTypeValue_rest ts typ buffer nullable buffer' r :
  readTypeValue rd ts typ buffer nullable = (buffer', r) ->
  rest_of buffer' buffer.
Proof.
  unfold readTypeValue. destruct nullable; [|apply reader_rest].
  destruct (ReadByte buffer) as [b [e|flag]] eqn:E; apply ReadByte_rest in E.
  - intros [= <- _]; exact E.
  - destruct (byte_eqb flag valueFlagNull); [intros [= <- _]; exact E|].
    intros H; apply reader_rest in H. eapply rest_of_trans; eassumption.
Qed.
End ReadersRest.

Lemma read_rest fuel : forall buffer buffer' r,
  read fuel buffer = (buffer', r) -> rest_of buffer' buffer.
Proof.
  induction fuel as [|fuel IH]; intros buffer buffer' r; cbn [read].
  - intros [= <- _]; auto with rest.
  - destruct buffer as [|typeCode buffer]; cbn [ReadByte].
    + intros [= <- _]; auto with rest.
    + intros H. apply (rest_of_trans _ buffer); [|auto with rest].
      revert H. destruct (byte_eqb typeCode (getCodeByte NullType)).
      * destruct buffer as [|b buffer]; cbn [ReadByte];
          destruct (negb _); intros [= <- _]; auto with rest.
      * destruct (getSerializerToRead typeCode) as [e|ts].
        -- intros [= <- _]; auto with rest.
        -- unfold readType. intros H.
           apply readTypeValue_rest in H; [exact H | exact IH].
Qed.

(** A value read without error took the type code and one more byte at
    least. *)
Lemma read_success_two fuel buffer buffer' v :
  read fuel buffer = (buffer', Ret v None) ->
  (List.length buffer' + 2 <= List.length buffer)%nat.
Proof.
  destruct fuel as [|fuel]; [discriminate|]. cbn [read].
  destruct buffer as [|typeCode buffer]; cbn [ReadByte]; [discriminate|].
  destruct (byte_eqb typeCode (getCodeByte NullType)).
  - destruct buffer as [|b buffer]; cbn [ReadByte]; [discriminate|].
    destruct (negb _); intros H; try discriminate H.
    injection H as <- _. cbn. lia.
  - destruct (getSerializerToRead typeCode) as [e|ts]; [discriminate|].
    unfold readType, readTypeValue.
    destruct buffer as [|flag buffer]; cbn [ReadByte]; [discriminate|].
    destruct (byte_eqb flag valueFlagNull).
    + intros [= <- _]. cbn. lia.
    + intros H. apply reader_length in H; [cbn; lia | apply read_length].
Qed.

(** X5: [read] consumes its input from the front and nothing else: what
    it leaves in the buffer is the input without some leading bytes, on
    success, on error and on panic alike; and a value read without error
    has taken at least two bytes, so that the loops over list items and
    map entries always advance. *)
Theorem read_leaves_rest_of_input :
  forall (buffer : Buffer),
    rest_of (fst (Read buffer)) buffer
    /\ (forall v, snd (Read buffer) = Ret v None ->
          (List.length (fst (Read buffer)) + 2 <= List.length buffer)%nat).
Proof.
  intros buffer. unfold Read.
  destruct (read (enough buffer) buffer) as [b r] eqn:E. cbn [fst snd].
  split.
  - apply read_rest in E. exact E.
  - intros v ->. apply read_success_two in E. exact E.
Qed.

Lemma read_leaves_rest_of_input_witness :
  (List.length (fst (Read [Byte.x24; Byte.x00; Byte.x07; Byte.xfe])) + 2
   <= 4)%nat.
Proof.
  apply (proj2 (read_leaves_rest_of_input
                  [Byte.x24; Byte.x00; Byte.x07; Byte.xfe])
           (VInteger Uint8 7)).
  reflexivity.
Defined.

(** ** Type codes: typed nulls and unknown codes *)

(** X6: a fully-qualified value whose value flag is 0x01 is read, for
    each of the thirteen types that have a reader, without error and
    without touching the bytes after the flag, as the sentinel of the
    type: nil for a list or a map only, the empty string for a string and
    for a traverser, the nil UUID, and the [int] 0 for Int32, Int64, Short,
    Byte, Boolean, Float32, Float64 and BigInt. *)
Theorem typed_null_reads_as_sentinel :
  forall (dt : DataType) (rest : Buffer),
    In dt registered ->
    Read (getCodeByte dt :: valueFlagNull :: rest)
    = (rest, Ret (nullSentinel dt) None).
Proof.
  intros dt rest H. unfold registered in H. cbn [In] in H.
  destruct dt; try reflexivity; exfalso;
    repeat (destruct H as [H|H]; [discriminate H|]); exact H.
Qed.

Lemma typed_null_reads_as_sentinel_witness :
  Read [Byte.x01; Byte.x01; Byte.x2a] = ([Byte.x2a], Ret (VInteger Int 0) None).
Proof.
  apply (typed_null_reads_as_sentinel IntType [Byte.x2a]).
  cbn. tauto.
Defined.

Lemma unknown_code_has_no_serializer (c : byte) :
  (forall dt, In dt registered -> c <> getCodeByte dt) ->
  getSerializerToRead c = inl ErrUnknownDeserialize.
Proof.
  intros H.
  assert (H' : Forall (fun dt => c <> getCodeByte dt) registered)
    by (apply Forall_forall; exact H).
  clear H. unfold registered in H'.
  repeat match goal with
         | H : Forall _ (_ :: _) |- _ =>
             let N := fresh "N" in
             apply Forall_cons_iff in H; destruct H as [N H]
         end.
  destruct c; try reflexivity; exfalso;
    match goal with
    | N : ?x <> getCodeByte ?dt |- _ =>
        apply N; reflexivity
    end.
Qed.

(** X7: a type code that is neither the Null code nor one of the thirteen
    codes with a reader (the Bytecode code 0x15 among them) makes [read]
    return the unknown-data-type error with a nil value; only the code
    byte is consumed. *)
Theorem unknown_type_code_is_an_error :
  forall (c : byte) (rest : Buffer),
    c <> getCodeByte NullType ->
    (forall dt, In dt registered -> c <> getCodeByte dt) ->
    Read (c :: rest) = (rest, Ret VNil (Some ErrUnknownDeserialize)).
Proof.
  intros c rest Hn H. unfold Read, enough. cbn [read ReadByte List.length].
  destruct (byte_eqb c (getCodeByte NullType)) eqn:E;
    [apply byte_eqb_eq in E; contradiction|].
  rewrite (unknown_code_has_no_serializer c H). reflexivity.
Qed.

Lemma unknown_type_code_is_an_error_witness :
  Read [Byte.x15; Byte.x00] = ([Byte.x00], Ret VNil (Some ErrUnknownDeserialize)).
Proof.
  apply (unknown_type_code_is_an_error Byte.x15 [Byte.x00]).
  - discriminate.
  - intros dt H. unfold registered in H. cbn [In] in H.
    repeat (destruct H as [H|H]; [subst dt; discriminate|]). destruct H.
Defined.

(** ** More on the round trip *)

(** X8: the wire format of supported values is unambiguous: when the
    encodings of two supported values, each followed by arbitrary bytes,
    are the same byte sequence, the two values are the same up to the
    integer widening and the bytes that follow are the same; in particular
    no encoding is a proper prefix of another one. *)
Theorem encoding_is_prefix_free :
  forall (v1 v2 : Value) (rest1 rest2 : Buffer),
    supported v1 = true -> supported v2 = true ->
    encode v1 ++ rest1 = encode v2 ++ rest2 ->
    widen v1 = widen v2 /\ rest1 = rest2.
Proof.
  intros v1 v2 rest1 rest2 S1 S2 E.
  destruct (supported_round_trips v1 S1) as [_ R1].
  destruct (supported_round_trips v2 S2) as [_ R2].
  specialize (R1 (enough (encode v1 ++ rest1)) rest1 ltac:(unfold enough; lia)).
  specialize (R2 (enough (encode v1 ++ rest1)) rest2
                ltac:(rewrite <- E; unfold enough; lia)).
  rewrite E in R1 at 2. rewrite R1 in R2.
  injection R2 as -> ->. split; reflexivity.
Qed.

Lemma encoding_is_prefix_free_witness :
  widen (VInteger Uint16 7) = widen (VInteger Int32 7)
  /\ [Byte.x2a] = [Byte.x2a].
Proof.
  apply (encoding_is_prefix_free (VInteger Uint16 7) (VInteger Int32 7)
           [Byte.x2a] [Byte.x2a]); reflexivity.
Defined.

(** X9: a traverser on the wire, that is the Traverser code, the value
    flag 0x00, a bulk of eight bytes and the encoding of a supported
    value, is read as the [Traverser] struct with that bulk and that
    value (integers widened); the bytes after it are left in the buffer. *)
Theorem traverser_is_read_with_bulk_and_value :
  forall (bulk : Z) (v : Value) (rest : Buffer),
    - 2 ^ 63 <= bulk < 2 ^ 63 ->
    supported v = true ->
    Read (getCodeByte TraverserType :: valueFlagNone
            :: be_split 8 bulk ++ encode v ++ rest)
    = (rest, Ret (VTraverser bulk (widen v)) None).
Proof.
  intros bulk v rest Hb Sv.
  destruct (supported_round_trips v Sv) as [_ R].
  unfold Read, enough. cbn [List.length].
  rewrite (read_fq _ _ (mkSerializer TraverserType (VString [])))
    by reflexivity.
  change (reader ?r (getCodeByte TraverserType) ?b)
    with (traverserReader r b).
  unfold traverserReader.
  rewrite binaryRead_app by (try apply length_be_split; discriminate).
  rewrite be_combine_split.
  rewrite (to_signed_wrap 64) by (cbn; lia).
  rewrite R; [reflexivity|].
  rewrite !length_app, length_be_split. lia.
Qed.

Lemma traverser_is_read_with_bulk_and_value_witness :
  Read [Byte.x21; Byte.x00;
        Byte.x00; Byte.x00; Byte.x00; Byte.x00;
        Byte.x00; Byte.x00; Byte.x00; Byte.x03;
        Byte.x03; Byte.x00; Byte.x00; Byte.x00; Byte.x00; Byte.x01; Byte.x61]
  = ([], Ret (VTraverser 3 (VString [Byte.x61])) None).
Proof.
  exact (traverser_is_read_with_bulk_and_value 3 (VString [Byte.x61]) []
           ltac:(lia) eq_refl).
Defined.

Lemma widen_nil v : widen v = VNil -> v = VNil.
Proof.
  destruct v as [| | [] | | | | | | | | | |]; cbn; intros H;
    try discriminate H; reflexivity.
Qed.

Lemma writer_position_independent (v : Value) :
  position_independent (writer write v).
Proof.
  intros b1 b2.
  destruct v as [ | b | t z | z | bits | bits | s | u | l | m
                | steps sources | bulk v | bulk v ];
    try (cbn [writer fst snd];
         unfold binaryWrite, stringWriter, bigIntWriter, binaryWrite;
         rewrite <- ?app_assoc; reflexivity).
  - destruct t; cbn [writer fst snd]; unfold binaryWrite;
      rewrite <- ?app_assoc; reflexivity.
  - cbn [writer]. rewrite !listWriter_items. unfold binaryWrite.
    rewrite <- app_assoc.
    apply writeItems_position_independent.
    intros x _. apply write_position_independent.
  - cbn [writer]. unfold mapWriter, binaryWrite. rewrite <- app_assoc.
    apply writeEntries_position_independent.
    intros kv _. split; apply write_position_independent.
  - cbn [writer]. unfold bytecodeWriter.
    rewrite (instructionSetWriter_position_independent steps
               (fun i _ x _ => write_position_independent x) b1).
    destruct (instructionSetWriter write steps _) as [o [[e|]|p]];
      cbn [fst snd]; try reflexivity.
    apply (instructionSetWriter_position_independent sources
             (fun i _ x _ => write_position_independent x)).
Qed.

(** The encoding of a non-nil value starts with the code of the type
    [getSerializerToWrite] selected for it and the value flag 0x00. *)
Lemma encode_starts_with_code v dt :
  v <> VNil -> selected v = inr dt ->
  encode v = getCodeByte dt :: valueFlagNone :: fst (writer write v []).
Proof.
  intros Hv Hs. unfold selected in Hs.
  destruct (getSerializerToWrite v) as [e|ts] eqn:G; [discriminate|].
  injection Hs as <-.
  unfold encode.
  assert (W : write v []
              = writer write v ([getCodeByte (dataType ts); valueFlagNone] ++ [])).
  { destruct v; try contradiction; cbn [write]; rewrite G; reflexivity. }
  rewrite W, (writer_position_independent v). reflexivity.
Qed.

(** [writeValue] of a value that has a serializer: the value flag, when
    the slot is nullable, and the bytes of the writer; no type code. *)
Lemma writeValue_selected v dt nullable :
  v <> VNil -> selected v = inr dt ->
  writeValue write v [] nullable
  = ((if nullable then [valueFlagNone] else []) ++ fst (writer write v []),
     snd (writer write v [])).
Proof.
  intros Hv Hs. unfold selected in Hs.
  destruct (getSerializerToWrite v) as [e|ts] eqn:G; [discriminate|].
  assert (W : writeValue write v [] nullable
              = writer write v
                  ((if nullable then [valueFlagNone] else []) ++ [])).
  { destruct v; try contradiction; cbn [writeValue]; rewrite G;
      unfold writeTypeValue, writeValueFlagNone; destruct nullable;
      reflexivity. }
  rewrite W, (writer_position_independent v). reflexivity.
Qed.

(** X10: [readValue] reads back what [writeValue] wrote under the same
    nullable flag, once the type code selected for the value stands
    before it ([writeValue] writes no type code, [readValue] asks for
    one).  For a supported non-nil value, [writeValue] succeeds and
    [readValue] yields the value (integers widened) and leaves the bytes
    that follow, with the flag set and with the flag not set.  With the
    flag set, the type code followed by what [writeValue] wrote is the
    fully-qualified encoding [write] produces. *)
Theorem readValue_reads_written_value :
  forall (v : Value) (dt : DataType) (rest : Buffer) (nullable : bool),
    supported v = true ->
    v <> VNil ->
    selected v = inr dt ->
    snd (writeValue write v [] nullable) = Wrote None
    /\ ReadValue
         (Some (getCodeByte dt :: fst (writeValue write v [] nullable) ++ rest))
         (getCodeByte dt) nullable
       = (rest, Ret (widen v) None)
    /\ getCodeByte dt :: fst (writeValue write v [] true) = encode v
    /\ ReadValue (Some (encode v ++ rest)) (getCodeByte dt) true
       = (rest, Ret (widen v) None).
Proof.
  intros v dt rest nullable Sv Hv Hs.
  destruct (supported_round_trips v Sv) as [Wv R].
  pose proof (encode_starts_with_code v dt Hv Hs) as En.
  assert (Rd : forall fuel,
             (List.length (encode v ++ rest) <= fuel)%nat ->
             reader (read fuel) (getCodeByte dt)
               (fst (writer write v []) ++ rest)
             = (rest, Ret (widen v) None)
             /\ exists ts, getSerializerToRead (getCodeByte dt) = inr ts).
  { intros fuel Hf. specialize (R (S fuel) rest ltac:(lia)).
    rewrite En in R. cbn [app read ReadByte] in R.
    destruct (byte_eqb (getCodeByte dt) (getCodeByte NullType)) eqn:N.
    - exfalso. apply Hv. apply widen_nil. revert R.
      cbn [ReadByte].
      change (negb (byte_eqb valueFlagNone Byte.x01)) with true.
      cbn. discriminate.
    - destruct (getSerializerToRead (getCodeByte dt)) as [e|ts];
        [discriminate R|].
      split; [|eexists; reflexivity].
      unfold readType, readTypeValue in R. cbn [ReadByte] in R.
      change (byte_eqb valueFlagNone valueFlagNull) with false in R.
      exact R. }
  assert (Ww : snd (writer write v []) = Wrote None).
  { specialize (Wv []). cbn [app] in Wv.
    unfold selected in Hs.
    destruct (getSerializerToWrite v) as [e|ts] eqn:G; [discriminate|].
    assert (W : write v []
                = writer write v
                    ([getCodeByte (dataType ts); valueFlagNone] ++ [])).
    { destruct v; try contradiction; cbn [write]; rewrite G; reflexivity. }
    rewrite W, (writer_position_independent v) in Wv.
    injection Wv as _ Wv. exact Wv. }
  assert (Gen : forall nullable,
             ReadValue
               (Some (getCodeByte dt
                        :: fst (writeValue write v [] nullable) ++ rest))
               (getCodeByte dt) nullable
             = (rest, Ret (widen v) None)).
  { intros nb. rewrite (writeValue_selected v dt nb Hv Hs). cbn [fst].
    unfold ReadValue, readValue. cbn [ReadByte].
    rewrite byte_eqb_refl. cbn [negb].
    match goal with
    | |- context [read ?f] =>
        destruct (Rd f) as [Rf [ts G]]
    end.
    { unfold enough. rewrite En. cbn [List.length app].
      rewrite !length_app. destruct nb; cbn [List.length app]; lia. }
    rewrite G. unfold readTypeValue.
    destruct nb; cbn [app ReadByte] in Rf |- *.
    - change (byte_eqb valueFlagNone valueFlagNull) with false.
      rewrite Rf. reflexivity.
    - rewrite Rf. reflexivity. }
  split; [|split; [|split]].
  - rewrite (writeValue_selected v dt nullable Hv Hs). exact Ww.
  - apply Gen.
  - rewrite (writeValue_selected v dt true Hv Hs), En. reflexivity.
  - specialize (Gen true).
    rewrite (writeValue_selected v dt true Hv Hs) in Gen. cbn [fst] in Gen.
    rewrite En. cbn [app] in Gen |- *. exact Gen.
Qed.

Lemma readValue_reads_written_value_witness :
  ReadValue
    (Some (Byte.x02 :: fst (writeValue write (VInteger Int 5) [] false)
             ++ [Byte.x2a]))
    Byte.x02 false
  = ([Byte.x2a], Ret (VInteger Int64 5) None)
  /\ ReadValue (Some (encode (VInteger Int 5) ++ [Byte.x2a])) Byte.x02 true
     = ([Byte.x2a], Ret (VInteger Int64 5) None).
Proof.
  split.
  - apply (proj1 (proj2 (readValue_reads_written_value (VInteger Int 5)
                           LongType [Byte.x2a] false eq_refl
                           ltac:(discriminate) eq_refl))).
  - apply (proj2 (proj2 (proj2 (readValue_reads_written_value
                                  (VInteger Int 5) LongType [Byte.x2a] true
                                  eq_refl ltac:(discriminate) eq_refl)))).
Defined.

(** ** Bytecode on the wire, and errors inside composites *)

Lemma write_writable v buffer :
  writable v -> write v buffer = (buffer ++ encode v, Wrote None).
Proof.
  intros H. rewrite <- (app_nil_r buffer) at 1.
  rewrite write_position_independent. unfold writable in H.
  rewrite H. reflexivity.
Qed.

Lemma writeItems_writable (l : list Value) :
  (forall x, In x l -> writable x) ->
  forall buffer,
    writeItems write l buffer
    = (buffer ++ List.concat (map encode l), Wrote None).
Proof.
  induction l as [|x l IH]; intros H buffer; cbn.
  - rewrite app_nil_r. reflexivity.
  - rewrite write_writable by (apply H; left; reflexivity).
    rewrite IH by (intros y Hy; apply H; right; exact Hy).
    rewrite <- app_assoc. reflexivity.
Qed.

Lemma writeInstructions_writable (l : list (instruction Value)) :
  (forall i, In i l -> forall x, In x (arguments i) -> writable x) ->
  forall buffer,
    writeInstructions write l buffer
    = (buffer ++ List.concat (map encodeInstruction l), Wrote None).
Proof.
  induction l as [|i l IH]; intros H buffer; cbn [writeInstructions map].
  - cbn. rewrite app_nil_r. reflexivity.
  - rewrite writeItems_writable by (apply H; left; reflexivity).
    rewrite IH by (intros j Hj; apply H; right; exact Hj).
    unfold stringWriter, binaryWrite, encodeInstruction. cbn [List.concat].
    rewrite <- !app_assoc. reflexivity.
Qed.

(** X11: a bytecode all of whose instruction arguments can be written is
    written without error as the Bytecode code, the value flag 0x00, the
    step instructions and then the source instructions, each set as its
    Int32 count followed by its instructions, each instruction as its
    name (Int32 byte length and bytes, no type code and no flag), its
    Int32 argument count and its arguments in fully-qualified form. *)
Theorem bytecode_wire_format :
  forall (steps sources : list (instruction Value)) (buffer : Buffer),
    (forall i, In i (steps ++ sources) ->
       forall x, In x (arguments i) -> writable x) ->
    write (VBytecode steps sources) buffer
    = (buffer ++ Byte.x15 :: Byte.x00
         :: encodeInstructions steps ++ encodeInstructions sources,
       Wrote None).
Proof.
  intros steps sources buffer H.
  cbn [write getSerializerToWrite dataType writeType writeTypeValue writer].
  unfold bytecodeWriter, instructionSetWriter, binaryWrite,
    writeValueFlagNone, getCodeBytes.
  rewrite writeInstructions_writable
    by (intros i Hi; apply H; apply in_or_app; left; exact Hi).
  rewrite writeInstructions_writable
    by (intros i Hi; apply H; apply in_or_app; right; exact Hi).
  unfold encodeInstructions. rewrite <- !app_assoc. reflexivity.
Qed.

Lemma bytecode_wire_format_witness :
  write (VBytecode [mkInstruction [Byte.x56] [VInteger Int32 1]] []) []
  = ([Byte.x15; Byte.x00;
      Byte.x00; Byte.x00; Byte.x00; Byte.x01;
      Byte.x00; Byte.x00; Byte.x00; Byte.x01; Byte.x56;
      Byte.x00; Byte.x00; Byte.x00; Byte.x01;
      Byte.x01; Byte.x00; Byte.x00; Byte.x00; Byte.x00; Byte.x01;
      Byte.x00; Byte.x00; Byte.x00; Byte.x00], Wrote None).
Proof.
  apply (bytecode_wire_format [mkInstruction [Byte.x56] [VInteger Int32 1]]
           [] []).
  intros i [<-|[]] x [<-|[]]. reflexivity.
Defined.

Lemma writeItems_first_failure (l1 : list Value) x l2 out :
  (forall y, In y l1 -> writable y) ->
  snd (write x []) = out -> out <> Wrote None ->
  forall buffer,
    writeItems write (l1 ++ x :: l2) buffer
    = (buffer ++ List.concat (map encode l1) ++ encode x, out).
Proof.
  intros H Hx Hn. induction l1 as [|y l1 IH]; intros buffer; cbn.
  - rewrite <- (app_nil_r buffer) at 1.
    rewrite write_position_independent. rewrite Hx. fold (encode x).
    destruct out as [[e|]|p]; try reflexivity. contradiction.
  - rewrite write_writable by (apply H; left; reflexivity).
    rewrite IH by (intros z Hz; apply H; right; exact Hz).
    rewrite <- !app_assoc. reflexivity.
Qed.

(** X12: the first item of a list that cannot be written ends the write
    of the list with the error (or panic) of that item: the list header,
    the items before it and the bytes the failing item had written stay
    in the buffer, and no item after it is written. *)
Theorem list_write_stops_at_first_failure :
  forall (l1 : list Value) (x : Value) (l2 : list Value) (buffer : Buffer),
    (forall y, In y l1 -> writable y) ->
    ~ writable x ->
    write (VList (l1 ++ x :: l2)) buffer
    = (buffer ++ Byte.x09 :: Byte.x00
         :: be_split 4 (Z.of_nat (List.length (l1 ++ x :: l2)))
         ++ List.concat (map encode l1) ++ encode x,
       snd (write x [])).
Proof.
  intros l1 x l2 buffer H Hx.
  cbn [write getSerializerToWrite dataType writeType writeTypeValue writer].
  rewrite listWriter_items.
  unfold binaryWrite, writeValueFlagNone, getCodeBytes.
  rewrite (writeItems_first_failure l1 x l2 (snd (write x [])) H eq_refl Hx).
  rewrite <- !app_assoc. reflexivity.
Qed.

Lemma list_write_stops_at_first_failure_witness :
  write (VList ([VNil] ++ VTraverser 1 VNil :: [VNil])) []
  = ([Byte.x09; Byte.x00; Byte.x00; Byte.x00; Byte.x00; Byte.x03;
      Byte.xfe; Byte.x01], Wrote (Some ErrUnknownSerialize)).
Proof.
  apply (list_write_stops_at_first_failure [VNil] (VTraverser 1 VNil) [VNil] []).
  - intros y [<-|[]]. reflexivity.
  - discriminate.
Defined.

(** ** ResultSet: closing, draining, capacity *)

Lemma sendAll_closed (rs : channelResultSet) (items : list Value) :
  closed rs = true ->
  sendAll rs items
  = match items with [] => Done rs | _ :: _ => Panics SendOnClosedChannel end.
Proof.
  intros Hc. destruct items as [|v items]; [reflexivity|].
  cbn [sendAll]. unfold send. rewrite Hc. reflexivity.
Qed.

Lemma Close_closed (rs : channelResultSet) : closed (Close rs) = true.
Proof. unfold Close. destruct (closed rs) eqn:C; cbn; trivial. Qed.

Lemma Close_channel (rs : channelResultSet) : channel (Close rs) = channel rs.
Proof. unfold Close. destruct (closed rs); reflexivity. Qed.

(** X13: [Close] is idempotent and keeps the queued results, and a closed
    result set is final.  [IsEmpty], finding [channelMux] free, answers
    in its four statements whether the queue is empty, without waiting
    for a signal and leaving the shared fields as they are; a further
    [Close] returns at its first statement, whoever holds the mutexes;
    [All] returns the queued results in order and [one] never parks;
    and [addResult] adds nothing: it panics on the closed channel as
    soon as it has a result to send (on a nil result and on an array it
    panics before that), and only with an empty slice it returns. *)
Theorem closed_result_set_is_final :
  forall (rs : channelResultSet),
    Close (Close rs) = Close rs
    /\ channel (Close rs) = channel rs
    /\ (forall (waitSignalMux : bool) (waitSignal : option nat) (made : nat),
          Goroutines.alone 4
            (Goroutines.mkShared (Close rs) false waitSignalMux waitSignal
               made)
            Goroutines.IsEmpty
          = (Goroutines.mkShared (Close rs) false waitSignalMux waitSignal
               made,
             Goroutines.Returned
               (Goroutines.ReturnedBool
                  (List.length (channel rs) =? 0)%nat)))
    /\ (forall (channelMux waitSignalMux : bool) (waitSignal : option nat)
               (made : nat),
          Goroutines.alone 1
            (Goroutines.mkShared (Close rs) channelMux waitSignalMux
               waitSignal made)
            Goroutines.Close
          = (Goroutines.mkShared (Close rs) channelMux waitSignalMux
               waitSignal made,
             Goroutines.Returned Goroutines.ReturnedNothing))
    /\ All (Close rs) = Done (channel rs, withChannel (Close rs) [])
    /\ (forall x, one (Close rs) <> Blocks x)
    /\ (forall r,
          addResult (Close rs) r
          = match result r with
            | VNil => Panics NilDereference
            | VUUID _ => Panics TypeAssertion
            | VList [] => Done (Close rs)
            | _ => Panics SendOnClosedChannel
            end).
Proof.
  intros rs.
  pose proof (Close_closed rs) as C. pose proof (Close_channel rs) as Q.
  split; [|split; [|split; [|split; [|split; [|split]]]]].
  - unfold Close at 1. rewrite C. reflexivity.
  - exact Q.
  - intros wm ws m.
    destruct (IsEmpty_alone (Goroutines.mkShared (Close rs) false wm ws m)
                eq_refl) as [E _].
    cbn [Goroutines.resultSet] in E. rewrite Q in E. apply E.
    rewrite C. apply andb_false_r.
  - intros cm wm ws m. unfold Goroutines.Close.
    cbn [Goroutines.alone Goroutines.step Goroutines.resultSet].
    rewrite C. reflexivity.
  - unfold All. rewrite C, Q. reflexivity.
  - intros x. unfold one. rewrite C.
    destruct (channel (Close rs)); discriminate.
  - intros r. unfold addResult, GetTypeKind.
    destruct (result r) as [ | b | t z | z | bits | bits | s | u | l | m
                           | steps sources | bulk v | bulk v ];
      try reflexivity; try (unfold send; rewrite C; reflexivity).
    rewrite sendAll_closed by exact C.
    destruct l; reflexivity.
Qed.

Lemma closed_result_set_is_final_witness :
  Close (Close (newChannelResultSetCapacity [] 2))
  = Close (newChannelResultSetCapacity [] 2)
  /\ addResult (Close (newChannelResultSetCapacity [] 2))
       (mkResult (VInteger Int32 1))
     = Panics SendOnClosedChannel.
Proof.
  split.
  - apply (proj1 (closed_result_set_is_final
                    (newChannelResultSetCapacity [] 2))).
  - apply (proj2 (proj2 (proj2 (proj2 (proj2 (proj2
             (closed_result_set_is_final
                (newChannelResultSetCapacity [] 2)))))))
           (mkResult (VInteger Int32 1))).
Defined.

Lemma sendAll_outcome (items : list Value) :
  forall rs : channelResultSet,
    closed rs = false ->
    within_capacity rs ->
    sendAll rs items
    = (if (List.length items <=? channelSize rs - List.length (channel rs))%nat
       then Done (enqueued rs (map unwrap items))
       else Blocks (enqueued rs
                      (map unwrap
                         (firstn (channelSize rs - List.length (channel rs))
                            items)))).
Proof.
  unfold within_capacity.
  induction items as [|v items IH]; intros rs Hc Hw.
  - cbn [sendAll List.length map Nat.leb]. rewrite enqueued_nil. reflexivity.
  - cbn [sendAll List.length].
    destruct (Nat.leb_spec (channelSize rs) (List.length (channel rs)))
      as [F|F].
    + unfold send. rewrite Hc.
      destruct (Nat.leb_spec (channelSize rs) (List.length (channel rs)));
        [|lia].
      replace (channelSize rs - List.length (channel rs))%nat with O by lia.
      cbn [Nat.leb firstn map]. rewrite enqueued_nil. reflexivity.
    + rewrite send_room by (trivial; lia).
      set (rs1 := enqueued rs [unwrap v]).
      assert (L1 : List.length (channel rs1) = S (List.length (channel rs)))
        by (unfold rs1; cbn; rewrite length_app; cbn; lia).
      assert (S1 : channelSize rs1 = channelSize rs) by reflexivity.
      rewrite IH by (trivial; lia). rewrite L1, S1.
      destruct (channelSize rs - List.length (channel rs))%nat as [|k] eqn:K;
        [lia|].
      replace (channelSize rs - S (List.length (channel rs)))%nat with k
        by lia.
      cbn [Nat.leb firstn map]. unfold rs1. rewrite !enqueued_app.
      reflexivity.
Qed.

(** X14: [addResult] never fills the channel beyond its capacity.  On an
    open result set within its capacity, a list that fits in the room
    left is enqueued whole, item by item and in order; a longer list is
    enqueued up to the capacity and the call then parks on the full
    channel; either way the result set is left within its capacity. *)
Theorem addResult_respects_capacity :
  forall (rs : channelResultSet) (items : list Value),
    closed rs = false ->
    within_capacity rs ->
    addResult rs (mkResult (VList items))
    = (if (List.length items <=? channelSize rs - List.length (channel rs))%nat
       then Done (enqueued rs (map unwrap items))
       else Blocks (enqueued rs
                      (map unwrap
                         (firstn (channelSize rs - List.length (channel rs))
                            items))))
    /\ (forall out,
           left_by (addResult rs (mkResult (VList items))) = Some out ->
           within_capacity out /\ channelSize out = channelSize rs).
Proof.
  intros rs items Hc Hw.
  assert (E : addResult rs (mkResult (VList items)) = sendAll rs items)
    by reflexivity.
  rewrite E, (sendAll_outcome items rs Hc Hw). split; [reflexivity|].
  unfold within_capacity in *. intros out.
  destruct (Nat.leb_spec (List.length items)
              (channelSize rs - List.length (channel rs))) as [F|F];
    cbn [left_by]; intros [= <-]; cbn [enqueued channel channelSize];
    rewrite length_app, length_map, ?length_firstn; split; lia.
Qed.

Lemma addResult_respects_capacity_witness :
  addResult (newChannelResultSetCapacity [] 2)
    (mkResult (VList [VInteger Int32 1; VInteger Int32 2; VInteger Int32 3]))
  = Blocks (enqueued (newChannelResultSetCapacity [] 2)
              [mkResult (VInteger Int32 1); mkResult (VInteger Int32 2)]).
Proof.
  apply (proj1 (addResult_respects_capacity (newChannelResultSetCapacity [] 2)
                  [VInteger Int32 1; VInteger Int32 2; VInteger Int32 3]
                  eq_refl ltac:(unfold within_capacity; cbn; lia))).
Defined.

(** X15: results leave a result set in the order they entered it.  After
    a list was added to an open result set with room for it and the
    result set was closed, [All] returns the results that were queued
    before followed by the items of the list (each [*Traverser] replaced
    by its value), and [one] returns the first of them and leaves the
    others queued. *)
Theorem results_are_first_in_first_out :
  forall (rs : channelResultSet) (items : list Value),
    closed rs = false ->
    (List.length (channel rs) + List.length items <= channelSize rs)%nat ->
    exists rs',
      addResult rs (mkResult (VList items)) = Done rs'
      /\ All (Close rs')
         = Done (channel rs ++ map unwrap items, withChannel (Close rs') [])
      /\ (forall r q, channel rs ++ map unwrap items = r :: q ->
            one rs' = Done (Some r, withChannel rs' q)
            /\ one (Close rs') = Done (Some r, withChannel (Close rs') q)).
Proof.
  intros rs items Hc Hr.
  exists (enqueued rs (map unwrap items)). split; [|split].
  - change (addResult rs (mkResult (VList items))) with (sendAll rs items).
    apply sendAll_room; assumption.
  - unfold All. rewrite Close_closed, Close_channel. reflexivity.
  - intros r q E. unfold one. rewrite Close_channel.
    cbn [enqueued channel]. rewrite E. split; reflexivity.
Qed.

Lemma results_are_first_in_first_out_witness :
  exists rs',
    addResult rs_item (mkResult (VList [VTraverserPtr 2 (VInteger Int32 8)]))
    = Done rs'
    /\ All (Close rs')
       = Done (channel rs_item ++ map unwrap [VTraverserPtr 2 (VInteger Int32 8)],
               withChannel (Close rs') [])
    /\ (forall r q,
          channel rs_item ++ map unwrap [VTraverserPtr 2 (VInteger Int32 8)]
          = r :: q ->
          one rs' = Done (Some r, withChannel rs' q)
          /\ one (Close rs') = Done (Some r, withChannel (Close rs') q)).
Proof.
  apply (results_are_first_in_first_out rs_item
           [VTraverserPtr 2 (VInteger Int32 8)] eq_refl).
  apply Nat.leb_le. reflexivity.
Defined.

(** ** SimpleSet *)

Section SimpleSetFacts.
Variable T : Type.
Variable eqb : T -> T -> bool.
Hypothesis eqb_refl : forall x, eqb x x = true.
Hypothesis eqb_sym : forall x y, eqb x y = eqb y x.
Hypothesis eqb_trans : forall x y z,
  eqb x y = true -> eqb y z = true -> eqb x z = true.

Abbreviation Contains := (SimpleSet.Contains T eqb).
Abbreviation Add := (SimpleSet.Add T eqb).
Abbreviation Remove := (SimpleSet.Remove T eqb).
Abbreviation indexOf := (SimpleSet.indexOf T eqb).
Abbreviation NewSimpleSet := (SimpleSet.NewSimpleSet T eqb).
Abbreviation distinct := (SimpleSet.distinct T eqb).

Lemma Contains_existsb s x : Contains s x = existsb (eqb x) s.
Proof.
  induction s as [|e s IH]; cbn; [reflexivity|].
  rewrite IH. destruct (eqb x e); reflexivity.
Qed.

Lemma Contains_app s t x : Contains (s ++ t) x = Contains s x || Contains t x.
Proof. rewrite !Contains_existsb. apply existsb_app. Qed.

Lemma Contains_equal s x y :
  eqb x y = true -> Contains s x = Contains s y.
Proof.
  intros E. induction s as [|e s IH]; cbn; [reflexivity|].
  rewrite IH. replace (eqb x e) with (eqb y e); [reflexivity|].
  destruct (eqb y e) eqn:A, (eqb x e) eqn:B; trivial.
  - rewrite <- B. symmetry. apply (eqb_trans x y e); assumption.
  - rewrite <- A. apply (eqb_trans y x e); [rewrite eqb_sym|]; assumption.
Qed.

Lemma distinct_app s t :
  distinct (s ++ t)
  = distinct s && distinct t && forallb (fun y => negb (Contains s y)) t.
Proof.
  induction s as [|x s IH]; cbn.
  - assert (E : forallb (fun _ : T => true) t = true)
      by (induction t; cbn; trivial).
    rewrite E. destruct (SimpleSet.distinct T eqb t); reflexivity.
  - rewrite IH, forallb_app.
    assert (E : forallb (fun y => negb (if eqb y x then true else Contains s y)) t
                = forallb (fun y => negb (eqb y x)) t
                  && forallb (fun y => negb (Contains s y)) t).
    { clear. induction t as [|y t IHt]; cbn; [reflexivity|].
      rewrite IHt.
      destruct (eqb y x), (Contains s y),
        (forallb (fun y0 => negb (eqb y0 x)) t),
        (forallb (fun y0 => negb (Contains s y0)) t); reflexivity. }
    rewrite E.
    destruct (forallb (fun y => negb (eqb y x)) s), (distinct s),
      (distinct t), (forallb (fun y => negb (eqb y x)) t),
      (forallb (fun y => negb (Contains s y)) t); reflexivity.
Qed.

Lemma Add_Contains s v x :
  Contains (Add s v) x = Contains s x || eqb x v.
Proof.
  unfold SimpleSet.Add. destruct (Contains s v) eqn:C; cbn [negb].
  - destruct (eqb x v) eqn:E; [|rewrite orb_false_r; reflexivity].
    rewrite (Contains_equal s x v E), C. reflexivity.
  - rewrite Contains_app. cbn. destruct (eqb x v); reflexivity.
Qed.

Lemma Add_distinct s v : distinct s = true -> distinct (Add s v) = true.
Proof.
  intros D. unfold SimpleSet.Add. destruct (Contains s v) eqn:C; cbn [negb];
    [exact D|].
  rewrite distinct_app, D. cbn. rewrite C. reflexivity.
Qed.

Lemma fold_Add args : forall s,
  distinct s = true ->
  distinct (fold_left Add args s) = true
  /\ forall x, Contains (fold_left Add args s) x
               = Contains s x || existsb (eqb x) args.
Proof.
  induction args as [|a args IH]; intros s D; cbn [fold_left existsb].
  - split; [exact D | intros x; rewrite orb_false_r; reflexivity].
  - destruct (IH (Add s a) (Add_distinct s a D)) as [D' C']. split; [exact D'|].
    intros x. rewrite C', Add_Contains, orb_assoc. reflexivity.
Qed.

Lemma fold_Add_distinct args : forall s,
  distinct (s ++ args) = true -> fold_left Add args s = s ++ args.
Proof.
  induction args as [|a args IH]; intros s D; cbn [fold_left].
  - rewrite app_nil_r. reflexivity.
  - assert (C : Contains s a = false).
    { rewrite distinct_app in D. cbn in D.
      destruct (Contains s a); [|reflexivity].
      rewrite !andb_false_r in D. discriminate D. }
    unfold SimpleSet.Add at 2. rewrite C. cbn [negb].
    rewrite IH; rewrite <- app_assoc; [reflexivity | exact D].
Qed.

(** X16: [NewSimpleSet] yields a slice without duplicates under [==]
    that contains a value exactly when the value equals one of the
    arguments; arguments that are already pairwise different are kept as
    they are, in their order. *)
Theorem NewSimpleSet_has_no_duplicates :
  forall args : list T,
    distinct (NewSimpleSet args) = true
    /\ (forall x, Contains (NewSimpleSet args) x = existsb (eqb x) args)
    /\ (distinct args = true -> NewSimpleSet args = args).
Proof.
  intros args. unfold SimpleSet.NewSimpleSet.
  destruct (fold_Add args [] eq_refl) as [D C].
  split; [exact D | split; [exact C|]].
  intros Da. apply (fold_Add_distinct args []). exact Da.
Qed.

(** X17: after [Add] the value is contained, nothing else changes in what
    the set contains, a set without duplicates stays without duplicates,
    and adding a value twice is adding it once. *)
Theorem Add_is_idempotent :
  forall (s : list T) (v : T),
    Contains (Add s v) v = true
    /\ (forall x, Contains (Add s v) x = Contains s x || eqb x v)
    /\ Add (Add s v) v = Add s v
    /\ (distinct s = true -> distinct (Add s v) = true).
Proof.
  intros s v.
  assert (C : Contains (Add s v) v = true)
    by (rewrite Add_Contains, eqb_refl; apply orb_true_r).
  split; [exact C | split; [apply Add_Contains | split]].
  - unfold SimpleSet.Add at 1. rewrite C. reflexivity.
  - apply Add_distinct.
Qed.

Lemma indexOf_None s v : indexOf s v = None <-> Contains s v = false.
Proof.
  induction s as [|e s IH]; cbn; [tauto|].
  destruct (eqb v e); [split; discriminate|].
  destruct (indexOf s v); cbn; [split; [discriminate|] | tauto].
  intros H. apply IH in H. discriminate.
Qed.

Lemma indexOf_split s v : forall i,
  indexOf s v = Some i ->
  exists a o b, s = a ++ o :: b /\ List.length a = i
                /\ Contains a v = false /\ eqb v o = true.
Proof.
  induction s as [|e s IH]; intros i; cbn; [discriminate|].
  destruct (eqb v e) eqn:E.
  - intros [= <-]. exists [], e, s. auto.
  - destruct (indexOf s v) as [j|]; cbn; [|discriminate].
    intros [= <-]. destruct (IH j eq_refl) as (a & o & b & -> & L & C & Eo).
    exists (e :: a), o, b. cbn. rewrite E, L. auto.
Qed.

Lemma indexOf_found a o b v :
  Contains a v = false -> eqb v o = true ->
  indexOf (a ++ o :: b) v = Some (List.length a).
Proof.
  intros C E. induction a as [|e a IH]; cbn in *.
  - rewrite E. reflexivity.
  - destruct (eqb v e); [discriminate|]. rewrite IH by exact C. reflexivity.
Qed.

(** [Remove] spelled out: the objects before the first match, then the
    last object, then the objects between the match and the last one. *)
Lemma Remove_split a o b v :
  Contains a v = false -> eqb v o = true ->
  Remove (a ++ o :: b) v
  = a ++ match rev b with [] => [] | l :: rb => l :: rev rb end.
Proof.
  intros C E. unfold SimpleSet.Remove.
  rewrite (indexOf_found a o b v C E).
  rewrite rev_app_distr. cbn [rev]. rewrite <- app_assoc. cbn [app].
  rewrite firstn_app, firstn_all, Nat.sub_diag. cbn [firstn].
  rewrite app_nil_r.
  replace (skipn (S (List.length a)) (a ++ o :: b)) with b.
  2:{ rewrite skipn_app, skipn_all2 by lia.
      replace (S (List.length a) - List.length a)%nat with 1%nat by lia.
      reflexivity. }
  destruct (rev b) as [|l rb] eqn:R.
  - apply (f_equal (@rev T)) in R. rewrite rev_involutive in R. subst b.
    cbn [app rev]. change (a ++ [o]) with (a ++ [o]).
    rewrite removelast_last. rewrite app_nil_r. reflexivity.
  - apply (f_equal (@rev T)) in R. rewrite rev_involutive in R. subst b.
    cbn [rev app].
    replace (a ++ l :: rev rb ++ [l]) with ((a ++ l :: rev rb) ++ [l])
      by (rewrite <- app_assoc; reflexivity).
    apply removelast_last.
Qed.

Lemma Remove_absent s v : Contains s v = false -> Remove s v = s.
Proof.
  intros C. unfold SimpleSet.Remove.
  apply indexOf_None in C. rewrite C. reflexivity.
Qed.

Lemma Contains_rotated b x :
  Contains (match rev b with [] => [] | l :: rb => l :: rev rb end) x
  = Contains b x.
Proof.
  destruct (rev b) as [|l rb] eqn:R;
    apply (f_equal (@rev T)) in R; rewrite rev_involutive in R; subst b.
  - reflexivity.
  - cbn [rev]. rewrite Contains_app. cbn.
    destruct (eqb x l), (Contains (rev rb) x); reflexivity.
Qed.

Lemma In_rotated (b : list T) (y : T) :
  In y (match rev b with [] => [] | l :: rb => l :: rev rb end) -> In y b.
Proof.
  destruct (rev b) as [|l rb] eqn:R;
    apply (f_equal (@rev T)) in R; rewrite rev_involutive in R; subst b.
  - trivial.
  - cbn [rev]. rewrite in_app_iff. cbn. tauto.
Qed.

Lemma distinct_rotated b :
  distinct b = true ->
  distinct (match rev b with [] => [] | l :: rb => l :: rev rb end) = true.
Proof.
  destruct (rev b) as [|l rb] eqn:R;
    apply (f_equal (@rev T)) in R; rewrite rev_involutive in R; subst b.
  - trivial.
  - cbn [rev]. rewrite distinct_app. cbn.
    rewrite !andb_true_r. intros H.
    apply andb_prop in H. destruct H as [D H]. rewrite D, andb_true_r.
    apply negb_true_iff in H.
    apply forallb_forall. intros y Hy. apply negb_true_iff.
    destruct (eqb y l) eqn:E; [|reflexivity].
    rewrite Contains_existsb in H.
    rewrite <- H. symmetry. apply existsb_exists. exists y.
    split; [exact Hy | rewrite eqb_sym; exact E].
Qed.

(** X18: on a set without duplicates, [Remove] takes the value out: the
    value is no longer contained, every other value is contained as
    before, the slice is shorter by one when the value was contained and
    unchanged otherwise, and it is still without duplicates (the order of
    the objects is not kept: the last one fills the gap).  This asks of
    [==] that it is symmetric and transitive, not that it is reflexive:
    a NaN is never contained and removing it changes nothing. *)
Theorem Remove_takes_the_value_out :
  forall (s : list T) (v : T),
    distinct s = true ->
    Contains (Remove s v) v = false
    /\ (forall x, Contains (Remove s v) x = Contains s x && negb (eqb x v))
    /\ List.length (Remove s v)
       = (List.length s - (if Contains s v then 1 else 0))%nat
    /\ distinct (Remove s v) = true
    /\ (Contains s v = false -> Remove s v = s).
Proof.
  intros s v D.
  assert (Hx : forall x,
             Contains (Remove s v) x = Contains s x && negb (eqb x v)).
  { intros x. destruct (indexOf s v) as [i|] eqn:I.
    - destruct (indexOf_split s v i I) as (a & o & b & -> & _ & Ca & Eo).
      rewrite Remove_split by assumption.
      rewrite !Contains_app, Contains_rotated. cbn [SimpleSet.Contains].
      rewrite distinct_app in D. cbn in D.
      apply andb_prop in D. destruct D as [D Dc].
      apply andb_prop in D. destruct D as [_ D].
      apply andb_prop in D. destruct D as [Db _].
      destruct (eqb x v) eqn:Exv; cbn [negb].
      + rewrite andb_false_r.
        rewrite (Contains_equal a x v Exv), Ca. cbn [orb].
        destruct (Contains b x) eqn:Cb; [|reflexivity].
        rewrite Contains_existsb in Cb. apply existsb_exists in Cb.
        destruct Cb as (y & Hy & Exy).
        pose proof (forallb_In _ b y Db Hy) as N. cbn in N.
        apply negb_true_iff in N. rewrite <- N. symmetry.
        rewrite eqb_sym. apply (eqb_trans o v y).
        * rewrite eqb_sym. exact Eo.
        * apply (eqb_trans v x y); [rewrite eqb_sym|]; assumption.
      + rewrite andb_true_r.
        replace (eqb x o) with false; [reflexivity|].
        symmetry. destruct (eqb x o) eqn:Exo; [|reflexivity].
        rewrite <- Exv. symmetry. apply (eqb_trans x o v); [exact Exo|].
        rewrite eqb_sym. exact Eo.
    - apply indexOf_None in I. rewrite (Remove_absent s v I).
      destruct (eqb x v) eqn:Exv; cbn [negb];
        [|rewrite andb_true_r; reflexivity].
      rewrite andb_false_r, (Contains_equal s x v Exv). exact I. }
  split; [|split; [exact Hx | split; [|split]]].
  - rewrite Hx. destruct (Contains s v) eqn:C; [|reflexivity].
    rewrite Contains_existsb in C. apply existsb_exists in C.
    destruct C as (y & _ & E).
    rewrite (eqb_trans v y v E) by (rewrite eqb_sym; exact E).
    reflexivity.
  - destruct (indexOf s v) as [i|] eqn:I.
    + destruct (indexOf_split s v i I) as (a & o & b & -> & _ & Ca & Eo).
      rewrite Remove_split by assumption.
      rewrite Contains_app, Ca. cbn. rewrite Eo.
      rewrite !length_app. cbn [List.length].
      destruct (rev b) as [|l rb] eqn:R;
        apply (f_equal (@rev T)) in R; rewrite rev_involutive in R; subst b;
        cbn [rev List.length]; rewrite ?length_app; cbn [List.length]; lia.
    + apply indexOf_None in I. rewrite (Remove_absent s v I), I. lia.
  - destruct (indexOf s v) as [i|] eqn:I.
    + destruct (indexOf_split s v i I) as (a & o & b & -> & _ & Ca & Eo).
      rewrite Remove_split by assumption.
      rewrite distinct_app in D |- *. cbn in D.
      apply andb_prop in D. destruct D as [D Dc].
      apply andb_prop in D. destruct D as [Da D].
      apply andb_prop in D. destruct D as [_ Db].
      cbn in Dc. apply andb_prop in Dc. destruct Dc as [_ Dc].
      apply andb_true_intro. split;
        [apply andb_true_intro; split;
           [exact Da | exact (distinct_rotated b Db)]|].
      apply forallb_forall. intros y Hy.
      rewrite forallb_forall in Dc. apply Dc, In_rotated, Hy.
    + apply indexOf_None in I. rewrite (Remove_absent s v I). exact D.
  - apply Remove_absent.
Qed.

(** X19: removing a value right after adding it to a set that did not
    contain it gives the set back, object for object, when the value
    equals itself; a value that does not equal itself (a NaN) is added
    and then not found by [Remove], so that it stays in the set. *)
Theorem Remove_undoes_Add :
  forall (s : list T) (v : T),
    Contains s v = false ->
    (eqb v v = true -> Remove (Add s v) v = s)
    /\ (eqb v v = false -> Remove (Add s v) v = s ++ [v]).
Proof.
  intros s v C. unfold SimpleSet.Add. rewrite C. cbn [negb]. split; intros E.
  - rewrite (Remove_split s v [] v C E). cbn. apply app_nil_r.
  - apply Remove_absent. rewrite Contains_app, C. cbn. rewrite E. reflexivity.
Qed.
End SimpleSetFacts.

Lemma Z_eqb_trans (x y z : Z) :
  (x =? y) = true -> (y =? z) = true -> (x =? z) = true.
Proof. rewrite !Z.eqb_eq. congruence. Qed.

Lemma NewSimpleSet_has_no_duplicates_witness :
  SimpleSet.distinct Z Z.eqb (SimpleSet.NewSimpleSet Z Z.eqb [1; 2; 1; 3; 2])
  = true
  /\ SimpleSet.NewSimpleSet Z Z.eqb [3; 1; 2] = [3; 1; 2].
Proof.
  split.
  - apply (proj1 (NewSimpleSet_has_no_duplicates Z Z.eqb Z.eqb_sym Z_eqb_trans
                    [1; 2; 1; 3; 2])).
  - apply (proj2 (proj2 (NewSimpleSet_has_no_duplicates Z Z.eqb Z.eqb_sym
                           Z_eqb_trans [3; 1; 2]))).
    reflexivity.
Defined.

Lemma Add_is_idempotent_witness :
  SimpleSet.Add Z Z.eqb (SimpleSet.Add Z Z.eqb [1; 2] 3) 3
  = SimpleSet.Add Z Z.eqb [1; 2] 3.
Proof.
  apply (proj1 (proj2 (proj2 (Add_is_idempotent Z Z.eqb Z.eqb_refl Z.eqb_sym
                                Z_eqb_trans [1; 2] 3)))).
Defined.

Lemma Remove_takes_the_value_out_witness :
  SimpleSet.Contains Z Z.eqb (SimpleSet.Remove Z Z.eqb [1; 2; 3; 4] 2) 2
  = false
  /\ List.length (SimpleSet.Remove Z Z.eqb [1; 2; 3; 4] 2) = 3%nat.
Proof.
  split.
  - apply (proj1 (Remove_takes_the_value_out Z Z.eqb Z.eqb_sym
                    Z_eqb_trans [1; 2; 3; 4] 2 eq_refl)).
  - apply (proj1 (proj2 (proj2 (Remove_takes_the_value_out Z Z.eqb
                                  Z.eqb_sym Z_eqb_trans [1; 2; 3; 4] 2
                                  eq_refl)))).
Defined.

Lemma Remove_undoes_Add_witness :
  SimpleSet.Remove Z Z.eqb (SimpleSet.Add Z Z.eqb [1; 2] 3) 3 = [1; 2]
  /\ SimpleSet.Remove Z (float_eqb 11 52)
       (SimpleSet.Add Z (float_eqb 11 52) [0] 0x7ff8000000000000)
       0x7ff8000000000000
     = [0; 0x7ff8000000000000].
Proof.
  split.
  - apply (proj1 (Remove_undoes_Add Z Z.eqb [1; 2] 3 eq_refl)). reflexivity.
  - apply (proj2 (Remove_undoes_Add Z (float_eqb 11 52) [0]
                    0x7ff8000000000000 eq_refl)).
    reflexivity.
Defined.

(** ** Path *)

Section PathFacts.
Import Path.

Lemma find_app {A} (f : A -> bool) (a b : list A) :
  find f (a ++ b)
  = match find f a with Some x => Some x | None => find f b end.
Proof.
  induction a as [|x a IH]; cbn; [reflexivity|].
  destruct (f x); [reflexivity | exact IH].
Qed.

Lemma skipn_cons_nth {A} (l : list A) : forall i o os,
  skipn i l = o :: os -> nth_error l i = Some o /\ skipn (S i) l = os.
Proof.
  induction l as [|x l IH]; intros i o os H.
  - destruct i; discriminate H.
  - destruct i as [|i].
    + cbn in H. injection H as -> ->. split; reflexivity.
    + cbn [skipn] in H. apply IH in H. exact H.
Qed.

Lemma eachLabel_spec p key i o :
  nth_error (objects p) i = Some o ->
  forall labelSet object objectList,
    eachLabel p key i labelSet object objectList
    = match find (fun label => negb (isString label)) labelSet with
      | Some label => Exit (refused label)
      | None =>
          let st := fold_left push
                      (map (fun _ => o) (filter (labelled key) labelSet))
                      (object, objectList) in
          Next (fst st) (snd st)
      end.
Proof.
  intros Hi. unfold refused.
  induction labelSet as [|label rest IH]; intros object objectList;
    [reflexivity|].
  destruct label; try reflexivity.
  cbn [eachLabel find isString negb filter labelled].
  destruct (bytes_eqb s key); [|apply IH].
  rewrite Hi. cbn [map fold_left push].
  destruct (isNil object); [apply IH|].
  destruct objectList; apply IH.
Qed.

Lemma eachLabelSet_spec p key : forall sets i os object objectList,
  skipn i (objects p) = os ->
  List.length os = List.length sets ->
  eachLabelSet p key i sets object objectList
  = match find (fun label => negb (isString label)) (List.concat sets) with
    | Some label => Exit (refused label)
    | None =>
        let st :=
          fold_left push
            (List.concat
               (map (fun '(labelSet, o) =>
                       map (fun _ => o) (filter (labelled key) labelSet))
                  (combine sets os)))
            (object, objectList) in
        Next (fst st) (snd st)
    end.
Proof.
  induction sets as [|labelSet rest IH]; intros i os object objectList Hs Hl;
    [reflexivity|].
  destruct os as [|o os]; [discriminate Hl|].
  destruct (skipn_cons_nth _ _ _ _ Hs) as [Hn Hs'].
  cbn [eachLabelSet List.concat combine map].
  rewrite (eachLabel_spec p key i o Hn), find_app.
  destruct (find _ labelSet) as [label|]; [reflexivity|].
  cbv zeta. rewrite fold_left_app.
  destruct (fold_left push _ (object, objectList)) as [object' objectList'].
  cbn [fst snd]. apply (IH (S i) os); [exact Hs' | ].
  cbn in Hl. congruence.
Qed.

Lemma push_reachable st o : reachable st -> reachable (push st o).
Proof.
  destruct st as [object [l|]]; unfold reachable, push; cbn [fst snd].
  - intros [N L]. rewrite N. cbn [fst snd]. split; [exact N|].
    rewrite length_app. cbn. lia.
  - intros _. destruct (isNil object) eqn:N; cbn [fst snd]; [trivial|].
    split; [exact N | cbn; lia].
Qed.

Lemma fold_push_reachable ms : forall st,
  reachable st -> reachable (fold_left push ms st).
Proof.
  induction ms as [|o ms IH]; intros st R; [exact R|].
  cbn [fold_left]. apply IH, push_reachable, R.
Qed.

Lemma dropNil_not_nil o l : isNil o = false -> dropNil (o :: l) = o :: l.
Proof. destruct o; [discriminate | reflexivity..]. Qed.

Lemma gathered_push st o :
  reachable st ->
  gathered (push st o)
  = match gathered st with
    | [] => dropNil [o]
    | _ => gathered st ++ [o]
    end.
Proof.
  destruct st as [object [l|]]; unfold reachable, push, gathered;
    cbn [fst snd].
  - intros [N L]. rewrite N. cbn [fst snd].
    destruct l; [cbn in L; lia | reflexivity].
  - intros _. destruct (isNil object) eqn:N; cbn [fst snd].
    + destruct (isNil o) eqn:No.
      * destruct o; try discriminate No. reflexivity.
      * rewrite (dropNil_not_nil o [] No). reflexivity.
    + reflexivity.
Qed.

Lemma gathered_fold ms : forall st,
  reachable st ->
  gathered (fold_left push ms st)
  = match gathered st with
    | [] => dropNil ms
    | _ => gathered st ++ ms
    end.
Proof.
  induction ms as [|o ms IH]; intros st R; cbn [fold_left].
  - destruct (gathered st); [reflexivity | rewrite app_nil_r; reflexivity].
  - rewrite (IH _ (push_reachable st o R)), (gathered_push st o R).
    destruct (gathered st) as [|x g].
    + destruct (isNil o) eqn:No.
      * destruct o; try discriminate No. reflexivity.
      * rewrite (dropNil_not_nil o [] No), (dropNil_not_nil o ms No).
        reflexivity.
    + cbn [app]. rewrite <- app_assoc. reflexivity.
Qed.

Lemma GetPathObject_loops p key :
  List.length (objects p) = List.length (labels p) ->
  GetPathObject p key
  = match firstNonString p with
    | Some label => refused label
    | None =>
        match dropNil (matched p key) with
        | [] => Returned VNil (Some (ErrNoLabel key))
        | [o] => Returned o None
        | l => Returned (VList l) None
        end
    end.
Proof.
  intros L. unfold GetPathObject, firstNonString.
  rewrite L, Nat.eqb_refl. cbn [negb].
  rewrite (eachLabelSet_spec p key (labels p) 0 (objects p) VNil None
             eq_refl L).
  destruct (find _ _) as [label|]; [reflexivity|].
  cbv zeta. fold (matched p key).
  pose proof (fold_push_reachable (matched p key) (VNil, None) I) as R.
  pose proof (gathered_fold (matched p key) (VNil, None) I) as G.
  cbn [gathered fst snd isNil] in G.
  destruct (fold_left push (matched p key) (VNil, None))
    as [object [l|]]; unfold reachable, gathered in R, G; cbn [fst snd] in *.
  - rewrite <- G. destruct R as [_ R].
    destruct l as [|a [|b l]]; cbn in R; try lia. reflexivity.
  - rewrite <- G. destruct (isNil object); reflexivity.
Qed.

(** X20: on a path with as many labels as objects whose labels are all
    strings, [GetPathObject] looks at the objects whose label set holds
    the key, in the order of the path, without the nil objects at their
    head: none is the error that the path has no such label, one is
    returned as it is, and several are returned as one slice. *)
Theorem GetPathObject_returns_labelled_objects :
  forall (p : Path) (key : list byte),
    List.length (objects p) = List.length (labels p) ->
    firstNonString p = None ->
    GetPathObject p key
    = match dropNil (matched p key) with
      | [] => Returned VNil (Some (ErrNoLabel key))
      | [o] => Returned o None
      | l => Returned (VList l) None
      end.
Proof.
  intros p key L S. rewrite (GetPathObject_loops p key L), S. reflexivity.
Qed.

Lemma GetPathObject_returns_labelled_objects_witness :
  GetPathObject
    (mkPath [[VString [Byte.x61]]; [VString [Byte.x62]];
             [VString [Byte.x61]; VString [Byte.x63]]; [VString [Byte.x61]]]
            [VNil; VInteger Int32 1; VInteger Int32 2; VNil])
    [Byte.x61]
  = Returned (VList [VInteger Int32 2; VNil]) None.
Proof.
  apply (GetPathObject_returns_labelled_objects
           (mkPath [[VString [Byte.x61]]; [VString [Byte.x62]];
                    [VString [Byte.x61]; VString [Byte.x63]];
                    [VString [Byte.x61]]]
                   [VNil; VInteger Int32 1; VInteger Int32 2; VNil])
           [Byte.x61]); reflexivity.
Defined.

(** X21: a label that is not a string makes the whole lookup fail,
    whatever the key is and whatever was found before it: with the
    error that the labels contain a non string type, or, when that label
    is nil, with a panic.  A path whose labels and objects differ in
    number is refused before any label is looked at. *)
Theorem GetPathObject_refuses_non_string_label :
  forall (p : Path) (key : list byte),
    (List.length (objects p) <> List.length (labels p) ->
     GetPathObject p key = Returned VNil (Some ErrUnequalLengths))
    /\ (forall label,
          List.length (objects p) = List.length (labels p) ->
          firstNonString p = Some label ->
          GetPathObject p key
          = if isNil label then Panicking NilDereference
            else Returned VNil (Some ErrNonStringLabel)).
Proof.
  intros p key. split.
  - intros N. unfold GetPathObject.
    apply Nat.eqb_neq in N. rewrite N. reflexivity.
  - intros label L S. rewrite (GetPathObject_loops p key L), S. reflexivity.
Qed.

Lemma GetPathObject_refuses_non_string_label_witness :
  GetPathObject
    (mkPath [[VString [Byte.x61]]; [VInteger Int32 7]]
            [VInteger Int32 1; VInteger Int32 2])
    [Byte.x61]
  = Returned VNil (Some ErrNonStringLabel)
  /\ GetPathObject (mkPath [[VString [Byte.x61]]] []) [Byte.x61]
     = Returned VNil (Some ErrUnequalLengths).
Proof.
  split.
  - apply (proj2 (GetPathObject_refuses_non_string_label
                    (mkPath [[VString [Byte.x61]]; [VInteger Int32 7]]
                            [VInteger Int32 1; VInteger Int32 2])
                    [Byte.x61]) (VInteger Int32 7)); reflexivity.
  - apply (proj1 (GetPathObject_refuses_non_string_label
                    (mkPath [[VString [Byte.x61]]] []) [Byte.x61])).
    cbn. discriminate.
Defined.
End PathFacts.

(** ** Sessions of a DriverRemoteConnection *)

Section SessionFacts.
Import Driver Sessions.
Variable defaults : Defaults.
Variable Pool : Type.
Variable PoolError : Type.
Variable newLoadBalancingPool : PoolArguments -> PoolError + Pool.

Lemma effectiveSettings_keeps configurations :
  Session (effectiveSettings defaults configurations)
  = Session (configure (defaultSettings defaults) configurations)
  /\ TraversalSource (effectiveSettings defaults configurations)
     = TraversalSource (configure (defaultSettings defaults) configurations).
Proof.
  unfold effectiveSettings.
  destruct (negb _); destruct (_ >? _); split; reflexivity.
Qed.

Lemma effectiveSettings_initial configurations :
  InitialConcurrentConnections (effectiveSettings defaults configurations)
  <= MaximumConcurrentConnections (effectiveSettings defaults configurations).
Proof.
  unfold effectiveSettings.
  destruct (negb _); destruct (_ >? _) eqn:G; cbn;
    try lia; rewrite Z.gtb_ltb in G; apply Z.ltb_ge in G; cbn in G; lia.
Qed.

Lemma effectiveSettings_session configurations :
  Session (configure (defaultSettings defaults) configurations) <> EmptyString ->
  MaximumConcurrentConnections (effectiveSettings defaults configurations) = 1.
Proof.
  intros N. unfold effectiveSettings.
  destruct (Session _); [congruence|]. cbn [isEmptyString negb].
  destruct (_ >? _); reflexivity.
Qed.

Lemma sessionConfiguration_session (driver : DriverRemoteConnection Pool)
    fresh sessionId settings :
  Session (sessionConfiguration driver fresh sessionId settings)
  = requested fresh sessionId
  /\ TraversalSource (sessionConfiguration driver fresh sessionId settings)
     = traversalSource Pool (client driver).
Proof.
  unfold sessionConfiguration, requested.
  destruct sessionId as [|id [|]]; split; reflexivity.
Qed.


(** X23: what a successful [CreateSession] gives.  The driver it was
    called on is no session and at most one id was passed; the new
    connection is open, has the passed id (or the fresh UUID) as its
    session, the URL and the traversal source of the driver, and is the
    last of the driver's spawned sessions; and unless the id is the empty
    string its pool was created for the same URL with a maximum of one
    connection and at most one initial connection. *)
Theorem CreateSession_spawns_a_session :
  forall (driver : DriverRemoteConnection Pool)
         (spawnedSessions : list (DriverRemoteConnection Pool))
         (fresh : string) (sessionId : list string)
         (drc : DriverRemoteConnection Pool)
         (spawnedSessions' : list (DriverRemoteConnection Pool)),
    CreateSession defaults Pool PoolError newLoadBalancingPool
      driver spawnedSessions fresh sessionId
    = inr (drc, spawnedSessions') ->
    isSession driver = false
    /\ (List.length sessionId <= 1)%nat
    /\ session (client drc) = requested fresh sessionId
    /\ traversalSource Pool (client drc) = traversalSource Pool (client driver)
    /\ url Pool (client drc) = url Pool (client driver)
    /\ isClosed Pool drc = false
    /\ spawnedSessions' = spawnedSessions ++ [drc]
    /\ (requested fresh sessionId <> EmptyString ->
        exists args : PoolArguments,
          newLoadBalancingPool args = inr (connections (client drc))
          /\ poolUrl args = url Pool (client driver)
          /\ maximumConcurrentConnections args = 1
          /\ initialConcurrentConnections args <= 1).
Proof.
  intros driver spawned fresh sessionId drc spawned' H.
  unfold CreateSession in H.
  destruct (1 <? List.length sessionId)%nat eqn:L; [discriminate H|].
  apply Nat.ltb_ge in L.
  destruct (isSession driver) eqn:Sd; [discriminate H|].
  unfold NewDriverRemoteConnection in H.
  destruct (newLoadBalancingPool _) as [e|pool] eqn:E; [discriminate H|].
  injection H as <- <-.
  set (cfg := [sessionConfiguration driver fresh sessionId]) in *.
  destruct (effectiveSettings_keeps cfg) as [Ks Kt].
  destruct (sessionConfiguration_session driver fresh sessionId
              (defaultSettings defaults)) as [Cs Ct].
  change (configure (defaultSettings defaults) cfg)
    with (sessionConfiguration driver fresh sessionId
            (defaultSettings defaults)) in Ks, Kt.
  cbn [client session traversalSource url isClosed connections].
  repeat split; try reflexivity; try exact L; try congruence.
  intros N. eexists. split; [exact E|].
  unfold poolArguments.
  cbn [poolUrl maximumConcurrentConnections initialConcurrentConnections].
  pose proof (effectiveSettings_initial cfg) as I.
  assert (M : MaximumConcurrentConnections (effectiveSettings defaults cfg)
              = 1).
  { apply effectiveSettings_session.
    change (configure (defaultSettings defaults) cfg)
      with (sessionConfiguration driver fresh sessionId
              (defaultSettings defaults)).
    rewrite Cs. exact N. }
  rewrite M in I |- *. split; [reflexivity | split; [reflexivity | exact I]].
Qed.

(** X24: sessions do not nest, and a session is asked for with one id
    at most.  [CreateSession] with more than one id is the error
    0201 on every driver; and on a connection that [CreateSession]
    returned for an id that is not the empty string, [CreateSession] is
    always an error: 0201 for more than one id and 0202 otherwise. No
    pool is created and the spawned sessions stay as they are. *)
Theorem CreateSession_does_not_nest :
  forall (driver : DriverRemoteConnection Pool)
         (spawnedSessions : list (DriverRemoteConnection Pool))
         (fresh : string) (sessionId : list string),
    ((1 < List.length sessionId)%nat ->
     CreateSession defaults Pool PoolError newLoadBalancingPool
       driver spawnedSessions fresh sessionId
     = inl err0201CreateSessionMultipleIdsError)
    /\ (forall drc spawnedSessions',
          CreateSession defaults Pool PoolError newLoadBalancingPool
            driver spawnedSessions fresh sessionId
          = inr (drc, spawnedSessions') ->
          requested fresh sessionId <> EmptyString ->
          forall spawned fresh' sessionId',
            CreateSession defaults Pool PoolError newLoadBalancingPool
              drc spawned fresh' sessionId'
            = inl (if (1 <? List.length sessionId')%nat
                   then err0201CreateSessionMultipleIdsError
                   else err0202CreateSessionFromSessionError)).
Proof.
  intros driver spawned fresh sessionId. split.
  - intros L. unfold CreateSession.
    apply Nat.ltb_lt in L. rewrite L. reflexivity.
  - intros drc spawned' H N spawned2 fresh' sessionId'.
    assert (S : isSession drc = true).
    { unfold CreateSession in H.
      destruct (1 <? List.length sessionId)%nat; [discriminate H|].
      destruct (isSession driver); [discriminate H|].
      unfold NewDriverRemoteConnection in H.
      destruct (newLoadBalancingPool _) as [e|pool]; [discriminate H|].
      injection H as <- _. unfold isSession. cbn [client session].
      rewrite (proj1 (effectiveSettings_keeps _)).
      change (configure (defaultSettings defaults)
                [sessionConfiguration driver fresh sessionId])
        with (sessionConfiguration driver fresh sessionId
                (defaultSettings defaults)).
      rewrite (proj1 (sessionConfiguration_session driver fresh sessionId _)).
      destruct (requested fresh sessionId); [congruence | reflexivity]. }
    unfold CreateSession. rewrite S.
    destruct (1 <? List.length sessionId')%nat; reflexivity.
Qed.
End SessionFacts.


Lemma CreateSession_spawns_a_session_witness :
  exists args : Driver.PoolArguments,
    @inr unit _ args
    = inr (Driver.mkPoolArguments "ws://host:8182/gremlin" 4 1 1)
    /\ Driver.poolUrl args = "ws://host:8182/gremlin"%string
    /\ Driver.maximumConcurrentConnections args = 1
    /\ Driver.initialConcurrentConnections args <= 1.
Proof.
  apply (proj2 (proj2 (proj2 (proj2 (proj2 (proj2 (proj2
    (CreateSession_spawns_a_session sampleDefaults
       Driver.PoolArguments unit inr
       (Driver.mkDriver
          (Driver.mkClient "ws://host:8182/gremlin" "social" Driver.Gorilla
             (Driver.mkPoolArguments "ws://host:8182/gremlin" 4 8 1)
             EmptyString)
          false)
       [] "0b1e" ["5a1c"%string]
       (Driver.mkDriver
          (Driver.mkClient "ws://host:8182/gremlin" "social" Driver.Gorilla
             (Driver.mkPoolArguments "ws://host:8182/gremlin" 4 1 1)
             "5a1c")
          false)
       _ eq_refl)))))))).
  cbn. discriminate.
Defined.

Lemma CreateSession_does_not_nest_witness :
  Sessions.CreateSession sampleDefaults Driver.PoolArguments unit inr
    (Driver.mkDriver
       (Driver.mkClient "ws://host:8182/gremlin" "social" Driver.Gorilla
          (Driver.mkPoolArguments "ws://host:8182/gremlin" 4 1 1)
          "5a1c")
       false)
    [] "0b1e" []
  = inl Sessions.err0202CreateSessionFromSessionError.
Proof.
  apply (proj2
           (CreateSession_does_not_nest sampleDefaults
              Driver.PoolArguments unit inr
              (Driver.mkDriver
                 (Driver.mkClient "ws://host:8182/gremlin" "social"
                    Driver.Gorilla
                    (Driver.mkPoolArguments "ws://host:8182/gremlin" 4 8 1)
                    EmptyString)
                 false)
              [] "0b1e" ["5a1c"%string])
           _ _ eq_refl ltac:(cbn; discriminate) [] "0b1e"%string []).
Defined.

(** ** Traversers as a response delivers them *)

Lemma read_traverser fuel (t : Z * Value) rest :
  - 2 ^ 63 <= fst t < 2 ^ 63 ->
  supported (snd t) = true ->
  (List.length (encodeTraverser t ++ rest) < fuel)%nat ->
  read fuel (encodeTraverser t ++ rest) = (rest, Ret (delivered t) None).
Proof.
  intros Hb Sv Hf. destruct t as [bulk v]. cbn [fst snd] in *.
  destruct (supported_round_trips v Sv) as [_ R].
  destruct fuel as [|fuel]; [lia|].
  unfold encodeTraverser, delivered in *. cbn [fst snd app] in *.
  rewrite (read_fq _ _ (mkSerializer TraverserType (VString [])))
    by reflexivity.
  change (reader ?r (getCodeByte TraverserType) ?b)
    with (traverserReader r b).
  unfold traverserReader. rewrite <- app_assoc.
  rewrite binaryRead_app by (try apply length_be_split; discriminate).
  rewrite be_combine_split.
  rewrite (to_signed_wrap 64) by (cbn; lia).
  rewrite R; [reflexivity|].
  cbn [List.length] in Hf.
  rewrite !length_app, length_be_split in Hf. rewrite length_app. lia.
Qed.

Lemma readItems_traversers fuel (ts : list (Z * Value)) :
  (forall t, In t ts ->
     - 2 ^ 63 <= fst t < 2 ^ 63 /\ supported (snd t) = true) ->
  forall acc rest,
    (List.length (List.concat (map encodeTraverser ts) ++ rest) < fuel)%nat ->
    readItems (read fuel) (List.length ts) acc
      (List.concat (map encodeTraverser ts) ++ rest)
    = (rest, Ret (VList (acc ++ map delivered ts)) None).
Proof.
  induction ts as [|t ts IH]; intros H acc rest Hf;
    cbn [List.length map List.concat readItems].
  - rewrite app_nil_r. reflexivity.
  - destruct (H t (or_introl eq_refl)) as [Hb Sv].
    cbn [map List.concat] in Hf. rewrite <- app_assoc in Hf |- *.
    rewrite (read_traverser fuel t _ Hb Sv Hf).
    rewrite IH.
    + rewrite <- app_assoc. reflexivity.
    + intros y Hy. apply H. right. exact Hy.
    + rewrite length_app in Hf. lia.
Qed.

Lemma traverser_is_not_its_value (v : Value) :
  forall bulk, VTraverser bulk v <> v.
Proof.
  induction v as [ | b | t z | z | bits | bits | s | u | l IH | m IH
                 | steps sources IHs IHa | bulk' v IH | bulk' v IH ];
    intros bulk; try discriminate.
  intros H. injection H as _ H. exact (IH bulk' H).
Qed.

(** C4: what [addResult] does with the traversers of a response.  A list
    of traversers on the wire is read as a slice of [Traverser] structs,
    and [addResult], which unwraps the items of type [*Traverser] only,
    enqueues every one of them once, in order and whatever its bulk, as
    it is: each result holds the struct, bulk included, and not the
    value of the traverser. *)
Theorem wire_traversers_are_enqueued_wrapped :
  forall (rs : channelResultSet) (ts : list (Z * Value)) (rest : Buffer),
    closed rs = false ->
    (List.length (channel rs) + List.length ts <= channelSize rs)%nat ->
    Z.of_nat (List.length ts) < 2 ^ 31 ->
    (forall t, In t ts ->
       - 2 ^ 63 <= fst t < 2 ^ 63 /\ supported (snd t) = true) ->
    Read (traverserFrame ts ++ rest)
    = (rest, Ret (VList (map delivered ts)) None)
    /\ addResult rs (mkResult (VList (map delivered ts)))
       = Done (enqueued rs (map (fun t => mkResult (delivered t)) ts))
    /\ (forall t, mkResult (delivered t) <> mkResult (widen (snd t))).
Proof.
  intros rs ts rest Hc Hr Hl Hts. split; [|split].
  - unfold Read, enough, traverserFrame. cbn [app List.length].
    rewrite (read_fq _ _ (mkSerializer IntType VNil)) by reflexivity.
    change (reader ?r (getCodeByte ListType) ?b) with (listReader r b).
    unfold listReader. rewrite <- app_assoc.
    destruct (length_field (List.length ts)
                (List.concat (map encodeTraverser ts) ++ rest) Hl)
      as (B & S & N & _).
    rewrite B, S, N.
    apply (readItems_traversers _ ts Hts []).
    rewrite !length_app, length_be_split. lia.
  - unfold addResult. cbn [GetTypeKind result].
    rewrite sendAll_room by (rewrite ?length_map; trivial).
    rewrite map_map. reflexivity.
  - intros t H. injection H as H.
    exact (traverser_is_not_its_value _ _ H).
Qed.

Lemma wire_traversers_are_enqueued_wrapped_witness :
  Read (traverserFrame [(3, VString [Byte.x61])])
  = ([], Ret (VList [VTraverser 3 (VString [Byte.x61])]) None)
  /\ addResult (newChannelResultSet [])
       (mkResult (VList [VTraverser 3 (VString [Byte.x61])]))
     = Done (enqueued (newChannelResultSet [])
               [mkResult (VTraverser 3 (VString [Byte.x61]))]).
Proof.
  pose proof (wire_traversers_are_enqueued_wrapped (newChannelResultSet [])
                [(3, VString [Byte.x61])] [] eq_refl
                ltac:(apply Nat.leb_le; reflexivity) ltac:(cbn; lia)) as W.
  destruct W as (R & A & _).
  - intros t [<- | []]. split; [cbn; lia | reflexivity].
  - split; [exact R | exact A].
Defined.
